(** * Inferaa: the probabilistic estimation core

    A shallow embedding of the estimation pipeline of the repository:
    the per-particle Extended Kalman Filter ([src/lib/kalman-filter.ts]),
    the particle system that drives it, the collision system, the
    hierarchical aggregator and the equation-discovery module.

    JavaScript [number]s are modelled as exact rationals ([Q]), so every
    statement below is a statement about the algorithms under exact
    arithmetic: rounding, overflow, [NaN] and [Infinity] are outside the
    model.  Equality of numbers is [Qeq] ([==]).  Library functions that
    have no rational counterpart ([Math.sqrt], [Math.log]) and the
    outcomes of [Math.random] are parameters of the definitions that call
    them. *)

From Stdlib Require Import String Ascii.
From Stdlib Require Import QArith Qabs Lqa List Lia ZArith Bool.
Import ListNotations.
Open Scope Q_scope.

(** ** JavaScript helpers *)

Definition Math_max (a b : Q) : Q := if Qle_bool a b then b else a.
Definition Math_min (a b : Q) : Q := if Qle_bool a b then a else b.
Definition Math_abs (a : Q) : Q := Qabs a.

(** [x || 0] on a possibly missing array element. *)
Definition or_zero (x : option Q) : Q :=
  match x with Some v => v | None => 0 end.

(** [l.map((x, i) => f x i)]. *)
Fixpoint mapi_from {X Y : Type} (f : X -> nat -> Y) (i : nat) (l : list X)
  : list Y :=
  match l with
  | [] => []
  | x :: t => f x i :: mapi_from f (S i) t
  end.

Definition mapi {X Y : Type} (f : X -> nat -> Y) (l : list X) : list Y :=
  mapi_from f 0 l.

(** [l[i] = v] on an array that already has index [i]. *)
Fixpoint set_nth {X : Type} (i : nat) (v : X) (l : list X) : list X :=
  match l, i with
  | [], _ => []
  | _ :: t, O => v :: t
  | x :: t, S k => x :: set_nth k v t
  end.

Definition Qlt_bool (a b : Q) : bool := negb (Qle_bool b a).

(** ** The Extended Kalman Filter *)

Module Kalman.

Record StateVector : Type := mkState {
  px : Q; py : Q; vx : Q; vy : Q;
  g : Q;   (* gravity (learned) *)
  m : Q;   (* mass (learned) *)
  mu : Q   (* friction (learned) *)
}.

Definition Matrix : Type := list (list Q).

(** [A[i][j]]. *)
Definition at2 (A : Matrix) (i j : nat) : Q := nth j (nth i A []) 0.

Record ExtendedKalmanFilter : Type := mkEKF {
  state : StateVector;
  P : Matrix;
  Qn : Matrix;   (* process noise, the field [Q] of the class *)
  R : Q;         (* measurement noise *)
  dt : Q
}.

(** *** Matrix operations *)

Definition matrixMultiply (A B : Matrix) : Matrix :=
  let cols := length (hd [] B) in
  let inner := length (hd [] A) in
  map (fun rowA =>
         map (fun j =>
                fold_left (fun acc k => acc + nth k rowA 0 * at2 B k j)
                          (seq 0 inner) 0)
             (seq 0 cols))
      A.

Definition matrixAdd (A B : Matrix) : Matrix :=
  mapi (fun row i => mapi (fun val j => val + at2 B i j) row) A.

Definition matrixSubtract (A B : Matrix) : Matrix :=
  mapi (fun row i => mapi (fun val j => val - at2 B i j) row) A.

Definition scalarMultiply (A : Matrix) (scalar : Q) : Matrix :=
  map (fun row => map (fun val => val * scalar) row) A.

Definition transpose (A : Matrix) : Matrix :=
  mapi (fun _ i => map (fun row => nth i row 0) A) (hd [] A).

Definition identity (n : nat) : Matrix :=
  map (fun i => map (fun j => if Nat.eqb i j then 1 else 0) (seq 0 n))
      (seq 0 n).

Definition matrixVectorMultiply (A : Matrix) (v : list Q) : list Q :=
  map (fun row =>
         fst (fold_left (fun '(sum, i) val => (sum + val * nth i v 0, S i))
                        row (0, O)))
      A.

Definition determinant3x3 (A : Matrix) : Q :=
  at2 A 0 0 * (at2 A 1 1 * at2 A 2 2 - at2 A 1 2 * at2 A 2 1) -
  at2 A 0 1 * (at2 A 1 0 * at2 A 2 2 - at2 A 1 2 * at2 A 2 0) +
  at2 A 0 2 * (at2 A 1 0 * at2 A 2 1 - at2 A 1 1 * at2 A 2 0).

Definition determinant4x4 (A : Matrix) : Q :=
  at2 A 0 0 * (at2 A 1 1 * at2 A 2 2 * at2 A 3 3 - at2 A 1 1 * at2 A 2 3 * at2 A 3 2 -
               at2 A 1 2 * at2 A 2 1 * at2 A 3 3 + at2 A 1 2 * at2 A 2 3 * at2 A 3 1 +
               at2 A 1 3 * at2 A 2 1 * at2 A 3 2 - at2 A 1 3 * at2 A 2 2 * at2 A 3 1) -
  at2 A 0 1 * (at2 A 1 0 * at2 A 2 2 * at2 A 3 3 - at2 A 1 0 * at2 A 2 3 * at2 A 3 2 -
               at2 A 1 2 * at2 A 2 0 * at2 A 3 3 + at2 A 1 2 * at2 A 2 3 * at2 A 3 0 +
               at2 A 1 3 * at2 A 2 0 * at2 A 3 2 - at2 A 1 3 * at2 A 2 2 * at2 A 3 0) +
  at2 A 0 2 * (at2 A 1 0 * at2 A 2 1 * at2 A 3 3 - at2 A 1 0 * at2 A 2 3 * at2 A 3 1 -
               at2 A 1 1 * at2 A 2 0 * at2 A 3 3 + at2 A 1 1 * at2 A 2 3 * at2 A 3 0 +
               at2 A 1 3 * at2 A 2 0 * at2 A 3 1 - at2 A 1 3 * at2 A 2 1 * at2 A 3 0) -
  at2 A 0 3 * (at2 A 1 0 * at2 A 2 1 * at2 A 3 2 - at2 A 1 0 * at2 A 2 2 * at2 A 3 1 -
               at2 A 1 1 * at2 A 2 0 * at2 A 3 2 + at2 A 1 1 * at2 A 2 2 * at2 A 3 0 +
               at2 A 1 2 * at2 A 2 0 * at2 A 3 1 - at2 A 1 2 * at2 A 2 1 * at2 A 3 0).

(** The two nested loops of [getMinor], skipping [row] and [col]. *)
Definition getMinor (A : Matrix) (row col n : nat) : Matrix :=
  fold_left
    (fun minor i =>
       if Nat.eqb i row then minor
       else
         minor ++
         [fold_left
            (fun minorRow j =>
               if Nat.eqb j col then minorRow else minorRow ++ [at2 A i j])
            (seq 0 n) []])
    (seq 0 n) [].

(** [Math.pow(-1, n)]. *)
Definition pow_minus_one (n : nat) : Q := (-1) ^ Z.of_nat n.

(** [adj[r][c] = v]. *)
Definition set2 (M : Matrix) (r c : nat) (v : Q) : Matrix :=
  set_nth r (set_nth c v (nth r M [])) M.

Definition adjugate4x4 (A : Matrix) : Matrix :=
  let adj0 : Matrix := repeat (repeat 0 4%nat) 4%nat in
  fold_left
    (fun adj i =>
       fold_left
         (fun adj j =>
            let minor := getMinor A i j 4 in
            set2 adj j i (pow_minus_one (i + j) * determinant3x3 minor))
         (seq 0 4) adj)
    (seq 0 4) adj0.

(** [1e-10], the threshold of [inverse]. *)
Definition epsilon : Q := 0.0000000001.

Definition inverse (A : Matrix) : Matrix :=
  let n := length A in
  if Nat.eqb n 4 then
    let det := determinant4x4 A in
    if negb (Qle_bool epsilon (Math_abs det)) then identity n
    else
      let adj := adjugate4x4 A in
      map (fun row => map (fun val => val / det) row) adj
  else identity n.

(** *** Constructor, prediction and update *)

Definition diag7 (d0 d1 d2 d3 d4 d5 d6 : Q) : Matrix :=
  [ [d0; 0; 0; 0; 0; 0; 0];
    [0; d1; 0; 0; 0; 0; 0];
    [0; 0; d2; 0; 0; 0; 0];
    [0; 0; 0; d3; 0; 0; 0];
    [0; 0; 0; 0; d4; 0; 0];
    [0; 0; 0; 0; 0; d5; 0];
    [0; 0; 0; 0; 0; 0; d6] ].

(** [new ExtendedKalmanFilter(initialState, initialCovariance, dt)]. *)
Definition new_filter (initialState : StateVector)
           (initialCovariance : Q) (dt0 : Q) : ExtendedKalmanFilter :=
  {| state := initialState;
     P := diag7 initialCovariance initialCovariance initialCovariance
                initialCovariance 5.0 2.0 1.0;
     Qn := diag7 0.01 0.01 0.01 0.01 0.0001 0.0001 0.0001;
     R := 0.1;
     dt := dt0 |}.

Definition default_initialCovariance : Q := 10.0.
Definition default_dt : Q := 0.016.

Definition computeJacobian (f : ExtendedKalmanFilter) : Matrix :=
  let s := state f in
  let dt := dt f in
  [ [1; 0; dt; 0; 0; 0; 0];
    [0; 1; 0; dt; -0.5 * dt * dt; 0; 0];
    [0; 0; 1 - mu s * dt; 0; 0; 0; - vx s * dt];
    [0; 0; 0; 1 - mu s * dt; - dt; 0; - vy s * dt];
    [0; 0; 0; 0; 1; 0; 0];
    [0; 0; 0; 0; 0; 1; 0];
    [0; 0; 0; 0; 0; 0; 1] ].

Definition computeObservationMatrix : Matrix :=
  [ [1; 0; 0; 0; 0; 0; 0];
    [0; 1; 0; 0; 0; 0; 0];
    [0; 0; 1; 0; 0; 0; 0];
    [0; 0; 0; 1; 0; 0; 0] ].

Definition predictedState (f : ExtendedKalmanFilter) : StateVector :=
  let s := state f in
  let dt := dt f in
  {| px := px s + vx s * dt + 0.5 * 0 * dt * dt;
     py := py s + vy s * dt - 0.5 * g s * dt * dt;
     vx := vx s - mu s * vx s * dt;
     vy := vy s - g s * dt - mu s * vy s * dt;
     g := g s;
     m := m s;
     mu := mu s |}.

(** [predict()]: the new filter; the returned copy of the state is
    [state (predict f)]. *)
Definition predict (f : ExtendedKalmanFilter) : ExtendedKalmanFilter :=
  let F := computeJacobian f in
  let P1 := matrixMultiply (matrixMultiply F (P f)) (transpose F) in
  let P2 := matrixAdd P1 (Qn f) in
  {| state := predictedState f; P := P2; Qn := Qn f; R := R f; dt := dt f |}.

Definition paramLearningRate : Q := 0.1.

(** The gain [K] of [update] for covariance [P0] and noise [r]. *)
Definition kalmanGain (P0 : Matrix) (r : Q) : Matrix :=
  let H := computeObservationMatrix in
  let HP := matrixMultiply H P0 in
  let S := matrixAdd (matrixMultiply HP (transpose H))
                     (scalarMultiply (identity 4) r) in
  matrixMultiply (matrixMultiply P0 (transpose H)) (inverse S).

(** [update(observedPosition, observedVelocity)]; the observations are
    the pairs [(x, y)]. *)
Definition update (f : ExtendedKalmanFilter)
           (observedPosition observedVelocity : Q * Q) : ExtendedKalmanFilter :=
  let s := state f in
  let z := [fst observedPosition; snd observedPosition;
            fst observedVelocity; snd observedVelocity] in
  let h := [px s; py s; vx s; vy s] in
  let y := mapi (fun zi i => zi - nth i h 0) z in
  let H := computeObservationMatrix in
  let K := kalmanGain (P f) (R f) in
  let Ky := matrixVectorMultiply K y in
  let gUpdate := or_zero (nth_error Ky 4) * paramLearningRate in
  let mUpdate := or_zero (nth_error Ky 5) * paramLearningRate in
  let muUpdate := or_zero (nth_error Ky 6) * paramLearningRate in
  let s' :=
    {| px := px s + nth 0 Ky 0;
       py := py s + nth 1 Ky 0;
       vx := vx s + nth 2 Ky 0;
       vy := vy s + nth 3 Ky 0;
       g := Math_max 0 (Math_min 20 (g s + gUpdate));
       m := Math_max 0.1 (Math_min 10 (m s + mUpdate));
       mu := Math_max 0 (Math_min 2 (mu s + muUpdate)) |} in
  let I := identity 7 in
  let KH := matrixMultiply K H in
  let I_KH := matrixSubtract I KH in
  {| state := s';
     P := matrixMultiply I_KH (P f);
     Qn := Qn f; R := R f; dt := dt f |}.

Definition getState (f : ExtendedKalmanFilter) : StateVector := state f.

Definition getVariance (f : ExtendedKalmanFilter) : Q :=
  let trace :=
    fold_left (fun trace i => trace + at2 (P f) i i) (seq 0 7) 0 in
  trace / 7.

Definition getCovariance (f : ExtendedKalmanFilter) : Matrix := P f.

(** The trace of a 7x7 covariance, the loop of [getVariance]. *)
Definition trace7 (M : Matrix) : Q :=
  fold_left (fun trace i => trace + at2 M i i) (seq 0 7) 0.

End Kalman.


(** ** Particles, the collision system and the particle system

    Particle objects live in a store and are named by their address: the
    [Map] of the particle system, the array handed to the collision
    system and the array returned by [getParticles] all hold addresses
    of the same objects. *)

Module V.
Record t : Type := mk { x : Q; y : Q; z : Q }.
End V.

Record TrailPoint : Type := mkTrailPoint {
  trail_x : Q; trail_y : Q; trail_z : Q; trail_variance : Q
}.

Record Particle : Type := mkParticle {
  id : string;
  position : V.t;
  velocity : V.t;
  filter : Kalman.ExtendedKalmanFilter;
  variance : Q;
  trail : list TrailPoint;
  age : Q
}.

Record CollisionEvent : Type := mkCollisionEvent {
  particle1 : string;
  particle2 : string;           (* an id, or "boundary" *)
  event_position : V.t;
  event_velocity : V.t;
  impact : Q
}.

Definition Store : Type := list Particle.

Definition deref (st : Store) (a : nat) : option Particle := nth_error st a.

(** A write to the object at address [a]. *)
Definition modify (st : Store) (a : nat) (f : Particle -> Particle) : Store :=
  match nth_error st a with
  | Some p => set_nth a (f p) st
  | None => st
  end.

Definition set_position (v : V.t) (p : Particle) : Particle :=
  {| id := id p; position := v; velocity := velocity p; filter := filter p;
     variance := variance p; trail := trail p; age := age p |}.

Definition set_velocity (v : V.t) (p : Particle) : Particle :=
  {| id := id p; position := position p; velocity := v; filter := filter p;
     variance := variance p; trail := trail p; age := age p |}.

Module Collision.
Section WithSqrt.

(** [Math.sqrt]. *)
Variable Math_sqrt : Q -> Q.

Definition collisionRadius : Q := 0.4.
Definition restitution : Q := 0.8.
Definition minImpactVelocity : Q := 0.5.

(** The body of the two loops of [checkParticleCollisions] for the pair
    of array elements [a1], [a2]; every write reads the object again, as
    [p1.velocity.x -= impulseX] does. *)
Definition resolvePair (acc : Store * list CollisionEvent) (a1 a2 : nat)
  : Store * list CollisionEvent :=
  let '(st, events) := acc in
  match deref st a1, deref st a2 with
  | Some p1, Some p2 =>
    let dx := V.x (position p2) - V.x (position p1) in
    let dy := V.y (position p2) - V.y (position p1) in
    let dz := V.z (position p2) - V.z (position p1) in
    let distance := Math_sqrt (dx * dx + dy * dy + dz * dz) in
    if Qlt_bool distance (collisionRadius * 2) && Qlt_bool 0.01 distance then
      let nx := dx / distance in
      let ny := dy / distance in
      let nz := dz / distance in
      let rvx := V.x (velocity p2) - V.x (velocity p1) in
      let rvy := V.y (velocity p2) - V.y (velocity p1) in
      let rvz := V.z (velocity p2) - V.z (velocity p1) in
      let velAlongNormal := rvx * nx + rvy * ny + rvz * nz in
      if Qlt_bool 0 velAlongNormal then (st, events)
      else
        let impulse := - (1 + restitution) * velAlongNormal in
        let impulseX := impulse * nx * 0.5 in
        let impulseY := impulse * ny * 0.5 in
        let impulseZ := impulse * nz * 0.5 in
        let st1 := modify st a1 (fun p =>
          set_velocity (V.mk (V.x (velocity p) - impulseX)
                             (V.y (velocity p) - impulseY)
                             (V.z (velocity p) - impulseZ)) p) in
        let st2 := modify st1 a2 (fun p =>
          set_velocity (V.mk (V.x (velocity p) + impulseX)
                             (V.y (velocity p) + impulseY)
                             (V.z (velocity p) + impulseZ)) p) in
        let overlap := collisionRadius * 2 - distance in
        let separationX := nx * overlap * 0.5 in
        let separationY := ny * overlap * 0.5 in
        let separationZ := nz * overlap * 0.5 in
        let st3 := modify st2 a1 (fun p =>
          set_position (V.mk (V.x (position p) - separationX)
                             (V.y (position p) - separationY)
                             (V.z (position p) - separationZ)) p) in
        let st4 := modify st3 a2 (fun p =>
          set_position (V.mk (V.x (position p) + separationX)
                             (V.y (position p) + separationY)
                             (V.z (position p) + separationZ)) p) in
        let impactStrength := Math_abs velAlongNormal in
        if Qlt_bool minImpactVelocity impactStrength then
          match deref st4 a1, deref st4 a2 with
          | Some q1, Some q2 =>
            (st4,
             events ++
             [ {| particle1 := id q1;
                  particle2 := id q2;
                  event_position :=
                    V.mk ((V.x (position q1) + V.x (position q2)) / 2)
                         ((V.y (position q1) + V.y (position q2)) / 2)
                         ((V.z (position q1) + V.z (position q2)) / 2);
                  event_velocity :=
                    V.mk ((V.x (velocity q1) + V.x (velocity q2)) / 2)
                         ((V.y (velocity q1) + V.y (velocity q2)) / 2)
                         ((V.z (velocity q1) + V.z (velocity q2)) / 2);
                  impact := impactStrength |} ])
          | _, _ => (st4, events)
          end
        else (st4, events)
    else (st, events)
  | _, _ => (st, events)
  end.

(** [checkParticleCollisions(particles)]: the array holds addresses. *)
Definition checkParticleCollisions (particles : list nat) (st : Store)
  : Store * list CollisionEvent :=
  let n := length particles in
  fold_left
    (fun acc i =>
       fold_left
         (fun acc j =>
            match nth_error particles i, nth_error particles j with
            | Some a1, Some a2 => resolvePair acc a1 a2
            | _, _ => acc
            end)
         (seq (S i) (n - S i)) acc)
    (seq 0 n) (st, []).

(** [checkBoundaryCollision(particle, bounds)]. *)
Definition checkBoundaryCollision (particle : Particle) (bmin bmax : Q)
  : option CollisionEvent :=
  let pos := position particle in
  let vel := velocity particle in
  let '(ix, cx) :=
    if Qle_bool (V.x pos) bmin && Qlt_bool (V.x vel) 0
    then (Math_abs (V.x vel), true)
    else if Qle_bool bmax (V.x pos) && Qlt_bool 0 (V.x vel)
    then (Math_abs (V.x vel), true)
    else (0, false) in
  let '(iy, cy) :=
    if Qle_bool (V.y pos) bmin && Qlt_bool (V.y vel) 0
    then (Math_abs (V.y vel), true)
    else if Qle_bool bmax (V.y pos) && Qlt_bool 0 (V.y vel)
    then (Math_abs (V.y vel), true)
    else (0, cx) in
  let '(iz, collided) :=
    if Qle_bool (V.z pos) bmin && Qlt_bool (V.z vel) 0
    then (Math_abs (V.z vel), true)
    else if Qle_bool bmax (V.z pos) && Qlt_bool 0 (V.z vel)
    then (Math_abs (V.z vel), true)
    else (0, cy) in
  if collided then
    let totalImpact := Math_sqrt (ix * ix + iy * iy + iz * iz) in
    if Qlt_bool minImpactVelocity totalImpact then
      Some {| particle1 := id particle;
              particle2 := "boundary";
              event_position := pos;
              event_velocity := vel;
              impact := totalImpact |}
    else None
  else None.

End WithSqrt.
End Collision.

Module ParticleSystem.
Section WithEnvironment.

(** [Math.sqrt], and the outcomes of the successive calls of
    [Math.random()]. *)
Variable Math_sqrt : Q -> Q.

Record t : Type := mkSystem {
  objects : Store;                       (* the Particle objects *)
  particles : list (string * nat);       (* the [Map], in insertion order *)
  collisionEvents : list CollisionEvent
}.

Definition dt : Q := 0.016.
Definition trueGravity : Q := 9.8.
Definition bounds_min : Q := -5.
Definition bounds_max : Q := 5.
Definition damping : Q := 0.85.

Definition empty : t :=
  {| objects := []; particles := []; collisionEvents := [] |}.

(** [map.set(key, a)]: an existing key keeps its place. *)
Fixpoint map_set (key : string) (a : nat) (m : list (string * nat))
  : list (string * nat) :=
  match m with
  | [] => [(key, a)]
  | (k, b) :: rest =>
    if String.eqb k key then (k, a) :: rest else (k, b) :: map_set key a rest
  end.

Fixpoint map_get (key : string) (m : list (string * nat)) : option nat :=
  match m with
  | [] => None
  | (k, b) :: rest => if String.eqb k key then Some b else map_get key rest
  end.

Fixpoint map_delete (key : string) (m : list (string * nat))
  : list (string * nat) :=
  match m with
  | [] => []
  | (k, b) :: rest =>
    if String.eqb k key then rest else (k, b) :: map_delete key rest
  end.

(** [createParticle(id, position, initialVelocity)]; [r0], [r1], [r2] are
    the three outcomes of [Math.random()].  Returns the system and the
    address of the new particle. *)
Definition createParticle (r0 r1 r2 : Q) (sys : t) (id0 : string)
           (position0 initialVelocity : V.t) : t * nat :=
  let initialGravity := Math_max 0 (Math_min 20 (9.8 + (r0 - 0.5) * 10)) in
  let initialMass := Math_max 0.1 (Math_min 10 (1.0 + (r1 - 0.5) * 2)) in
  let initialFriction := Math_max 0 (Math_min 2 (0.1 + (r2 - 0.5) * 0.5)) in
  let initialState :=
    {| Kalman.px := V.x position0;
       Kalman.py := V.y position0;
       Kalman.vx := V.x initialVelocity;
       Kalman.vy := V.y initialVelocity;
       Kalman.g := initialGravity;
       Kalman.m := initialMass;
       Kalman.mu := initialFriction |} in
  let filter0 := Kalman.new_filter initialState 10.0 dt in
  let particle :=
    {| id := id0;
       position := position0;
       velocity := initialVelocity;
       filter := filter0;
       variance := Kalman.getVariance filter0;
       trail := [];
       age := 0 |} in
  let a := length (objects sys) in
  ({| objects := objects sys ++ [particle];
      particles := map_set id0 a (particles sys);
      collisionEvents := collisionEvents sys |}, a).

(** [applyPhysics(particle)]: the true motion. *)
Definition applyPhysics (particle : Particle) : Kalman.StateVector :=
  let pos := position particle in
  let vel := velocity particle in
  let g := trueGravity in
  let mu := 0.1 in
  {| Kalman.px := V.x pos + V.x vel * dt;
     Kalman.py := V.y pos + V.y vel * dt - 0.5 * g * dt * dt;
     Kalman.vx := V.x vel - mu * V.x vel * dt;
     Kalman.vy := V.y vel - g * dt - mu * V.y vel * dt;
     Kalman.g := trueGravity;
     Kalman.m := 1.0;
     Kalman.mu := 0.1 |}.

Definition push_event (e : option CollisionEvent) (events : list CollisionEvent)
  : list CollisionEvent :=
  match e with Some ev => events ++ [ev] | None => events end.

(** The boundary conditions of one axis; [x] and [y] report events. *)
Definition boundaryX (acc : Particle * list CollisionEvent)
  : Particle * list CollisionEvent :=
  let '(p, events) := acc in
  if Qlt_bool (V.x (position p)) bounds_min then
    let p1 := set_position
                (V.mk bounds_min (V.y (position p)) (V.z (position p))) p in
    if Qlt_bool (V.x (velocity p1)) 0 then
      let p2 := set_velocity
                  (V.mk (V.x (velocity p1) * - damping)
                        (V.y (velocity p1)) (V.z (velocity p1))) p1 in
      (p2, push_event
             (Collision.checkBoundaryCollision Math_sqrt p2 bounds_min bounds_max)
             events)
    else (p1, events)
  else if Qlt_bool bounds_max (V.x (position p)) then
    let p1 := set_position
                (V.mk bounds_max (V.y (position p)) (V.z (position p))) p in
    if Qlt_bool 0 (V.x (velocity p1)) then
      let p2 := set_velocity
                  (V.mk (V.x (velocity p1) * - damping)
                        (V.y (velocity p1)) (V.z (velocity p1))) p1 in
      (p2, push_event
             (Collision.checkBoundaryCollision Math_sqrt p2 bounds_min bounds_max)
             events)
    else (p1, events)
  else (p, events).

Definition boundaryY (acc : Particle * list CollisionEvent)
  : Particle * list CollisionEvent :=
  let '(p, events) := acc in
  if Qlt_bool (V.y (position p)) bounds_min then
    let p1 := set_position
                (V.mk (V.x (position p)) bounds_min (V.z (position p))) p in
    if Qlt_bool (V.y (velocity p1)) 0 then
      let p2 := set_velocity
                  (V.mk (V.x (velocity p1)) (V.y (velocity p1) * - damping)
                        (V.z (velocity p1))) p1 in
      (p2, push_event
             (Collision.checkBoundaryCollision Math_sqrt p2 bounds_min bounds_max)
             events)
    else (p1, events)
  else if Qlt_bool bounds_max (V.y (position p)) then
    let p1 := set_position
                (V.mk (V.x (position p)) bounds_max (V.z (position p))) p in
    if Qlt_bool 0 (V.y (velocity p1)) then
      let p2 := set_velocity
                  (V.mk (V.x (velocity p1)) (V.y (velocity p1) * - damping)
                        (V.z (velocity p1))) p1 in
      (p2, push_event
             (Collision.checkBoundaryCollision Math_sqrt p2 bounds_min bounds_max)
             events)
    else (p1, events)
  else (p, events).

Definition boundaryZ (p : Particle) : Particle :=
  if Qlt_bool (V.z (position p)) bounds_min then
    let p1 := set_position
                (V.mk (V.x (position p)) (V.y (position p)) bounds_min) p in
    if Qlt_bool (V.z (velocity p1)) 0 then
      set_velocity (V.mk (V.x (velocity p1)) (V.y (velocity p1))
                         (V.z (velocity p1) * - damping)) p1
    else p1
  else if Qlt_bool bounds_max (V.z (position p)) then
    let p1 := set_position
                (V.mk (V.x (position p)) (V.y (position p)) bounds_max) p in
    if Qlt_bool 0 (V.z (velocity p1)) then
      set_velocity (V.mk (V.x (velocity p1)) (V.y (velocity p1))
                         (V.z (velocity p1) * - damping)) p1
    else p1
  else p.

(** The estimation part of the [forEach] callback of [update]: predict,
    observe the true motion with noise, correct when learning is
    enabled, copy the estimate into the particle and extend the trail.
    [r0 .. r3] are the four outcomes of [Math.random()]. *)
Definition estimateParticle (learningEnabled : bool) (r0 r1 r2 r3 : Q)
           (particle : Particle) : Particle :=
  let f1 := Kalman.predict (filter particle) in
  let trueState := applyPhysics particle in
  let observedPosition :=
    (Kalman.px trueState + (r0 - 0.5) * 0.01,
     Kalman.py trueState + (r1 - 0.5) * 0.01) in
  let observedVelocity :=
    (Kalman.vx trueState + (r2 - 0.5) * 0.01,
     Kalman.vy trueState + (r3 - 0.5) * 0.01) in
  let f2 := if learningEnabled
            then Kalman.update f1 observedPosition observedVelocity
            else f1 in
  let updatedState := Kalman.getState f2 in
  let position' :=
    V.mk (Kalman.px updatedState) (Kalman.py updatedState)
         (V.z (position particle)) in
  let velocity' :=
    V.mk (Kalman.vx updatedState) (Kalman.vy updatedState)
         (V.z (velocity particle)) in
  let variance' := Kalman.getVariance f2 in
  let trail1 :=
    trail particle ++
    [ {| trail_x := V.x position'; trail_y := V.y position';
         trail_z := V.z position'; trail_variance := variance' |} ] in
  let trail2 := if Nat.ltb 50 (length trail1) then tl trail1 else trail1 in
  {| id := id particle;
     position := position';
     velocity := velocity';
     filter := f2;
     variance := variance';
     trail := trail2;
     age := age particle + dt |}.

(** The whole [forEach] callback. *)
Definition tickParticle (learningEnabled : bool) (r0 r1 r2 r3 : Q)
           (acc : Particle * list CollisionEvent)
  : Particle * list CollisionEvent :=
  let '(particle, events) := acc in
  let p1 := estimateParticle learningEnabled r0 r1 r2 r3 particle in
  let '(p2, events2) := boundaryY (boundaryX (p1, events)) in
  (boundaryZ p2, events2).

(** [update(learningEnabled)]; [random k] is the outcome of the call
    number [k] of [Math.random()] during the tick.  Returns the system
    and the returned event list. *)
Definition update (learningEnabled : bool) (random : nat -> Q) (sys : t)
  : t * list CollisionEvent :=
  let particlesArray := map snd (particles sys) in
  let '(st1, particleCollisions) :=
    Collision.checkParticleCollisions Math_sqrt particlesArray (objects sys) in
  let '(st2, events, _) :=
    fold_left
      (fun '(st, events, k) a =>
         match deref st a with
         | Some particle =>
           let '(p', events') :=
             tickParticle learningEnabled
               (random (4 * k)%nat) (random (4 * k + 1)%nat)
               (random (4 * k + 2)%nat) (random (4 * k + 3)%nat)
               (particle, events) in
           (set_nth a p' st, events', S k)
         | None => (st, events, S k)
         end)
      particlesArray (st1, particleCollisions, O) in
  ({| objects := st2; particles := particles sys; collisionEvents := events |},
   events).

Definition getCollisionEvents (sys : t) : list CollisionEvent :=
  collisionEvents sys.

(** [getParticles()]: a new array of the addresses held by the [Map]. *)
Definition getParticles (sys : t) : list nat := map snd (particles sys).

Definition getParticle (sys : t) (id0 : string) : option nat :=
  map_get id0 (particles sys).

Definition removeParticle (sys : t) (id0 : string) : t :=
  {| objects := objects sys;
     particles := map_delete id0 (particles sys);
     collisionEvents := collisionEvents sys |}.

Definition clear (sys : t) : t :=
  {| objects := objects sys; particles := [];
     collisionEvents := collisionEvents sys |}.

End WithEnvironment.
End ParticleSystem.

(** ** The hierarchical aggregator *)

(** [l.reduce((a, b) => a + b, 0)]. *)
Definition sum_list (l : list Q) : Q := fold_left Qplus l 0.

(** A length or an index as a number. *)
Definition of_nat (n : nat) : Q := inject_Z (Z.of_nat n).

Module Aggregator.
Section WithLog.

(** [Math.log], [Math.PI] and [Math.E]. *)
Variable Math_log : Q -> Q.
Variables Math_PI Math_E : Q.

Record Posterior : Type := mkPosterior {
  mean : Q;
  variance : Q;
  samples : list Q;
  entropy : Q
}.

Record GlobalPosterior : Type := mkGlobalPosterior {
  gravity : Posterior;
  mass : Posterior;
  friction : Posterior;
  consensusStrength : Q;
  informationGain : Q
}.

Record Belief : Type := mkBelief {
  belief_g : Q; belief_m : Q; belief_mu : Q; belief_variance : Q
}.

Record t : Type := mkUniverse {
  globalPosterior : GlobalPosterior;
  particleBeliefs : list (string * Belief);   (* the [Map], in insertion order *)
  history : list GlobalPosterior
}.

Definition maxHistory : nat := 1000.

Definition calculateEntropy (variance0 : Q) : Q :=
  if Qle_bool variance0 0 then 0
  else 0.5 * Math_log (2 * Math_PI * Math_E * variance0).

Definition calculateVariance (samples0 : list Q) : Q :=
  if Nat.eqb (length samples0) 0 then 0
  else
    let mean0 := sum_list samples0 / of_nat (length samples0) in
    let squaredDiffs := map (fun x => (x - mean0) ^ 2) samples0 in
    sum_list squaredDiffs / of_nat (length samples0).

(** The constructor. *)
Definition new_universe : t :=
  {| globalPosterior :=
       {| gravity := {| mean := 9.8; variance := 25.0; samples := [];
                        entropy := calculateEntropy 25.0 |};
          mass := {| mean := 1.0; variance := 4.0; samples := [];
                     entropy := calculateEntropy 4.0 |};
          friction := {| mean := 0.1; variance := 1.0; samples := [];
                         entropy := calculateEntropy 1.0 |};
          consensusStrength := 0.0;
          informationGain := 0.0 |};
     particleBeliefs := [];
     history := [] |}.

(** [particleBeliefs.set(particleId, beliefs)]. *)
Fixpoint beliefs_set (key : string) (b : Belief) (m : list (string * Belief))
  : list (string * Belief) :=
  match m with
  | [] => [(key, b)]
  | (k, b0) :: rest =>
    if String.eqb k key then (k, b) :: rest
    else (k, b0) :: beliefs_set key b rest
  end.

Fixpoint beliefs_delete (key : string) (m : list (string * Belief))
  : list (string * Belief) :=
  match m with
  | [] => []
  | (k, b0) :: rest =>
    if String.eqb k key then rest else (k, b0) :: beliefs_delete key rest
  end.

(** The inverse-variance weighted mean of the samples. *)
Definition weightedMean (samples0 variances : list Q) : Q :=
  let weights := map (fun v => 1 / (v + 0.01)) variances in
  let weightSum := sum_list weights in
  fst (fold_left (fun '(sum, i) val => (sum + val * nth i weights 0, S i))
                 samples0 (0, O))
  / weightSum.

Definition harmonicVariance (variances : list Q) : Q :=
  of_nat (length variances) /
  fold_left (fun sum v => sum + 1 / (v + 0.01)) variances 0.

(** The update of one of the three posteriors. *)
Definition posteriorOf (samples0 variances : list Q) : Posterior :=
  let totalVariance := harmonicVariance variances + calculateVariance samples0 in
  {| mean := weightedMean samples0 variances;
     variance := totalVariance;
     samples := samples0;
     entropy := calculateEntropy totalVariance |}.

(** [updateGlobalPosterior(particleId, beliefs)]. *)
Definition updateGlobalPosterior (u : t) (particleId : string) (beliefs : Belief)
  : t :=
  let particleBeliefs' := beliefs_set particleId beliefs (particleBeliefs u) in
  let gSamples := map (fun kb => belief_g (snd kb)) particleBeliefs' in
  let mSamples := map (fun kb => belief_m (snd kb)) particleBeliefs' in
  let muSamples := map (fun kb => belief_mu (snd kb)) particleBeliefs' in
  let gVariances := map (fun kb => belief_variance (snd kb)) particleBeliefs' in
  let mVariances := map (fun kb => belief_variance (snd kb)) particleBeliefs' in
  let muVariances := map (fun kb => belief_variance (snd kb)) particleBeliefs' in
  if Nat.eqb (length gSamples) 0 then
    {| globalPosterior := globalPosterior u;
       particleBeliefs := particleBeliefs';
       history := history u |}
  else
    let old := globalPosterior u in
    let oldGEntropy := entropy (gravity old) in
    let gravity' := posteriorOf gSamples gVariances in
    let oldMEntropy := entropy (mass old) in
    let mass' := posteriorOf mSamples mVariances in
    let oldMuEntropy := entropy (friction old) in
    let friction' := posteriorOf muSamples muVariances in
    let gConsensus := 1 / (1 + calculateVariance gSamples) in
    let mConsensus := 1 / (1 + calculateVariance mSamples) in
    let muConsensus := 1 / (1 + calculateVariance muSamples) in
    let gInfoGain := Math_max 0 (oldGEntropy - entropy gravity') in
    let mInfoGain := Math_max 0 (oldMEntropy - entropy mass') in
    let muInfoGain := Math_max 0 (oldMuEntropy - entropy friction') in
    let posterior' :=
      {| gravity := gravity';
         mass := mass';
         friction := friction';
         consensusStrength := (gConsensus + mConsensus + muConsensus) / 3;
         informationGain :=
           informationGain old + (gInfoGain + mInfoGain + muInfoGain) / 3 |} in
    let history1 := history u ++ [posterior'] in
    let history2 :=
      if Nat.ltb maxHistory (length history1) then tl history1 else history1 in
    {| globalPosterior := posterior';
       particleBeliefs := particleBeliefs';
       history := history2 |}.

(** [calculateMutualInformation()]. *)
Definition calculateMutualInformation (u : t) : Q :=
  if Nat.ltb (length (particleBeliefs u)) 2 then 0
  else
    let beliefs := map snd (particleBeliefs u) in
    let n := length beliefs in
    let correlations :=
      fold_left
        (fun acc i =>
           fold_left
             (fun acc j =>
                match nth_error beliefs i, nth_error beliefs j with
                | Some b1, Some b2 =>
                  acc ++
                  [1 - Math_abs (belief_g b1 - belief_g b2) /
                       (Math_abs (belief_g b1) + Math_abs (belief_g b2) + 0.1)]
                | _, _ => acc
                end)
             (seq (S i) (n - S i)) acc)
        (seq 0 n) [] in
    if Nat.ltb 0 (length correlations)
    then sum_list correlations / of_nat (length correlations)
    else 0.

(** [l.slice(-20)]. *)
Definition slice_last (k : nat) {X : Type} (l : list X) : list X :=
  skipn (length l - k) l.

Record ConvergenceMetrics : Type := mkMetrics {
  converged : bool;
  convergenceRate : Q;
  stability : Q
}.

(** [getConvergenceMetrics()]. *)
Definition getConvergenceMetrics (u : t) : ConvergenceMetrics :=
  if Nat.ltb (length (history u)) 10 then
    {| converged := false; convergenceRate := 0; stability := 0 |}
  else
    let recentVariances :=
      map (fun h => variance (gravity h)) (slice_last 20 (history u)) in
    let varianceTrend :=
      nth 0 recentVariances 0 -
      nth (length recentVariances - 1) recentVariances 0 in
    let convergenceRate0 := varianceTrend / nth 0 recentVariances 0 in
    let recentMeans :=
      map (fun h => mean (gravity h)) (slice_last 20 (history u)) in
    let meanVariance := calculateVariance recentMeans in
    let stability0 := 1 / (1 + meanVariance) in
    let converged0 :=
      Qlt_bool (variance (gravity (globalPosterior u))) 0.1 &&
      Qlt_bool 0.9 stability0 in
    {| converged := converged0;
       convergenceRate := convergenceRate0;
       stability := stability0 |}.

Definition getGlobalPosterior (u : t) : GlobalPosterior := globalPosterior u.

Definition getHistory (u : t) : list GlobalPosterior := history u.

Definition removeParticle (u : t) (particleId : string) : t :=
  {| globalPosterior := globalPosterior u;
     particleBeliefs := beliefs_delete particleId (particleBeliefs u);
     history := history u |}.

End WithLog.
End Aggregator.

(** ** Equation discovery *)

Module EquationDiscovery.

Record Observation : Type := mkObservation {
  position : Q * Q;
  velocity : Q * Q;
  acceleration : Q * Q;
  time : Q
}.

Record FittedParameter : Type := mkParameter {
  name : string;
  value : Q;
  confidence : Q
}.

Record DiscoveredEquation : Type := mkEquation {
  form : string;
  parameters : list FittedParameter;
  rSquared : Q;
  complexity : Q
}.

Definition maxObservations : nat := 500.

(** [addObservation(position, velocity, acceleration, time)] on the
    buffer [observations]. *)
Definition addObservation (observations : list Observation)
           (position0 velocity0 acceleration0 : Q * Q) (time0 : Q)
  : list Observation :=
  let l := observations ++
           [ {| position := position0; velocity := velocity0;
                acceleration := acceleration0; time := time0 |} ] in
  if Nat.ltb maxObservations (length l) then tl l else l.

(** [l.reduce((sum, v, i) => sum + f v i, 0)]. *)
Definition sum_mapi (f : Q -> nat -> Q) (l : list Q) : Q :=
  fst (fold_left (fun '(sum, i) v => (sum + f v i, S i)) l (0, O)).

Definition discoverGravityEquation (observations : list Observation)
  : option DiscoveredEquation :=
  if Nat.ltb (length observations) 10 then None
  else
    let yAccelerations := map (fun o => snd (acceleration o)) observations in
    let meanAccel := sum_list yAccelerations / of_nat (length yAccelerations) in
    let discoveredG := - meanAccel in
    let ssRes :=
      fold_left (fun sum a => let predicted := - discoveredG in
                              sum + (a - predicted) ^ 2)
                yAccelerations 0 in
    let ssTot :=
      fold_left (fun sum a => let mean := meanAccel in sum + (a - mean) ^ 2)
                yAccelerations 0 in
    let rSquared0 := if Qlt_bool 0 ssTot then 1 - ssRes / ssTot else 0 in
    let confidence0 :=
      Math_min 1 (rSquared0 * (of_nat (length observations) / 100)) in
    Some {| form := "y'' = -g";
            parameters :=
              [ {| name := "g"; value := discoveredG;
                   confidence := confidence0 |} ];
            rSquared := rSquared0;
            complexity := 1 |}.

Definition discoverVelocityEquation (observations : list Observation)
  : option DiscoveredEquation :=
  if Nat.ltb (length observations) 10 then None
  else
    let velocities := map (fun o => snd (velocity o)) observations in
    let times := mapi (fun _ i => of_nat i * 0.016) observations in
    let '(sumT, sumV, sumTV, sumT2) :=
      fold_left
        (fun '(sumT, sumV, sumTV, sumT2) i =>
           let t := nth i times 0 in
           let v := nth i velocities 0 in
           (sumT + t, sumV + v, sumTV + t * v, sumT2 + t * t))
        (seq 0 (length velocities)) (0, 0, 0, 0) in
    let n := of_nat (length velocities) in
    let slope := (n * sumTV - sumT * sumV) / (n * sumT2 - sumT * sumT) in
    let intercept := (sumV - slope * sumT) / n in
    let predicted := mapi (fun _ i => intercept + slope * nth i times 0)
                          velocities in
    let ssRes := sum_mapi (fun v i => (v - nth i predicted 0) ^ 2) velocities in
    let ssTot :=
      fold_left (fun sum v => let mean := sumV / n in sum + (v - mean) ^ 2)
                velocities 0 in
    let rSquared0 := if Qlt_bool 0 ssTot then 1 - ssRes / ssTot else 0 in
    Some {| form := "v = v₀ + at";
            parameters :=
              [ {| name := "v₀"; value := intercept; confidence := rSquared0 |};
                {| name := "a"; value := slope; confidence := rSquared0 |} ];
            rSquared := rSquared0;
            complexity := 2 |}.

Definition discoverPositionEquation (observations : list Observation)
  : option DiscoveredEquation :=
  if Nat.ltb (length observations) 20 then None
  else
    let positions := map (fun o => snd (position o)) observations in
    let velocities := map (fun o => snd (velocity o)) observations in
    let times := mapi (fun _ i => of_nat i * 0.016) observations in
    let n := length positions in
    let '(sumT, sumT2, sumT3, sumT4, sumY, sumTY, sumT2Y) :=
      fold_left
        (fun '(sumT, sumT2, sumT3, sumT4, sumY, sumTY, sumT2Y) i =>
           let t := nth i times 0 in
           let y := nth i positions 0 in
           (sumT + t, sumT2 + t * t, sumT3 + t * t * t,
            sumT4 + t * t * t * t, sumY + y, sumTY + t * y,
            sumT2Y + t * t * y))
        (seq 0 n) (0, 0, 0, 0, 0, 0, 0) in
    let v0 := or_zero (nth_error velocities 0) in
    let y0 := or_zero (nth_error positions 0) in
    let velocityChange :=
      if Nat.ltb 1 (length velocities)
      then nth (length velocities - 1) velocities 0 - nth 0 velocities 0
      else 0 in
    let totalTime := nth (length times - 1) times 0 - nth 0 times 0 in
    let a := if Qlt_bool 0 totalTime then velocityChange / totalTime else 0 in
    let predicted :=
      mapi (fun _ i => let t := nth i times 0 in
                       y0 + v0 * t + 0.5 * a * t * t)
           positions in
    let ssRes := sum_mapi (fun y i => (y - nth i predicted 0) ^ 2) positions in
    let ssTot :=
      fold_left (fun sum y => let mean := sumY / of_nat n in
                              sum + (y - mean) ^ 2)
                positions 0 in
    let rSquared0 := if Qlt_bool 0 ssTot then 1 - ssRes / ssTot else 0 in
    Some {| form := "y = y₀ + v₀t + ½at²";
            parameters :=
              [ {| name := "y₀"; value := y0; confidence := rSquared0 |};
                {| name := "v₀"; value := v0; confidence := rSquared0 |};
                {| name := "a"; value := a; confidence := rSquared0 |} ];
            rSquared := rSquared0;
            complexity := 3 |}.

Record AllEquations : Type := mkAll {
  all_gravity : option DiscoveredEquation;
  all_velocity : option DiscoveredEquation;
  all_position : option DiscoveredEquation
}.

Definition getAllDiscoveredEquations (observations : list Observation)
  : AllEquations :=
  {| all_gravity := discoverGravityEquation observations;
     all_velocity := discoverVelocityEquation observations;
     all_position := discoverPositionEquation observations |}.

End EquationDiscovery.

(** ** The meta-learning adapter *)

Module MetaLearning.

Record AdaptationRecord : Type := mkRecord {
  record_time : Q;
  record_learningRate : Q;
  record_performance : Q
}.

Record MetaLearningState : Type := mkMetaState {
  learningRate : Q;
  processNoise : Q;
  measurementNoise : Q;
  adaptationHistory : list AdaptationRecord
}.

Record t : Type := mkAgent {
  state : MetaLearningState;
  performanceHistory : list Q
}.

Definition maxHistory : nat := 100.

Definition new_agent : t :=
  {| state := {| learningRate := 1.0; processNoise := 0.01;
                 measurementNoise := 0.1; adaptationHistory := [] |};
     performanceHistory := [] |}.

(** [adapt(currentVariance, previousVariance, timeStep)]: the new agent;
    the returned state is [state] of the result. *)
Definition adapt (agent : t) (currentVariance previousVariance timeStep : Q)
  : t :=
  let varianceReduction :=
    if Qlt_bool 0 previousVariance
    then (previousVariance - currentVariance) / previousVariance
    else 0 in
  let history1 := performanceHistory agent ++ [varianceReduction] in
  let history2 :=
    if Nat.ltb maxHistory (length history1) then tl history1 else history1 in
  let avgPerformance :=
    if Nat.ltb 0 (length history2)
    then sum_list history2 / of_nat (length history2)
    else 0 in
  let learningRate' :=
    if Qlt_bool 0.01 avgPerformance
    then Math_min 2.0 (learningRate (state agent) * 1.01)
    else if Qlt_bool avgPerformance (-0.01)
    then Math_max 0.1 (learningRate (state agent) * 0.99)
    else learningRate (state agent) in
  let processNoise' := 0.005 + currentVariance * 0.001 in
  let measurementNoise' := Math_max 0.01 (0.1 - avgPerformance * 0.5) in
  let adaptation1 :=
    adaptationHistory (state agent) ++
    [ {| record_time := timeStep;
         record_learningRate := learningRate';
         record_performance := avgPerformance |} ] in
  let adaptation2 :=
    if Nat.ltb maxHistory (length adaptation1) then tl adaptation1
    else adaptation1 in
  {| state := {| learningRate := learningRate';
                 processNoise := processNoise';
                 measurementNoise := measurementNoise';
                 adaptationHistory := adaptation2 |};
     performanceHistory := history2 |}.

Definition getOptimalParameters (agent : t) : Q * Q * Q :=
  (learningRate (state agent), processNoise (state agent),
   measurementNoise (state agent)).

End MetaLearning.

(** ** The objects behind the query surface

    The getters of the estimator, of the aggregator and of the particle
    system return objects.  To speak of what a caller can reach through
    a returned object, objects live in a heap and are named by
    references; [{...obj}], [JSON.parse(JSON.stringify(v))] and
    [Array.from] allocate new objects. *)

Module JS.

Inductive value : Type :=
| Num (q : Q)
| Str (s : string)
| Ref (a : nat).

Inductive object : Type :=
| Obj (fields : list (string * value))
| Arr (elems : list value).

Definition heap : Type := list object.

Definition alloc (h : heap) (o : object) : heap * value :=
  (h ++ [o], Ref (length h)).

(** Any mutation of the object at address [a]: it becomes [o]. *)
Definition write (h : heap) (a : nat) (o : object) : heap := set_nth a o h.

(** The values held by an object. *)
Definition contents (o : object) : list value :=
  match o with
  | Obj fields => map snd fields
  | Arr elems => elems
  end.

(** A JSON text, as its tree. *)
#[local] Unset Elimination Schemes.
Inductive json : Type :=
| JNum (q : Q)
| JStr (s : string)
| JObj (fields : list (string * json))
| JArr (elems : list json).
#[local] Set Elimination Schemes.

(** All the results, or none. *)
Fixpoint sequence {X : Type} (l : list (option X)) : option (list X) :=
  match l with
  | [] => Some []
  | None :: _ => None
  | Some x :: rest =>
    match sequence rest with
    | Some xs => Some (x :: xs)
    | None => None
    end
  end.

(** [JSON.stringify(v)]; [fuel] bounds the depth of the structure (a
    cyclic structure has no JSON text). *)
Fixpoint stringify (fuel : nat) (h : heap) (v : value) : option json :=
  match fuel with
  | O => None
  | S fuel' =>
    match v with
    | Num q => Some (JNum q)
    | Str s => Some (JStr s)
    | Ref a =>
      match nth_error h a with
      | Some (Obj fields) =>
        option_map JObj
          (sequence
             (map (fun kv => option_map (pair (fst kv))
                                        (stringify fuel' h (snd kv)))
                  fields))
      | Some (Arr elems) =>
        option_map JArr (sequence (map (stringify fuel' h) elems))
      | None => None
      end
    end
  end.

(** [JSON.parse(text)]: every object and array of the text is a new
    object of the heap. *)
Fixpoint parse (j : json) (h : heap) : heap * value :=
  match j with
  | JNum q => (h, Num q)
  | JStr s => (h, Str s)
  | JObj fields =>
    let '(h1, vs) :=
      fold_left (fun '(h0, acc) kj =>
                   let '(h', v) := parse (snd kj) h0 in
                   (h', acc ++ [(fst kj, v)]))
                fields (h, []) in
    alloc h1 (Obj vs)
  | JArr elems =>
    let '(h1, vs) :=
      fold_left (fun '(h0, acc) j0 =>
                   let '(h', v) := parse j0 h0 in (h', acc ++ [v]))
                elems (h, []) in
    alloc h1 (Arr vs)
  end.

(** [JSON.parse(JSON.stringify(v))]. *)
Definition json_clone (fuel : nat) (h : heap) (v : value)
  : option (heap * value) :=
  option_map (fun j => parse j h) (stringify fuel h v).

(** [{ ...obj }] for the object at address [a]. *)
Definition spread (h : heap) (a : nat) : option (heap * value) :=
  match nth_error h a with
  | Some (Obj fields) => Some (alloc h (Obj fields))
  | _ => None
  end.

(** [ExtendedKalmanFilter.getState()], for [this.state] at [state_addr]. *)
Definition getState (h : heap) (state_addr : nat) : option (heap * value) :=
  spread h state_addr.

(** [ExtendedKalmanFilter.getCovariance()], for [this.P] at [P_addr]. *)
Definition getCovariance (fuel : nat) (h : heap) (P_addr : nat)
  : option (heap * value) :=
  match json_clone fuel h (Ref P_addr) with
  | Some (h1, data) => Some (alloc h1 (Obj [("data"%string, data)]))
  | None => None
  end.

(** [HierarchicalBayesianUniverse.getGlobalPosterior()], for
    [this.globalPosterior] at [posterior_addr]. *)
Definition getGlobalPosterior (fuel : nat) (h : heap) (posterior_addr : nat)
  : option (heap * value) :=
  json_clone fuel h (Ref posterior_addr).

(** [ParticleSystem.getParticles()]: [Array.from(this.particles.values())],
    where the values of the [Map] are the particles at [particle_addrs]. *)
Definition getParticles (h : heap) (particle_addrs : list nat) : heap * value :=
  alloc h (Arr (map Ref particle_addrs)).

(** The layout of [this.state]. *)
Definition state_object (s : Kalman.StateVector) : object :=
  Obj [ ("px"%string, Num (Kalman.px s)); ("py"%string, Num (Kalman.py s));
        ("vx"%string, Num (Kalman.vx s)); ("vy"%string, Num (Kalman.vy s));
        ("g"%string, Num (Kalman.g s)); ("m"%string, Num (Kalman.m s));
        ("μ"%string, Num (Kalman.mu s)) ].

(** The layout of a [number[][]]: the rows, then the array of the rows. *)
Definition alloc_matrix (M : Kalman.Matrix) (h : heap) : heap * value :=
  let '(h1, rows) :=
    fold_left (fun '(h0, acc) row =>
                 let '(h', v) := alloc h0 (Arr (map Num row)) in
                 (h', acc ++ [v]))
              M (h, []) in
  alloc h1 (Arr rows).

End JS.

(** * Verification *)

(** ** Definitions used by the statements *)

Import Kalman.

(** The [r] by [c] matrix with entries [f i j]. *)
Definition tabulate (r c : nat) (f : nat -> nat -> Q) : Matrix :=
  map (fun i => map (fun j => f i j) (seq 0 c)) (seq 0 r).

(** [M] has [r] rows of [c] numbers. *)
Definition shape (r c : nat) (M : Matrix) : Prop :=
  length M = r /\ Forall (fun row => length row = c) M.

Definition is_symmetric (n : nat) (M : Matrix) : Prop :=
  forall i j, (i < n)%nat -> (j < n)%nat -> at2 M i j == at2 M j i.

Fixpoint sumn (n : nat) (f : nat -> Q) : Q :=
  match n with O => 0 | S k => sumn k f + f k end.

(** The quadratic form [x^T M x] of an [n] by [n] matrix of entries. *)
Definition qf (n : nat) (M : nat -> nat -> Q) (x : nat -> Q) : Q :=
  sumn n (fun i => sumn n (fun j => x i * M i j * x j)).

Definition norm2 (n : nat) (x : nat -> Q) : Q := sumn n (fun i => x i * x i).

(** [r |x|^2 <= x^T M x] for every [x]. *)
Definition coercive (n : nat) (r : Q) (M : nat -> nat -> Q) : Prop :=
  forall x : nat -> Q, r * norm2 n x <= qf n M x.

(** Positive semi-definiteness of a 7x7 covariance, as a quadratic form. *)
Definition psd7 (M : Matrix) : Prop :=
  forall x : nat -> Q, 0 <= qf 7 (at2 M) x.

Definition delta (i j : nat) : Q := if Nat.eqb i j then 1 else 0.

Definition unit_vector (k i : nat) : Q := if Nat.eqb i k then 1 else 0.

(** Schur complement of the leading entry. *)
Definition schur (M : nat -> nat -> Q) (i j : nat) : Q :=
  M (S i) (S j) - M (S i) O * M O (S j) / M O O.

(** The vector that realises the Schur complement's quadratic form. *)
Definition lift (M : nat -> nat -> Q) (n : nat) (y : nat -> Q) (i : nat) : Q :=
  match i with
  | O => - sumn n (fun j => M O (S j) * y j) / M O O
  | S k => y k
  end.

Definition det1 (M : nat -> nat -> Q) : Q := M O O.

Definition det2 (M : nat -> nat -> Q) : Q :=
  M 0%nat 0%nat * M 1%nat 1%nat - M 0%nat 1%nat * M 1%nat 0%nat.

Definition det3 (M : nat -> nat -> Q) : Q :=
  determinant3x3 (tabulate 3 3 M).

Definition det4 (M : nat -> nat -> Q) : Q :=
  determinant4x4 (tabulate 4 4 M).

(** The process noise set by the constructor. *)
Definition processNoise : Matrix :=
  diag7 0.01 0.01 0.01 0.01 0.0001 0.0001 0.0001.

(** The innovation covariance [S] of [update]. *)
Definition innovationCovariance (P0 : Matrix) (r : Q) : Matrix :=
  let H := computeObservationMatrix in
  matrixAdd (matrixMultiply (matrixMultiply H P0) (transpose H))
            (scalarMultiply (identity 4) r).

(** The covariance written by [update] when [X] stands for the inverse
    of [S]. *)
Definition covUpdate (P0 X : Matrix) : Matrix :=
  let H := computeObservationMatrix in
  let K := matrixMultiply (matrixMultiply P0 (transpose H)) X in
  matrixMultiply (matrixSubtract (identity 7) (matrixMultiply K H)) P0.

(** What the constructor establishes and both steps keep. *)
Definition filter_ok (f : ExtendedKalmanFilter) : Prop :=
  shape 7 7 (P f) /\ Qn f = processNoise /\ R f = 0.1.

(** A call on the estimator. *)
Inductive call : Type :=
| Predict : call
| Update (observedPosition observedVelocity : Q * Q) : call.

Definition step (f : ExtendedKalmanFilter) (c : call) : ExtendedKalmanFilter :=
  match c with
  | Predict => predict f
  | Update op ov => update f op ov
  end.

Definition run (calls : list call) (f : ExtendedKalmanFilter)
  : ExtendedKalmanFilter :=
  fold_left step calls f.

(** ** Numbers *)

Lemma Math_max_lower (a b : Q) : a <= Math_max a b.
Proof.
  unfold Math_max. destruct (Qle_bool a b) eqn:E.
  - now apply Qle_bool_iff.
  - apply Qle_refl.
Qed.

Lemma Math_max_min_upper (lo hi x : Q) :
  lo <= hi -> Math_max lo (Math_min hi x) <= hi.
Proof.
  intros Hlh. unfold Math_max, Math_min.
  destruct (Qle_bool hi x) eqn:E1; destruct (Qle_bool lo _) eqn:E2;
    try apply Qle_refl; try assumption.
  apply Qnot_lt_le. intros Hlt.
  assert (Hle : hi <= x) by (apply Qlt_le_weak; exact Hlt).
  apply Qle_bool_iff in Hle. congruence.
Qed.

Lemma Qlt_bool_iff (a b : Q) : Qlt_bool a b = true <-> a < b.
Proof.
  unfold Qlt_bool. rewrite negb_true_iff. split.
  - intros H. apply Qnot_le_lt. intros Hle.
    apply Qle_bool_iff in Hle. congruence.
  - intros H. destruct (Qle_bool b a) eqn:E; [ | reflexivity ].
    apply Qle_bool_iff in E. exfalso. apply (Qlt_not_le _ _ H E).
Qed.

Lemma Qlt_bool_false_iff (a b : Q) : Qlt_bool a b = false <-> b <= a.
Proof.
  unfold Qlt_bool. rewrite negb_false_iff. apply Qle_bool_iff.
Qed.

Lemma Qle_bool_false_iff (a b : Q) : Qle_bool a b = false <-> b < a.
Proof.
  split.
  - intros H. apply Qnot_le_lt. intros Hle.
    apply Qle_bool_iff in Hle. congruence.
  - intros H. destruct (Qle_bool a b) eqn:E; [ | reflexivity ].
    apply Qle_bool_iff in E. exfalso. apply (Qlt_not_le _ _ H E).
Qed.

(** ** Explicit matrices *)

Lemma nth_map_seq {X : Type} (f : nat -> X) (n i : nat) (d : X) :
  (i < n)%nat -> nth i (map f (seq 0 n)) d = f i.
Proof.
  intros Hi.
  rewrite (nth_indep _ d (f O)) by (rewrite length_map, length_seq; exact Hi).
  rewrite map_nth. rewrite seq_nth by exact Hi. reflexivity.
Qed.

Lemma shape_tabulate r c M : shape r c M -> M = tabulate r c (at2 M).
Proof.
  intros [Hl Hr]. unfold tabulate.
  apply (nth_ext _ _ [] []).
  - rewrite length_map. rewrite length_seq. exact Hl.
  - intros i Hi. rewrite Hl in Hi.
    rewrite nth_map_seq by exact Hi.
    assert (Hrow : length (nth i M []) = c).
    { rewrite Forall_forall in Hr. apply Hr. apply nth_In. now rewrite Hl. }
    apply (nth_ext _ _ 0 0).
    + rewrite length_map. rewrite length_seq. exact Hrow.
    + intros j Hj. rewrite Hrow in Hj.
      rewrite nth_map_seq by exact Hj. reflexivity.
Qed.

Lemma tabulate_shape r c f : shape r c (tabulate r c f).
Proof.
  unfold shape, tabulate. split.
  - now rewrite length_map, length_seq.
  - apply Forall_forall. intros row Hin. apply in_map_iff in Hin.
    destruct Hin as [i [<- _]]. now rewrite length_map, length_seq.
Qed.

Lemma at2_tabulate r c f i j :
  (i < r)%nat -> (j < c)%nat -> at2 (tabulate r c f) i j = f i j.
Proof.
  intros Hi Hj. unfold at2, tabulate.
  rewrite nth_map_seq by exact Hi. now rewrite nth_map_seq by exact Hj.
Qed.

(** Evaluation of the matrix code on explicit lists; the arithmetic of
    [Q] is left alone. *)
Ltac mat_eval :=
  cbv [matrixMultiply matrixAdd matrixSubtract scalarMultiply transpose identity
       matrixVectorMultiply computeJacobian computeObservationMatrix kalmanGain
       innovationCovariance covUpdate processNoise
       tabulate at2 mapi mapi_from map fold_left seq nth hd length Nat.eqb
       diag7 trace7 fst snd Nat.add
       state P Qn R dt predict update new_filter predictedState].

(** Replace a matrix of known shape by the explicit list of its entries. *)
Ltac explicit_matrix M H p :=
  let E := fresh "E" in
  pose proof (shape_tabulate _ _ _ H) as E;
  set (p := at2 M) in E; clearbody p;
  cbv [tabulate map seq] in E; subst M.

Ltac cases_lt H :=
  match type of H with
  | (?i < _)%nat =>
    repeat (destruct i as [|i]; [ | apply PeanoNat.lt_S_n in H ]);
    try (exfalso; lia)
  end.

Ltac shape_explicit :=
  split; [ reflexivity | repeat constructor ].

Lemma sumn_ext n f g :
  (forall i, (i < n)%nat -> f i == g i) -> sumn n f == sumn n g.
Proof.
  induction n as [|k IH]; intros H.
  - reflexivity.
  - cbn [sumn]. rewrite IH by (intros i Hi; apply H; lia).
    rewrite (H k) by lia. reflexivity.
Qed.

Lemma qf_ext n M M' x :
  (forall i j, (i < n)%nat -> (j < n)%nat -> M i j == M' i j) ->
  qf n M x == qf n M' x.
Proof.
  intros H. unfold qf. apply sumn_ext. intros i Hi.
  apply sumn_ext. intros j Hj. rewrite (H i j Hi Hj). reflexivity.
Qed.

(** ** Shapes are kept *)

Lemma predict_shape f : shape 7 7 (P f) -> Qn f = processNoise ->
  shape 7 7 (P (predict f)).
Proof.
  destruct f as [s P0 Q0 r d]. cbn [P Qn]. intros Hs ->.
  explicit_matrix P0 Hs p. mat_eval. shape_explicit.
Qed.

Lemma identity_shape n : shape n n (identity n).
Proof. apply (tabulate_shape n n (fun i j => if Nat.eqb i j then 1 else 0)). Qed.

Lemma inverse_shape A : length A = 4%nat -> shape 4 4 (inverse A).
Proof.
  intros Hl. unfold inverse. rewrite Hl. cbn [Nat.eqb].
  destruct (negb _).
  - apply identity_shape.
  - cbv [adjugate4x4 fold_left seq set2 set_nth repeat nth map Nat.add].
    shape_explicit.
Qed.

Lemma innovationCovariance_shape P0 r :
  shape 7 7 P0 -> shape 4 4 (innovationCovariance P0 r).
Proof.
  intros Hs. explicit_matrix P0 Hs p. mat_eval. shape_explicit.
Qed.

Lemma covUpdate_shape P0 X :
  shape 7 7 P0 -> shape 4 4 X -> shape 7 7 (covUpdate P0 X).
Proof.
  intros Hs HsX. explicit_matrix P0 Hs p. explicit_matrix X HsX x.
  mat_eval. shape_explicit.
Qed.

Lemma update_P f op ov :
  P (update f op ov) = covUpdate (P f) (inverse (innovationCovariance (P f) (R f))).
Proof. reflexivity. Qed.

Lemma update_shape f op ov : shape 7 7 (P f) -> shape 7 7 (P (update f op ov)).
Proof.
  intros Hs. rewrite update_P. apply covUpdate_shape; [ exact Hs | ].
  apply inverse_shape. apply innovationCovariance_shape. exact Hs.
Qed.

Lemma new_filter_ok s c d : filter_ok (new_filter s c d).
Proof. repeat split; repeat constructor. Qed.

Lemma predict_ok f : filter_ok f -> filter_ok (predict f).
Proof.
  intros [Hs [HQ HR]]. split; [ | split ].
  - now apply predict_shape.
  - exact HQ.
  - exact HR.
Qed.

Lemma update_ok f op ov : filter_ok f -> filter_ok (update f op ov).
Proof.
  intros [Hs [HQ HR]]. split; [ | split ].
  - now apply update_shape.
  - exact HQ.
  - exact HR.
Qed.

Lemma run_ok calls : forall f, filter_ok f -> filter_ok (run calls f).
Proof.
  induction calls as [|c calls IH]; intros f Hf; [ exact Hf | ].
  cbn [run fold_left]. apply IH. destruct c; [ now apply predict_ok | now apply update_ok ].
Qed.


(** ** The clamp of the learned constants *)

(** C1: after [update] returns, whatever the observations, the prior
    state and the covariance were (the fall-back of [inverse] included),
    the believed constants satisfy g in [0,20], m in [0.1,10] and
    mu in [0,2]. *)
Theorem update_clamps_constants (f : ExtendedKalmanFilter)
        (observedPosition observedVelocity : Q * Q) :
  let s := state (update f observedPosition observedVelocity) in
  (0 <= g s /\ g s <= 20) /\ (0.1 <= m s /\ m s <= 10) /\
  (0 <= mu s /\ mu s <= 2).
Proof.
  cbv zeta. cbn [update state g m mu].
  repeat split; first [ apply Math_max_lower | apply Math_max_min_upper; lra ].
Qed.

(** ** The guarded inverse *)

Lemma Qabs_nonzero (d e : Q) : 0 < e -> e <= Math_abs d -> ~ d == 0.
Proof.
  intros He Hd Hz. unfold Math_abs in Hd. rewrite Hz in Hd.
  change (Qabs 0) with 0 in Hd. lra.
Qed.

Lemma inverse_fallback (A : Matrix) :
  length A = 4%nat -> Math_abs (determinant4x4 A) < epsilon ->
  inverse A = identity 4.
Proof.
  intros Hl Hd. unfold inverse. rewrite Hl. cbn [Nat.eqb].
  apply Qle_bool_false_iff in Hd. now rewrite Hd.
Qed.

Lemma inverse_divides (A : Matrix) :
  length A = 4%nat -> epsilon <= Math_abs (determinant4x4 A) ->
  inverse A =
  map (fun row => map (fun val => val / determinant4x4 A) row) (adjugate4x4 A).
Proof.
  intros Hl Hd. unfold inverse. rewrite Hl. cbn [Nat.eqb].
  apply Qle_bool_iff in Hd. now rewrite Hd.
Qed.

(** C5: on a 4-row matrix [inverse] divides by the determinant only
    when its magnitude is at least epsilon (so the divisor is not 0);
    below epsilon it returns the 4x4 identity. *)
Theorem inverse_guard (A : Matrix) :
  length A = 4%nat ->
  (Math_abs (determinant4x4 A) < epsilon /\ inverse A = identity 4) \/
  (epsilon <= Math_abs (determinant4x4 A) /\ ~ determinant4x4 A == 0 /\
   inverse A =
   map (fun row => map (fun val => val / determinant4x4 A) row) (adjugate4x4 A)).
Proof.
  intros Hl.
  destruct (Qlt_le_dec (Math_abs (determinant4x4 A)) epsilon) as [Hlt | Hge].
  - left. split; [ exact Hlt | ]. now apply inverse_fallback.
  - right. split; [ exact Hge | split ].
    + apply (Qabs_nonzero _ epsilon); [ reflexivity | exact Hge ].
    + now apply inverse_divides.
Qed.

Lemma inverse_guard_witness :
  (Math_abs (determinant4x4 (identity 4)) < epsilon /\
   inverse (identity 4) = identity 4) \/
  (epsilon <= Math_abs (determinant4x4 (identity 4)) /\
   ~ determinant4x4 (identity 4) == 0 /\
   inverse (identity 4) =
   map (fun row => map (fun val => val / determinant4x4 (identity 4)) row)
       (adjugate4x4 (identity 4))).
Proof. apply (inverse_guard (identity 4)). reflexivity. Defined.

(** When it divides, [inverse] returns a left and right inverse. *)
Lemma adjugate_left A a b :
  shape 4 4 A -> (a < 4)%nat -> (b < 4)%nat ->
  sumn 4 (fun c => at2 (adjugate4x4 A) a c * at2 A c b)
  == determinant4x4 A * delta a b.
Proof.
  intros Hs Ha Hb. explicit_matrix A Hs s.
  cases_lt Ha; cases_lt Hb;
    cbv [sumn adjugate4x4 determinant4x4 determinant3x3 getMinor set2 set_nth
         pow_minus_one fold_left seq repeat nth at2 app Nat.eqb Nat.add delta
         Z.of_nat Pos.of_succ_nat Pos.succ Qpower Qpower_positive pow_pos];
    ring.
Qed.

Lemma adjugate_right A a b :
  shape 4 4 A -> (a < 4)%nat -> (b < 4)%nat ->
  sumn 4 (fun c => at2 A a c * at2 (adjugate4x4 A) c b)
  == determinant4x4 A * delta a b.
Proof.
  intros Hs Ha Hb. explicit_matrix A Hs s.
  cases_lt Ha; cases_lt Hb;
    cbv [sumn adjugate4x4 determinant4x4 determinant3x3 getMinor set2 set_nth
         pow_minus_one fold_left seq repeat nth at2 app Nat.eqb Nat.add delta
         Z.of_nat Pos.of_succ_nat Pos.succ Qpower Qpower_positive pow_pos];
    ring.
Qed.

Lemma adjugate_shape A : shape 4 4 (adjugate4x4 A).
Proof.
  cbv [adjugate4x4 fold_left seq set2 set_nth repeat nth map Nat.add].
  shape_explicit.
Qed.

Lemma at2_scaled M d i j :
  shape 4 4 M -> (i < 4)%nat -> (j < 4)%nat ->
  at2 (map (fun row => map (fun val => val / d) row) M) i j = at2 M i j / d.
Proof.
  intros Hs Hi Hj. explicit_matrix M Hs s.
  cases_lt Hi; cases_lt Hj; reflexivity.
Qed.


Lemma inverse_left A a b :
  shape 4 4 A -> epsilon <= Math_abs (determinant4x4 A) ->
  (a < 4)%nat -> (b < 4)%nat ->
  sumn 4 (fun c => at2 (inverse A) a c * at2 A c b) == delta a b.
Proof.
  intros Hs Hd Ha Hb.
  pose proof (Qabs_nonzero _ epsilon eq_refl Hd) as Hnz.
  rewrite (inverse_divides A (proj1 Hs) Hd).
  transitivity
    (sumn 4 (fun c => at2 (adjugate4x4 A) a c * at2 A c b) / determinant4x4 A).
  - cbv [sumn]. rewrite !at2_scaled by (try apply adjugate_shape; lia).
    field. exact Hnz.
  - rewrite adjugate_left by assumption. field. exact Hnz.
Qed.

Lemma inverse_right A a b :
  shape 4 4 A -> epsilon <= Math_abs (determinant4x4 A) ->
  (a < 4)%nat -> (b < 4)%nat ->
  sumn 4 (fun c => at2 A a c * at2 (inverse A) c b) == delta a b.
Proof.
  intros Hs Hd Ha Hb.
  pose proof (Qabs_nonzero _ epsilon eq_refl Hd) as Hnz.
  rewrite (inverse_divides A (proj1 Hs) Hd).
  transitivity
    (sumn 4 (fun c => at2 A a c * at2 (adjugate4x4 A) c b) / determinant4x4 A).
  - cbv [sumn]. rewrite !at2_scaled by (try apply adjugate_shape; lia).
    field. exact Hnz.
  - rewrite adjugate_right by assumption. field. exact Hnz.
Qed.

(** ** Symmetry of the covariance *)

Ltac sym_hyps7 Hsym :=
  pose proof (Hsym 1%nat 0%nat ltac:(lia) ltac:(lia)) as H10;
  pose proof (Hsym 2%nat 0%nat ltac:(lia) ltac:(lia)) as H20;
  pose proof (Hsym 3%nat 0%nat ltac:(lia) ltac:(lia)) as H30;
  pose proof (Hsym 4%nat 0%nat ltac:(lia) ltac:(lia)) as H40;
  pose proof (Hsym 5%nat 0%nat ltac:(lia) ltac:(lia)) as H50;
  pose proof (Hsym 6%nat 0%nat ltac:(lia) ltac:(lia)) as H60;
  pose proof (Hsym 2%nat 1%nat ltac:(lia) ltac:(lia)) as H21;
  pose proof (Hsym 3%nat 1%nat ltac:(lia) ltac:(lia)) as H31;
  pose proof (Hsym 4%nat 1%nat ltac:(lia) ltac:(lia)) as H41;
  pose proof (Hsym 5%nat 1%nat ltac:(lia) ltac:(lia)) as H51;
  pose proof (Hsym 6%nat 1%nat ltac:(lia) ltac:(lia)) as H61;
  pose proof (Hsym 3%nat 2%nat ltac:(lia) ltac:(lia)) as H32;
  pose proof (Hsym 4%nat 2%nat ltac:(lia) ltac:(lia)) as H42;
  pose proof (Hsym 5%nat 2%nat ltac:(lia) ltac:(lia)) as H52;
  pose proof (Hsym 6%nat 2%nat ltac:(lia) ltac:(lia)) as H62;
  pose proof (Hsym 4%nat 3%nat ltac:(lia) ltac:(lia)) as H43;
  pose proof (Hsym 5%nat 3%nat ltac:(lia) ltac:(lia)) as H53;
  pose proof (Hsym 6%nat 3%nat ltac:(lia) ltac:(lia)) as H63;
  pose proof (Hsym 5%nat 4%nat ltac:(lia) ltac:(lia)) as H54;
  pose proof (Hsym 6%nat 4%nat ltac:(lia) ltac:(lia)) as H64;
  pose proof (Hsym 6%nat 5%nat ltac:(lia) ltac:(lia)) as H65;
  clear Hsym; cbv [at2 nth] in *.

Lemma predict_symmetric f :
  filter_ok f -> is_symmetric 7 (P f) -> is_symmetric 7 (P (predict f)).
Proof.
  destruct f as [s P0 Q0 r d]. intros [Hs [HQ _]]. cbn [P Qn] in *.
  intros Hsym. subst Q0. explicit_matrix P0 Hs p.
  sym_hyps7 Hsym.
  intros i j Hi Hj.
  cases_lt Hi; cases_lt Hj; mat_eval;
    ring [H10 H20 H30 H40 H50 H60 H21 H31 H41 H51 H61 H32 H42 H52 H62
          H43 H53 H63 H54 H64 H65].
Qed.

(** The entries of the covariance written by [update]. *)
Lemma covUpdate_entry P0 X i j :
  shape 7 7 P0 -> shape 4 4 X -> (i < 7)%nat -> (j < 7)%nat ->
  at2 (covUpdate P0 X) i j ==
  at2 P0 i j -
  sumn 4 (fun a => sumn 4 (fun b => at2 P0 i b * at2 X b a * at2 P0 a j)).
Proof.
  intros Hs HsX Hi Hj.
  explicit_matrix P0 Hs p. explicit_matrix X HsX x.
  cases_lt Hi; cases_lt Hj; cbv [sumn]; mat_eval; ring.
Qed.

Lemma covUpdate_symmetric P0 X :
  shape 7 7 P0 -> shape 4 4 X -> is_symmetric 7 P0 -> is_symmetric 4 X ->
  is_symmetric 7 (covUpdate P0 X).
Proof.
  intros Hs HsX Hsym HsymX i j Hi Hj.
  rewrite !covUpdate_entry by assumption.
  pose proof (Hsym i j Hi Hj) as Hij.
  pose proof (fun a (Ha : (a < 4)%nat) =>
                Hsym i a Hi ltac:(lia)) as Hia.
  pose proof (fun a (Ha : (a < 4)%nat) =>
                Hsym a j ltac:(lia) Hj) as Haj.
  pose proof (Hia 0%nat ltac:(lia)) as Hi0. pose proof (Hia 1%nat ltac:(lia)) as Hi1.
  pose proof (Hia 2%nat ltac:(lia)) as Hi2. pose proof (Hia 3%nat ltac:(lia)) as Hi3.
  pose proof (Haj 0%nat ltac:(lia)) as H0j. pose proof (Haj 1%nat ltac:(lia)) as H1j.
  pose proof (Haj 2%nat ltac:(lia)) as H2j. pose proof (Haj 3%nat ltac:(lia)) as H3j.
  pose proof (HsymX 1%nat 0%nat ltac:(lia) ltac:(lia)) as X10.
  pose proof (HsymX 2%nat 0%nat ltac:(lia) ltac:(lia)) as X20.
  pose proof (HsymX 3%nat 0%nat ltac:(lia) ltac:(lia)) as X30.
  pose proof (HsymX 2%nat 1%nat ltac:(lia) ltac:(lia)) as X21.
  pose proof (HsymX 3%nat 1%nat ltac:(lia) ltac:(lia)) as X31.
  pose proof (HsymX 3%nat 2%nat ltac:(lia) ltac:(lia)) as X32.
  cbv [sumn].
  rewrite Hij, Hi0, Hi1, Hi2, Hi3, H0j, H1j, H2j, H3j, X10, X20, X30, X21, X31, X32.
  ring.
Qed.

Lemma innovationCovariance_entry P0 r a b :
  shape 7 7 P0 -> (a < 4)%nat -> (b < 4)%nat ->
  at2 (innovationCovariance P0 r) a b == at2 P0 a b + r * delta a b.
Proof.
  intros Hs Ha Hb. explicit_matrix P0 Hs p.
  cases_lt Ha; cases_lt Hb; mat_eval; cbv [delta Nat.eqb]; ring.
Qed.

Lemma innovationCovariance_symmetric P0 r :
  shape 7 7 P0 -> is_symmetric 7 P0 -> is_symmetric 4 (innovationCovariance P0 r).
Proof.
  intros Hs Hsym a b Ha Hb.
  rewrite !innovationCovariance_entry by assumption.
  rewrite (Hsym a b) by lia.
  assert (E : delta a b = delta b a)
    by (unfold delta; now rewrite PeanoNat.Nat.eqb_sym).
  rewrite E. reflexivity.
Qed.

Lemma identity_symmetric n : is_symmetric n (identity n).
Proof.
  intros i j Hi Hj.
  change (identity n) with (tabulate n n (fun i j => if Nat.eqb i j then 1 else 0)).
  rewrite !at2_tabulate by assumption.
  now rewrite PeanoNat.Nat.eqb_sym.
Qed.

Lemma adjugate_symmetric A :
  shape 4 4 A -> is_symmetric 4 A -> is_symmetric 4 (adjugate4x4 A).
Proof.
  intros Hs Hsym. explicit_matrix A Hs s.
  pose proof (Hsym 1%nat 0%nat ltac:(lia) ltac:(lia)) as X10.
  pose proof (Hsym 2%nat 0%nat ltac:(lia) ltac:(lia)) as X20.
  pose proof (Hsym 3%nat 0%nat ltac:(lia) ltac:(lia)) as X30.
  pose proof (Hsym 2%nat 1%nat ltac:(lia) ltac:(lia)) as X21.
  pose proof (Hsym 3%nat 1%nat ltac:(lia) ltac:(lia)) as X31.
  pose proof (Hsym 3%nat 2%nat ltac:(lia) ltac:(lia)) as X32.
  clear Hsym. cbv [at2 nth] in *.
  intros i j Hi Hj.
  cases_lt Hi; cases_lt Hj;
    cbv [adjugate4x4 determinant3x3 getMinor set2 set_nth
         pow_minus_one fold_left seq repeat nth at2 app Nat.eqb Nat.add
         Z.of_nat Pos.of_succ_nat Pos.succ Qpower Qpower_positive pow_pos];
    ring [X10 X20 X30 X21 X31 X32].
Qed.

Lemma inverse_symmetric A :
  shape 4 4 A -> is_symmetric 4 A -> is_symmetric 4 (inverse A).
Proof.
  intros Hs Hsym.
  destruct (Qlt_le_dec (Math_abs (determinant4x4 A)) epsilon) as [Hlt | Hge].
  - rewrite (inverse_fallback A (proj1 Hs) Hlt). apply identity_symmetric.
  - rewrite (inverse_divides A (proj1 Hs) Hge). intros i j Hi Hj. rewrite !at2_scaled by (try apply adjugate_shape; lia).
    rewrite (adjugate_symmetric A Hs Hsym i j Hi Hj). reflexivity.
Qed.

Lemma update_symmetric f op ov :
  filter_ok f -> is_symmetric 7 (P f) -> is_symmetric 7 (P (update f op ov)).
Proof.
  intros [Hs _] Hsym. rewrite update_P.
  apply covUpdate_symmetric.
  - exact Hs.
  - apply inverse_shape. apply innovationCovariance_shape. exact Hs.
  - exact Hsym.
  - apply inverse_symmetric.
    + now apply innovationCovariance_shape.
    + now apply innovationCovariance_symmetric.
Qed.

(** C4: symmetry of the covariance is kept by [predict] and by [update],
    in both branches of [inverse], under exact arithmetic. *)
Theorem covariance_symmetry_preserved (f : ExtendedKalmanFilter) :
  filter_ok f -> is_symmetric 7 (P f) ->
  is_symmetric 7 (P (predict f)) /\
  forall observedPosition observedVelocity,
    is_symmetric 7 (P (update f observedPosition observedVelocity)).
Proof.
  intros Hok Hsym. split.
  - now apply predict_symmetric.
  - intros op ov. now apply update_symmetric.
Qed.

Lemma new_filter_symmetric s c d : is_symmetric 7 (P (new_filter s c d)).
Proof.
  intros i j Hi Hj. cases_lt Hi; cases_lt Hj; reflexivity.
Qed.

Lemma covariance_symmetry_preserved_witness :
  let f := new_filter (mkState 0 0 0 0 9.8 1 0.1) 10 0.016 in
  is_symmetric 7 (P (predict f)) /\
  forall observedPosition observedVelocity,
    is_symmetric 7 (P (update f observedPosition observedVelocity)).
Proof.
  apply covariance_symmetry_preserved.
  - apply new_filter_ok.
  - apply new_filter_symmetric.
Defined.


(** ** The trace under prediction *)

Definition example_filter : ExtendedKalmanFilter :=
  new_filter (mkState 0 0 0 0 9.8 1 0.1) default_initialCovariance default_dt.

(** The change of the trace in one prediction, apart from the process
    noise: the contribution of [F P F^T - P]. *)
Definition trace_drift (f : ExtendedKalmanFilter) : Q :=
  let d := dt f in
  let b := 1 - mu (state f) * d in
  let ux := vx (state f) in
  let uy := vy (state f) in
  d * (at2 (P f) 0 2 + at2 (P f) 2 0) + d * d * at2 (P f) 2 2
  + d * (at2 (P f) 1 3 + at2 (P f) 3 1) - 0.5 * d * d * (at2 (P f) 1 4 + at2 (P f) 4 1)
  + d * d * at2 (P f) 3 3 - 0.5 * d * d * d * (at2 (P f) 3 4 + at2 (P f) 4 3)
  + 0.25 * d * d * d * d * at2 (P f) 4 4
  + (b * b - 1) * at2 (P f) 2 2 - b * ux * d * (at2 (P f) 2 6 + at2 (P f) 6 2)
  + ux * ux * d * d * at2 (P f) 6 6
  + (b * b - 1) * at2 (P f) 3 3 - b * d * (at2 (P f) 3 4 + at2 (P f) 4 3)
  - b * uy * d * (at2 (P f) 3 6 + at2 (P f) 6 3) + d * d * at2 (P f) 4 4
  + uy * d * d * (at2 (P f) 4 6 + at2 (P f) 6 4) + uy * uy * d * d * at2 (P f) 6 6.

Lemma predict_trace f :
  filter_ok f ->
  trace7 (P (predict f)) == trace7 (P f) + 0.0403 + trace_drift f.
Proof.
  destruct f as [s P0 Q0 r d]. intros [Hs [HQ _]]. cbn [P Qn] in *.
  subst Q0. explicit_matrix P0 Hs p.
  unfold trace_drift. mat_eval. cbv [vx vy mu]. destruct s. ring.
Qed.

(** C3, as stated, fails: from the constructor's covariance with a
    believed friction of 0.1, the first prediction lowers the trace, and
    the second lowers it again. *)
Lemma predict_trace_can_decrease :
  trace7 (P (predict example_filter)) < trace7 (P example_filter) /\
  trace7 (P (predict (predict example_filter)))
  < trace7 (P (predict example_filter)).
Proof.
  split.
  - vm_compute. reflexivity.
  - rewrite (predict_trace (predict example_filter))
      by (apply predict_ok, new_filter_ok).
    vm_compute. reflexivity.
Qed.

Lemma predict_constant_entry f i :
  filter_ok f -> (4 <= i < 7)%nat ->
  at2 (P (predict f)) i i == at2 (P f) i i + 0.0001.
Proof.
  destruct f as [s P0 Q0 r d]. intros [Hs [HQ _]] [Hlo Hhi]. cbn [P Qn] in *.
  subst Q0. explicit_matrix P0 Hs p.
  cases_lt Hhi; try (exfalso; lia); mat_eval; ring.
Qed.

Lemma iter_predict_ok n f : filter_ok f -> filter_ok (Nat.iter n predict f).
Proof.
  intros Hf. induction n as [|n IH]; [ exact Hf | ].
  cbn [Nat.iter]. now apply predict_ok.
Qed.

(** C3, amended: across any run of [n] consecutive predictions the
    variance of each learned constant (the diagonal entries 4, 5 and 6)
    grows by exactly 0.0001 per prediction, and is therefore
    non-decreasing from each prediction to the next. *)
Theorem predict_constants_variance_grows (f : ExtendedKalmanFilter)
        (n i : nat) :
  filter_ok f -> (4 <= i < 7)%nat ->
  at2 (P (Nat.iter n predict f)) i i == at2 (P f) i i + of_nat n * 0.0001 /\
  at2 (P (Nat.iter n predict f)) i i
  <= at2 (P (Nat.iter (S n) predict f)) i i.
Proof.
  intros Hf Hi. split.
  - induction n as [|n IH].
    + cbn [Nat.iter]. unfold of_nat. cbn. ring.
    + change (Nat.iter (S n) predict f) with (predict (Nat.iter n predict f)).
      rewrite predict_constant_entry by (try apply iter_predict_ok; assumption).
      rewrite IH. unfold of_nat. rewrite Nat2Z.inj_succ. unfold Z.succ.
      rewrite inject_Z_plus. ring.
  - change (Nat.iter (S n) predict f) with (predict (Nat.iter n predict f)).
    rewrite predict_constant_entry by (try apply iter_predict_ok; assumption).
    lra.
Qed.

Lemma predict_constants_variance_grows_witness :
  at2 (P (Nat.iter 3 predict example_filter)) 4 4
  == at2 (P example_filter) 4 4 + of_nat 3 * 0.0001 /\
  at2 (P (Nat.iter 3 predict example_filter)) 4 4
  <= at2 (P (Nat.iter 4 predict example_filter)) 4 4.
Proof.
  apply (predict_constants_variance_grows example_filter 3 4).
  - apply new_filter_ok.
  - lia.
Defined.

(** ** Positive semi-definiteness of the covariance *)

Lemma norm2_unit0 n : norm2 (S n) (unit_vector 0) == 1.
Proof.
  unfold norm2. induction n as [|k IH].
  - cbn. ring.
  - cbn [sumn] in *. rewrite IH. cbn. ring.
Qed.

Lemma qf_unit0 n M : qf (S n) M (unit_vector 0) == M O O.
Proof.
  unfold qf.
  assert (Hin : forall c i,
             sumn (S c) (fun j => unit_vector 0 i * M i j * unit_vector 0 j)
             == unit_vector 0 i * M i O).
  { intros c. induction c as [|c IH]; intros i.
    - cbn. ring.
    - cbn [sumn] in *. rewrite IH. cbn. ring. }
  assert (Hout : forall c k,
             sumn (S k) (fun i =>
               sumn (S c) (fun j => unit_vector 0 i * M i j * unit_vector 0 j))
             == M O O).
  { intros c k. induction k as [|k IH].
    - cbn [sumn]. cbn [sumn] in Hin. rewrite Hin. cbn. ring.
    - change (sumn (S (S k)) ?f) with (sumn (S k) f + f (S k)).
      cbv beta. rewrite IH. rewrite Hin. cbn. ring. }
  apply Hout.
Qed.

Lemma coercive_pivot n r M : coercive (S n) r M -> r <= M O O.
Proof.
  intros H. specialize (H (unit_vector 0)).
  rewrite norm2_unit0, qf_unit0 in H. lra.
Qed.

Lemma schur_coercive3 r M : 0 < r -> coercive 4 r M -> coercive 3 r (schur M).
Proof.
  intros Hr H y.
  pose proof (coercive_pivot _ _ _ H) as Hp.
  specialize (H (lift M 3 y)).
  assert (E : qf 4 M (lift M 3 y) == qf 3 (schur M) y)
      by (cbv [qf sumn lift schur]; field; lra).
  rewrite E in H. cbv [norm2 sumn lift] in *.
  set (z0 := - _ / _) in H.
  assert (0 <= z0 * z0) by nra.
  nra.
Qed.

Lemma schur_coercive2 r M : 0 < r -> coercive 3 r M -> coercive 2 r (schur M).
Proof.
  intros Hr H y.
  pose proof (coercive_pivot _ _ _ H) as Hp.
  specialize (H (lift M 2 y)).
  assert (E : qf 3 M (lift M 2 y) == qf 2 (schur M) y)
      by (cbv [qf sumn lift schur]; field; lra).
  rewrite E in H. cbv [norm2 sumn lift] in *.
  set (z0 := - _ / _) in H.
  assert (0 <= z0 * z0) by nra.
  nra.
Qed.

Lemma schur_coercive1 r M : 0 < r -> coercive 2 r M -> coercive 1 r (schur M).
Proof.
  intros Hr H y.
  pose proof (coercive_pivot _ _ _ H) as Hp.
  specialize (H (lift M 1 y)).
  assert (E : qf 2 M (lift M 1 y) == qf 1 (schur M) y)
      by (cbv [qf sumn lift schur]; field; lra).
  rewrite E in H. cbv [norm2 sumn lift] in *.
  set (z0 := - _ / _) in H.
  assert (0 <= z0 * z0) by nra.
  nra.
Qed.

Lemma det4_schur M : ~ M O O == 0 -> det4 M == M O O * det3 (schur M).
Proof.
  intros H. cbv [det4 det3 determinant4x4 determinant3x3 tabulate map seq at2 nth schur].
  field. exact H.
Qed.

Lemma det3_schur M : ~ M O O == 0 -> det3 M == M O O * det2 (schur M).
Proof.
  intros H. cbv [det3 det2 determinant3x3 tabulate map seq at2 nth schur].
  field. exact H.
Qed.

Lemma det2_schur M : ~ M O O == 0 -> det2 M == M O O * det1 (schur M).
Proof. intros H. cbv [det2 det1 schur]. field. exact H. Qed.

(** A matrix whose quadratic form dominates [r |x|^2] has determinant at
    least [r^4]. *)
Lemma det4_lower_bound r M : 0 < r -> coercive 4 r M -> r * r * r * r <= det4 M.
Proof.
  intros Hr H4.
  pose proof (schur_coercive3 r M Hr H4) as H3.
  pose proof (schur_coercive2 r _ Hr H3) as H2.
  pose proof (schur_coercive1 r _ Hr H2) as H1.
  pose proof (coercive_pivot _ _ _ H4) as P4.
  pose proof (coercive_pivot _ _ _ H3) as P3.
  pose proof (coercive_pivot _ _ _ H2) as P2.
  pose proof (coercive_pivot _ _ _ H1) as P1.
  rewrite det4_schur by lra. rewrite det3_schur by lra. rewrite det2_schur by lra.
  unfold det1.
  set (a := M O O) in *. set (b := schur M O O) in *.
  set (c := schur (schur M) O O) in *. set (d := schur (schur (schur M)) O O) in *.
  clearbody a b c d.
  assert (r * r <= a * b) by nra.
  assert (r * r <= c * d) by nra.
  assert (0 < r * r) by nra.
  setoid_replace (a * (b * (c * d))) with ((a * b) * (c * d)) by ring.
  setoid_replace (r * r * r * r) with ((r * r) * (r * r)) by ring.
  nra.
Qed.

Lemma det4_at2 A : det4 (at2 A) = determinant4x4 A.
Proof. reflexivity. Qed.


Lemma sumn_squares_nonneg n (w : nat -> Q) : 0 <= sumn n (fun a => w a * w a).
Proof.
  induction n as [|k IH]; cbn [sumn]; [ lra | ].
  assert (0 <= w k * w k) by nra. lra.
Qed.

(** The covariance update in Joseph form: with [X S = I],
    [x^T (P - P H^T X H P) x = y^T P y + r |w|^2] for [w = X^T H P^T x]
    and [y = x - H^T w]. *)
Section Joseph.

Variables (p xm : nat -> nat -> Q) (r : Q) (x : nat -> Q).

Let s (a b : nat) : Q := p a b + r * delta a b.

Hypothesis XS : forall a b, (a < 4)%nat -> (b < 4)%nat ->
  sumn 4 (fun c => xm a c * s c b) == delta a b.

Let P' (i j : nat) : Q :=
  p i j - sumn 4 (fun a => sumn 4 (fun b => p i b * xm b a * p a j)).
Let u (a : nat) : Q := sumn 7 (fun i => x i * p i a).
Let v (a : nat) : Q := sumn 7 (fun j => p a j * x j).
Let w (b : nat) : Q := sumn 4 (fun c => xm c b * u c).
Let y (i : nat) : Q := x i - (if Nat.ltb i 4 then w i else 0).

Lemma joseph_gain_term :
  qf 7 P' x == qf 7 p x - sumn 4 (fun a => w a * v a).
Proof. cbv [qf sumn P' w u v]. ring. Qed.

Lemma joseph_normal_equation a :
  (a < 4)%nat -> u a == sumn 4 (fun b => s b a * w b).
Proof.
  intros Ha.
  assert (E : sumn 4 (fun b => s b a * w b) ==
              sumn 4 (fun c => u c * sumn 4 (fun b => xm c b * s b a))).
  { cbv [sumn w]. ring. }
  rewrite E. cbv [sumn] in XS |- *.
  rewrite !XS by lia.
  cbv [delta].
  repeat (destruct a as [|a]; [ cbn; ring | ]). exfalso; lia.
Qed.

Lemma joseph_expansion (w' : nat -> Q) :
  qf 7 p (fun i => x i - (if Nat.ltb i 4 then w' i else 0))
  + r * sumn 4 (fun a => w' a * w' a) ==
  qf 7 p x - sumn 4 (fun a => w' a * v a) - sumn 4 (fun a => u a * w' a)
  + sumn 4 (fun a => sumn 4 (fun b => w' a * s a b * w' b)).
Proof. cbv [qf sumn u v s delta Nat.ltb Nat.leb Nat.eqb]. ring. Qed.

Lemma joseph_form :
  qf 7 P' x == qf 7 p y + r * sumn 4 (fun a => w a * w a).
Proof.
  rewrite joseph_gain_term. unfold y. rewrite (joseph_expansion w).
  assert (E : sumn 4 (fun a => u a * w a) ==
              sumn 4 (fun a => sumn 4 (fun b => w a * s a b * w b))).
  { cbv [sumn].
    rewrite (joseph_normal_equation 0), (joseph_normal_equation 1),
            (joseph_normal_equation 2), (joseph_normal_equation 3) by lia.
    cbv [sumn]. ring. }
  rewrite E. ring.
Qed.

Lemma joseph_nonneg :
  (forall z, 0 <= qf 7 p z) -> 0 <= r -> 0 <= qf 7 P' x.
Proof.
  intros Hp Hr. rewrite joseph_form.
  pose proof (Hp y). pose proof (sumn_squares_nonneg 4 w). nra.
Qed.

End Joseph.

Lemma psd_new_filter s c d : 0 <= c -> psd7 (P (new_filter s c d)).
Proof.
  intros Hc x.
  assert (E : qf 7 (at2 (P (new_filter s c d))) x ==
              c * (x 0%nat * x 0%nat + x 1%nat * x 1%nat + x 2%nat * x 2%nat
                   + x 3%nat * x 3%nat)
              + 5 * (x 4%nat * x 4%nat) + 2 * (x 5%nat * x 5%nat)
              + x 6%nat * x 6%nat).
  { cbv [qf sumn]; mat_eval. ring. }
  rewrite E. nra.
Qed.

Lemma psd_processNoise x : 0 <= qf 7 (at2 processNoise) x.
Proof.
  assert (E : qf 7 (at2 processNoise) x ==
              0.01 * (x 0%nat * x 0%nat + x 1%nat * x 1%nat + x 2%nat * x 2%nat
                      + x 3%nat * x 3%nat)
              + 0.0001 * (x 4%nat * x 4%nat + x 5%nat * x 5%nat
                          + x 6%nat * x 6%nat)).
  { cbv [qf sumn]; mat_eval. ring. }
  rewrite E. nra.
Qed.

(** [F^T x] for the Jacobian of the filter [f]. *)
Definition jacobian_transpose_apply (f : ExtendedKalmanFilter) (x : nat -> Q)
           (k : nat) : Q :=
  sumn 7 (fun i => at2 (computeJacobian f) i k * x i).

Lemma predict_quadratic_form f x :
  filter_ok f ->
  qf 7 (at2 (P (predict f))) x ==
  qf 7 (at2 (P f)) (jacobian_transpose_apply f x) + qf 7 (at2 processNoise) x.
Proof.
  destruct f as [s P0 Q0 r d]. intros [Hs [HQ _]]. cbn [P Qn] in *.
  subst Q0. explicit_matrix P0 Hs p.
  cbv [qf sumn jacobian_transpose_apply]. mat_eval. ring.
Qed.

Lemma psd_predict f : filter_ok f -> psd7 (P f) -> psd7 (P (predict f)).
Proof.
  intros Hok Hpsd x. rewrite predict_quadratic_form by exact Hok.
  pose proof (Hpsd (jacobian_transpose_apply f x)).
  pose proof (psd_processNoise x). lra.
Qed.

Definition pad4 (z : nat -> Q) (i : nat) : Q := if Nat.ltb i 4 then z i else 0.

Lemma innovationCovariance_coercive P0 r :
  shape 7 7 P0 -> psd7 P0 -> coercive 4 r (at2 (innovationCovariance P0 r)).
Proof.
  intros Hs Hpsd z.
  rewrite (qf_ext 4 _ (fun a b => at2 P0 a b + r * delta a b))
    by (intros; now apply innovationCovariance_entry).
  assert (E : qf 4 (fun a b => at2 P0 a b + r * delta a b) z ==
              qf 7 (at2 P0) (pad4 z) + r * norm2 4 z).
  { cbv [qf sumn norm2 pad4 delta Nat.ltb Nat.leb Nat.eqb]. ring. }
  rewrite E. pose proof (Hpsd (pad4 z)). lra.
Qed.

Lemma innovationCovariance_invertible P0 :
  shape 7 7 P0 -> psd7 P0 ->
  epsilon <= Math_abs (determinant4x4 (innovationCovariance P0 0.1)).
Proof.
  intros Hs Hpsd.
  pose proof (det4_lower_bound 0.1 _ ltac:(lra)
                (innovationCovariance_coercive P0 0.1 Hs Hpsd)) as Hd.
  rewrite det4_at2 in Hd.
  apply Qle_trans with (determinant4x4 (innovationCovariance P0 0.1)).
  - unfold epsilon. lra.
  - apply Qle_Qabs.
Qed.

Lemma psd_update f op ov :
  filter_ok f -> psd7 (P f) -> psd7 (P (update f op ov)).
Proof.
  intros [Hs [_ HR]] Hpsd x. rewrite update_P. rewrite HR.
  set (S0 := innovationCovariance (P f) 0.1).
  assert (HsS : shape 4 4 S0) by now apply innovationCovariance_shape.
  assert (HsX : shape 4 4 (inverse S0)) by (apply inverse_shape, HsS).
  rewrite (qf_ext 7 _ _ x (fun i j Hi Hj =>
             covUpdate_entry (P f) (inverse S0) i j Hs HsX Hi Hj)).
  apply (joseph_nonneg (at2 (P f)) (at2 (inverse S0)) 0.1 x).
  - intros a b Ha Hb.
    rewrite <- (inverse_left S0 a b HsS
                  (innovationCovariance_invertible (P f) Hs Hpsd) Ha Hb).
    apply sumn_ext. intros c Hc.
    unfold S0. rewrite innovationCovariance_entry by assumption. reflexivity.
  - exact Hpsd.
  - lra.
Qed.

Lemma psd_run calls :
  forall f, filter_ok f -> psd7 (P f) -> psd7 (P (run calls f)).
Proof.
  induction calls as [|c calls IH]; intros f Hok Hpsd; [ exact Hpsd | ].
  cbn [run fold_left]. destruct c as [|op ov].
  - apply IH; [ now apply predict_ok | now apply psd_predict ].
  - apply IH; [ now apply update_ok | now apply psd_update ].
Qed.

Lemma sumn_unit c k (h : nat -> Q) :
  sumn c (fun j => h j * unit_vector k j) == if Nat.ltb k c then h k else 0.
Proof.
  induction c as [|c IH].
  - reflexivity.
  - cbn [sumn]. rewrite IH. unfold unit_vector.
    destruct (Nat.eqb c k) eqn:E.
    + apply PeanoNat.Nat.eqb_eq in E. subst c.
      rewrite (proj2 (PeanoNat.Nat.ltb_ge k k)) by lia.
      rewrite (proj2 (PeanoNat.Nat.ltb_lt k (S k))) by lia. ring.
    + apply PeanoNat.Nat.eqb_neq in E.
      destruct (Nat.ltb k c) eqn:E2.
      * apply PeanoNat.Nat.ltb_lt in E2.
        rewrite (proj2 (PeanoNat.Nat.ltb_lt k (S c))) by lia. ring.
      * apply PeanoNat.Nat.ltb_ge in E2.
        rewrite (proj2 (PeanoNat.Nat.ltb_ge k (S c))) by lia. ring.
Qed.

Lemma qf_unit n M k :
  (k < n)%nat -> qf n M (unit_vector k) == M k k.
Proof.
  intros Hk. unfold qf.
  rewrite (sumn_ext n _ (fun i => M i k * unit_vector k i)).
  - rewrite sumn_unit. now rewrite (proj2 (PeanoNat.Nat.ltb_lt k n)) by lia.
  - intros i Hi.
    rewrite (sumn_unit n k (fun j => unit_vector k i * M i j)).
    rewrite (proj2 (PeanoNat.Nat.ltb_lt k n)) by lia. ring.
Qed.

Lemma psd7_diagonal M i : psd7 M -> (i < 7)%nat -> 0 <= at2 M i i.
Proof.
  intros Hpsd Hi. rewrite <- (qf_unit 7 (at2 M) i Hi). apply Hpsd.
Qed.



(** ** Equation discovery: the sample thresholds *)

Lemma ltb_iff_lt (a b : nat) : Nat.ltb a b = true <-> (a < b)%nat.
Proof. apply PeanoNat.Nat.ltb_lt. Qed.

(** C9: the gravity and velocity equations are [null] exactly when the
    buffer holds fewer than 10 samples, the position equation exactly
    when it holds fewer than 20; otherwise a [DiscoveredEquation] is
    returned.  The functions are total: none of them throws. *)
Theorem discovery_null_iff_too_few_samples
        (observations : list EquationDiscovery.Observation) :
  (EquationDiscovery.discoverGravityEquation observations = None
   <-> (length observations < 10)%nat) /\
  (EquationDiscovery.discoverVelocityEquation observations = None
   <-> (length observations < 10)%nat) /\
  (EquationDiscovery.discoverPositionEquation observations = None
   <-> (length observations < 20)%nat).
Proof.
  unfold EquationDiscovery.discoverGravityEquation,
         EquationDiscovery.discoverVelocityEquation,
         EquationDiscovery.discoverPositionEquation.
  repeat split; intros H;
    try (apply ltb_iff_lt in H; rewrite H; reflexivity);
    match goal with
    | H : (if Nat.ltb ?a ?b then _ else _) = None |- _ =>
      destruct (Nat.ltb a b) eqn:E; [ now apply ltb_iff_lt | exfalso ]
    end.
  - discriminate H.
  - destruct (fold_left _ _ _) as [[[? ?] ?] ?] in H. discriminate H.
  - destruct (fold_left _ _ _) as [[[[[[? ?] ?] ?] ?] ?] ?] in H.
    discriminate H.
Qed.

(** ** The aggregator and the empty belief set *)

Section AggregatorFacts.

Variable Math_log : Q -> Q.
Variables Math_PI Math_E : Q.

Local Abbreviation updateGlobalPosterior :=
  (Aggregator.updateGlobalPosterior Math_log Math_PI Math_E).

Lemma beliefs_set_nonempty key b l : Aggregator.beliefs_set key b l <> [].
Proof.
  destruct l as [|[k b0] rest]; cbn; [ discriminate | ].
  destruct (String.eqb k key); discriminate.
Qed.

(** The samples collected by [updateGlobalPosterior] are never empty:
    the return guarded by [gSamples.length === 0] is not taken. *)
Lemma collected_samples_nonempty (u : Aggregator.t) particleId beliefs :
  Nat.eqb
    (length (map (fun kb : string * Aggregator.Belief =>
                    Aggregator.belief_g (snd kb))
                 (Aggregator.beliefs_set particleId beliefs
                                         (Aggregator.particleBeliefs u))))
    0 = false.
Proof.
  rewrite length_map.
  pose proof (beliefs_set_nonempty particleId beliefs
                (Aggregator.particleBeliefs u)) as Hne.
  destruct (Aggregator.beliefs_set _ _ _); [ congruence | reflexivity ].
Qed.

Lemma single_weightedMean (val v : Q) :
  0 <= v -> Aggregator.weightedMean [val] [v] == val.
Proof.
  intros Hv. unfold Aggregator.weightedMean, sum_list. cbn.
  field. lra.
Qed.

Lemma single_calculateVariance (val : Q) :
  Aggregator.calculateVariance [val] == 0.
Proof.
  unfold Aggregator.calculateVariance, sum_list, of_nat. cbn. field.
Qed.

(** C6, amended: [updateGlobalPosterior] registers the submitted belief
    before it collects the samples, so a call made when no belief is
    registered is not a no-op: the belief is registered and the
    posterior is recomputed from it alone (samples [g], [m], [mu];
    for a non-negative variance the means are the submitted belief and
    the consensus strength is 1). *)
Theorem update_with_no_registered_belief
        (u : Aggregator.t) (particleId : string) (b : Aggregator.Belief) :
  Aggregator.particleBeliefs u = [] ->
  0 <= Aggregator.belief_variance b ->
  let u' := updateGlobalPosterior u particleId b in
  let post := Aggregator.globalPosterior u' in
  Aggregator.particleBeliefs u' = [(particleId, b)] /\
  Aggregator.samples (Aggregator.gravity post) = [Aggregator.belief_g b] /\
  Aggregator.samples (Aggregator.mass post) = [Aggregator.belief_m b] /\
  Aggregator.samples (Aggregator.friction post) = [Aggregator.belief_mu b] /\
  Aggregator.mean (Aggregator.gravity post) == Aggregator.belief_g b /\
  Aggregator.mean (Aggregator.mass post) == Aggregator.belief_m b /\
  Aggregator.mean (Aggregator.friction post) == Aggregator.belief_mu b /\
  Aggregator.consensusStrength post == 1.
Proof.
  intros He Hv. cbv zeta. unfold Aggregator.updateGlobalPosterior.
  rewrite He. cbn [Aggregator.beliefs_set map snd length Nat.eqb].
  cbn [Aggregator.globalPosterior Aggregator.particleBeliefs
       Aggregator.gravity Aggregator.mass Aggregator.friction
       Aggregator.posteriorOf Aggregator.samples Aggregator.mean
       Aggregator.consensusStrength].
  repeat split; try (now apply single_weightedMean).
  rewrite !single_calculateVariance. field.
Qed.

End AggregatorFacts.

(** A rational stand-in for [Math.log], used to run examples: the first
    term of the series of [2 atanh ((q - 1) / (q + 1))]. *)
Definition log_approx (q : Q) : Q := 2 * ((q - 1) / (q + 1)).

Definition example_belief : Aggregator.Belief :=
  Aggregator.mkBelief 5 2 0.3 1.

Lemma update_with_no_registered_belief_witness :
  let u' :=
    Aggregator.updateGlobalPosterior log_approx 3.14159 2.71828
      (Aggregator.new_universe log_approx 3.14159 2.71828) "p1" example_belief in
  let post := Aggregator.globalPosterior u' in
  Aggregator.particleBeliefs u' = [("p1"%string, example_belief)] /\
  Aggregator.samples (Aggregator.gravity post) = [5] /\
  Aggregator.samples (Aggregator.mass post) = [2] /\
  Aggregator.samples (Aggregator.friction post) = [0.3] /\
  Aggregator.mean (Aggregator.gravity post) == 5 /\
  Aggregator.mean (Aggregator.mass post) == 2 /\
  Aggregator.mean (Aggregator.friction post) == 0.3 /\
  Aggregator.consensusStrength post == 1.
Proof.
  apply (update_with_no_registered_belief log_approx 3.14159 2.71828
           (Aggregator.new_universe log_approx 3.14159 2.71828)
           "p1" example_belief).
  - reflexivity.
  - vm_compute. discriminate.
Defined.

(** C6, as stated, fails: on the universe built by the constructor, where
    no belief is registered, the call changes the gravity posterior
    (whatever [Math.log] is). *)
Lemma update_on_empty_is_not_a_noop :
  ~ (forall (Math_log : Q -> Q) (Math_PI Math_E : Q),
        Aggregator.mean
          (Aggregator.gravity
             (Aggregator.globalPosterior
                (Aggregator.updateGlobalPosterior Math_log Math_PI Math_E
                   (Aggregator.new_universe Math_log Math_PI Math_E)
                   "p1" example_belief)))
        == Aggregator.mean
             (Aggregator.gravity
                (Aggregator.globalPosterior
                   (Aggregator.new_universe Math_log Math_PI Math_E)))).
Proof.
  intros H. specialize (H log_approx 3.14159 2.71828).
  vm_compute in H. discriminate H.
Qed.

(** ** The store of particle objects *)

Lemma set_nth_length {X : Type} (i : nat) (v : X) (l : list X) :
  length (set_nth i v l) = length l.
Proof.
  revert i. induction l as [|x t IH]; intros [|i]; cbn; try reflexivity.
  now rewrite IH.
Qed.

Lemma nth_error_set_nth_eq {X : Type} (i : nat) (v : X) (l : list X) :
  (i < length l)%nat -> nth_error (set_nth i v l) i = Some v.
Proof.
  revert i. induction l as [|x t IH]; intros [|i] Hi; cbn in *; try lia.
  - reflexivity.
  - apply IH. lia.
Qed.

Lemma nth_error_set_nth_neq {X : Type} (i j : nat) (v : X) (l : list X) :
  i <> j -> nth_error (set_nth i v l) j = nth_error l j.
Proof.
  revert i j. induction l as [|x t IH]; intros [|i] [|j] Hij; cbn;
    try reflexivity; try congruence.
  apply IH. congruence.
Qed.

Lemma modify_length st a f : length (modify st a f) = length st.
Proof.
  unfold modify. destruct (nth_error st a); [ apply set_nth_length | reflexivity ].
Qed.

Lemma deref_modify_eq st a f p :
  deref st a = Some p -> deref (modify st a f) a = Some (f p).
Proof.
  unfold deref, modify. intros H. rewrite H.
  apply nth_error_set_nth_eq. apply nth_error_Some. congruence.
Qed.

Lemma deref_modify_neq st a b f :
  a <> b -> deref (modify st a f) b = deref st b.
Proof.
  unfold deref, modify. intros H. destruct (nth_error st a); [ | reflexivity ].
  now apply nth_error_set_nth_neq.
Qed.

(** ** Momentum in the collision pass *)

Inductive axis : Type := AxisX | AxisY | AxisZ.

Definition coordinate (ax : axis) (v : V.t) : Q :=
  match ax with AxisX => V.x v | AxisY => V.y v | AxisZ => V.z v end.

(** The sum over the array of one component of the velocities. *)
Definition velocity_sum (ax : axis) (particles : list nat) (st : Store) : Q :=
  fold_right
    (fun a acc =>
       match deref st a with
       | Some p => coordinate ax (velocity p) + acc
       | None => acc
       end)
    0 particles.

Lemma velocity_sum_modify_notin ax particles st a f :
  ~ In a particles ->
  velocity_sum ax particles (modify st a f) = velocity_sum ax particles st.
Proof.
  induction particles as [|b rest IH]; intros Hn; [ reflexivity | ].
  cbn [velocity_sum fold_right]. 
  rewrite deref_modify_neq by (intros ->; apply Hn; now left).
  fold (velocity_sum ax rest (modify st a f)). fold (velocity_sum ax rest st).
  rewrite IH by (intros Hin; apply Hn; now right). reflexivity.
Qed.

Lemma velocity_sum_modify_in ax particles st a f p :
  NoDup particles -> In a particles -> deref st a = Some p ->
  velocity_sum ax particles (modify st a f) ==
  velocity_sum ax particles st
  + (coordinate ax (velocity (f p)) - coordinate ax (velocity p)).
Proof.
  induction particles as [|b rest IH]; intros Hnd Hin Hp; [ destruct Hin | ].
  inversion Hnd as [|? ? Hnotin Hnd']; subst.
  cbn [velocity_sum fold_right].
  fold (velocity_sum ax rest (modify st a f)). fold (velocity_sum ax rest st).
  destruct (PeanoNat.Nat.eq_dec a b) as [-> | Hab].
  - rewrite (deref_modify_eq _ _ _ _ Hp), Hp.
    rewrite velocity_sum_modify_notin by exact Hnotin. ring.
  - rewrite deref_modify_neq by exact Hab.
    destruct Hin as [Heq | Hin]; [ congruence | ].
    pose proof (IH Hnd' Hin Hp) as IH'.
    destruct (deref st b); rewrite IH'; ring.
Qed.

Section CollisionFacts.

Variable Math_sqrt : Q -> Q.

Lemma resolvePair_length acc a1 a2 :
  length (fst (Collision.resolvePair Math_sqrt acc a1 a2)) = length (fst acc).
Proof.
  destruct acc as [st events]. unfold Collision.resolvePair.
  destruct (deref st a1) as [p1|]; [ | reflexivity ].
  destruct (deref st a2) as [p2|]; [ | reflexivity ].
  destruct (_ && _); [ | reflexivity ].
  destruct (Qlt_bool 0 _); [ reflexivity | ].
  destruct (Qlt_bool Collision.minImpactVelocity _);
    [ destruct (deref _ a1); [ destruct (deref _ a2) | ] | ];
    cbn [fst]; now rewrite !modify_length.
Qed.

(** One resolved pair gives the two particles opposite impulses. *)
Lemma resolvePair_velocity_sum ax particles acc a1 a2 :
  NoDup particles -> In a1 particles -> In a2 particles -> a1 <> a2 ->
  velocity_sum ax particles (fst (Collision.resolvePair Math_sqrt acc a1 a2))
  == velocity_sum ax particles (fst acc).
Proof.
  intros Hnd Hin1 Hin2 Hne.
  destruct acc as [st events]. unfold Collision.resolvePair.
  destruct (deref st a1) as [p1|] eqn:E1; [ | reflexivity ].
  destruct (deref st a2) as [p2|] eqn:E2; [ | reflexivity ].
  destruct (_ && _); [ | reflexivity ].
  destruct (Qlt_bool 0 _); [ reflexivity | ].
  cbv zeta.
  match goal with
  | |- context [modify (modify (modify (modify st a1 ?F1) a2 ?F2) a1 ?G1) a2 ?G2] =>
    set (f1 := F1); set (f2 := F2); set (g1 := G1); set (g2 := G2)
  end.
  set (st1 := modify st a1 f1). set (st2 := modify st1 a2 f2).
  set (st3 := modify st2 a1 g1). set (st4 := modify st3 a2 g2).
  assert (D1 : deref st1 a1 = Some (f1 p1)) by (apply deref_modify_eq, E1).
  assert (D2 : deref st1 a2 = Some p2)
    by (unfold st1; rewrite deref_modify_neq by exact Hne; exact E2).
  assert (D2' : deref st2 a2 = Some (f2 p2)) by (apply deref_modify_eq, D2).
  assert (D3 : deref st2 a1 = Some (f1 p1))
    by (unfold st2; rewrite deref_modify_neq by congruence; exact D1).
  assert (D3' : deref st3 a1 = Some (g1 (f1 p1))) by (apply deref_modify_eq, D3).
  assert (D4 : deref st3 a2 = Some (f2 p2))
    by (unfold st3; rewrite deref_modify_neq by exact Hne; exact D2').
  assert (Hsum : velocity_sum ax particles st4 == velocity_sum ax particles st).
  { unfold st4.
    rewrite (velocity_sum_modify_in ax particles _ a2 _ _ Hnd Hin2 D4).
    unfold st3.
    rewrite (velocity_sum_modify_in ax particles _ a1 _ _ Hnd Hin1 D3).
    unfold st2.
    rewrite (velocity_sum_modify_in ax particles _ a2 _ _ Hnd Hin2 D2).
    unfold st1.
    rewrite (velocity_sum_modify_in ax particles _ a1 _ _ Hnd Hin1 E1).
    unfold f1, f2, g1, g2.
    destruct ax; cbn [coordinate velocity set_velocity set_position V.x V.y V.z];
      ring. }
  destruct (Qlt_bool Collision.minImpactVelocity _);
    [ destruct (deref st4 a1); [ destruct (deref st4 a2) | ] | ];
    cbn [fst]; exact Hsum.
Qed.

Lemma fold_left_invariant {A B : Type} (Inv : A -> Prop) (f : A -> B -> A)
      (l : list B) (init : A) :
  (forall acc b, In b l -> Inv acc -> Inv (f acc b)) ->
  Inv init -> Inv (fold_left f l init).
Proof.
  revert init. induction l as [|b rest IH]; intros init Hstep Hinit;
    [ exact Hinit | ].
  cbn [fold_left]. apply IH.
  - intros acc c Hc. apply Hstep. now right.
  - apply Hstep; [ now left | exact Hinit ].
Qed.

(** C10: the collision pass keeps the componentwise sum of the
    velocities of the particles of the array (the elements of the array
    are distinct objects): every resolved pair receives equal and
    opposite half-impulses. *)
Theorem collisions_preserve_momentum
        (particles : list nat) (st : Store) (ax : axis) :
  NoDup particles ->
  velocity_sum ax particles
    (fst (Collision.checkParticleCollisions Math_sqrt particles st))
  == velocity_sum ax particles st.
Proof.
  intros Hnd. unfold Collision.checkParticleCollisions.
  apply (fold_left_invariant
           (fun acc => velocity_sum ax particles (fst acc)
                       == velocity_sum ax particles st)).
  2: reflexivity.
  intros acc i Hi Hacc. apply in_seq in Hi.
  apply (fold_left_invariant
           (fun acc => velocity_sum ax particles (fst acc)
                       == velocity_sum ax particles st)).
  2: exact Hacc.
  intros acc' j Hj Hacc'. apply in_seq in Hj.
  destruct (nth_error particles i) as [a1|] eqn:E1; [ | exact Hacc' ].
  destruct (nth_error particles j) as [a2|] eqn:E2; [ | exact Hacc' ].
  rewrite resolvePair_velocity_sum; [ exact Hacc' | exact Hnd | | | ].
  - eapply nth_error_In; eassumption.
  - eapply nth_error_In; eassumption.
  - intros ->. rewrite NoDup_nth_error in Hnd.
    assert (i = j) by (apply Hnd; [ lia | congruence ]). lia.
Qed.

End CollisionFacts.

(** ** The head-on collision scenario *)

(** The relative velocity of two particles dotted with the vector from
    the first to the second: negative when they approach each other,
    positive when they separate.  It is the relative velocity along the
    connecting normal times the distance. *)
Definition closing_rate (p1 p2 : Particle) : Q :=
  (V.x (velocity p2) - V.x (velocity p1)) * (V.x (position p2) - V.x (position p1))
  + (V.y (velocity p2) - V.y (velocity p1)) * (V.y (position p2) - V.y (position p1))
  + (V.z (velocity p2) - V.z (velocity p1)) * (V.z (position p2) - V.z (position p1)).

(** A square root on the rationals, exact on the squares of rationals;
    it stands for [Math.sqrt] when examples are run. *)
Definition rational_sqrt (q : Q) : Q :=
  let r := Qred q in Z.sqrt (Qnum r) # Pos.sqrt (Qden r).

(** Two particles at distance 0.3 that move toward each other along the
    connecting line at speed 1 each. *)
Definition head_on (Math_sqrt : Q -> Q) (p1 p2 : Particle) : Prop :=
  let dx := V.x (position p2) - V.x (position p1) in
  let dy := V.y (position p2) - V.y (position p1) in
  let dz := V.z (position p2) - V.z (position p1) in
  dx * dx + dy * dy + dz * dz == 0.09 /\
  Math_sqrt (dx * dx + dy * dy + dz * dz) == 0.3 /\
  V.x (velocity p1) == dx / 0.3 /\ V.y (velocity p1) == dy / 0.3 /\
  V.z (velocity p1) == dz / 0.3 /\
  V.x (velocity p2) == - (dx / 0.3) /\ V.y (velocity p2) == - (dy / 0.3) /\
  V.z (velocity p2) == - (dz / 0.3).

Section ScenarioFacts.

Variable Math_sqrt : Q -> Q.

Lemma head_on_approaching p1 p2 :
  head_on Math_sqrt p1 p2 -> closing_rate p1 p2 == -0.6.
Proof.
  unfold head_on, closing_rate. cbv zeta.
  set (dx := V.x (position p2) - V.x (position p1)).
  set (dy := V.y (position p2) - V.y (position p1)).
  set (dz := V.z (position p2) - V.z (position p1)).
  intros [Hsq [_ [H1x [H1y [H1z [H2x [H2y H2z]]]]]]].
  rewrite H1x, H1y, H1z, H2x, H2y, H2z.
  setoid_replace ((- (dx / 0.3) - dx / 0.3) * dx + (- (dy / 0.3) - dy / 0.3) * dy
                  + (- (dz / 0.3) - dz / 0.3) * dz)
    with ((-20 / 3) * (dx * dx + dy * dy + dz * dz)) by field.
  rewrite Hsq. reflexivity.
Qed.

Lemma resolvePair_head_on st events a1 a2 p1 p2 :
  a1 <> a2 -> deref st a1 = Some p1 -> deref st a2 = Some p2 ->
  head_on Math_sqrt p1 p2 ->
  let dx := V.x (position p2) - V.x (position p1) in
  let dy := V.y (position p2) - V.y (position p1) in
  let dz := V.z (position p2) - V.z (position p1) in
  exists st' q1 q2 e,
    Collision.resolvePair Math_sqrt (st, events) a1 a2 = (st', events ++ [e]) /\
    deref st' a1 = Some q1 /\ deref st' a2 = Some q2 /\
    closing_rate q1 q2 == 1.28 /\
    impact e == 2 /\ particle1 e = id p1 /\ particle2 e = id p2 /\
    (filter q1 = filter p1 /\ filter q2 = filter p2) /\
    (id q1 = id p1 /\ id q2 = id p2) /\
    (V.x (position q1) == V.x (position p1) + (5 # 6) * - dx /\
     V.y (position q1) == V.y (position p1) + (5 # 6) * - dy /\
     V.z (position q1) == V.z (position p1) + (5 # 6) * - dz) /\
    (V.x (velocity q1) == (8 # 3) * - dx /\
     V.y (velocity q1) == (8 # 3) * - dy /\
     V.z (velocity q1) == (8 # 3) * - dz) /\
    (V.x (position q2) == V.x (position p2) + (5 # 6) * dx /\
     V.y (position q2) == V.y (position p2) + (5 # 6) * dy /\
     V.z (position q2) == V.z (position p2) + (5 # 6) * dz) /\
    (V.x (velocity q2) == (8 # 3) * dx /\
     V.y (velocity q2) == (8 # 3) * dy /\
     V.z (velocity q2) == (8 # 3) * dz).
Proof.
  intros Hne E1 E2 Hho. cbv zeta.
  pose proof Hho as [Hsq [Hd [H1x [H1y [H1z [H2x [H2y H2z]]]]]]].
  cbv zeta in Hsq, Hd.
  unfold Collision.resolvePair. rewrite E1, E2. cbv zeta.
  set (dx := V.x (position p2) - V.x (position p1)) in *.
  set (dy := V.y (position p2) - V.y (position p1)) in *.
  set (dz := V.z (position p2) - V.z (position p1)) in *.
  set (D := Math_sqrt (dx * dx + dy * dy + dz * dz)) in *.
  set (vAN := (V.x (velocity p2) - V.x (velocity p1)) * (dx / D)
              + (V.y (velocity p2) - V.y (velocity p1)) * (dy / D)
              + (V.z (velocity p2) - V.z (velocity p1)) * (dz / D)).
  assert (HvAN : vAN == -2).
  { unfold vAN. rewrite H1x, H1y, H1z, H2x, H2y, H2z, Hd.
    setoid_replace ((- (dx / 0.3) - dx / 0.3) * (dx / 0.3)
                    + (- (dy / 0.3) - dy / 0.3) * (dy / 0.3)
                    + (- (dz / 0.3) - dz / 0.3) * (dz / 0.3))
      with ((-200 / 9) * (dx * dx + dy * dy + dz * dz)) by field.
    rewrite Hsq. reflexivity. }
  assert (C1 : Qlt_bool D (Collision.collisionRadius * 2) && Qlt_bool 0.01 D = true).
  { apply andb_true_iff. split; apply Qlt_bool_iff; rewrite Hd;
      unfold Collision.collisionRadius; lra. }
  rewrite C1.
  assert (C2 : Qlt_bool 0 vAN = false)
    by (apply Qlt_bool_false_iff; rewrite HvAN; lra).
  rewrite C2.
  assert (Habs : Math_abs vAN == 2).
  { unfold Math_abs. rewrite HvAN. reflexivity. }
  assert (C3 : Qlt_bool Collision.minImpactVelocity (Math_abs vAN) = true)
    by (apply Qlt_bool_iff; rewrite Habs; unfold Collision.minImpactVelocity; lra).
  rewrite C3.
  match goal with
  | |- context [modify (modify (modify (modify st a1 ?F1) a2 ?F2) a1 ?G1) a2 ?G2] =>
    set (f1 := F1); set (f2 := F2); set (g1 := G1); set (g2 := G2)
  end.
  set (st1 := modify st a1 f1). set (st2 := modify st1 a2 f2).
  set (st3 := modify st2 a1 g1). set (st4 := modify st3 a2 g2).
  assert (D1 : deref st1 a1 = Some (f1 p1)) by (apply deref_modify_eq, E1).
  assert (D2 : deref st1 a2 = Some p2)
    by (unfold st1; rewrite deref_modify_neq by exact Hne; exact E2).
  assert (D2' : deref st2 a2 = Some (f2 p2)) by (apply deref_modify_eq, D2).
  assert (D3 : deref st2 a1 = Some (f1 p1))
    by (unfold st2; rewrite deref_modify_neq by congruence; exact D1).
  assert (D3' : deref st3 a1 = Some (g1 (f1 p1))) by (apply deref_modify_eq, D3).
  assert (D4 : deref st3 a2 = Some (f2 p2))
    by (unfold st3; rewrite deref_modify_neq by exact Hne; exact D2').
  assert (D4' : deref st4 a2 = Some (g2 (f2 p2))) by (apply deref_modify_eq, D4).
  assert (D5 : deref st4 a1 = Some (g1 (f1 p1)))
    by (unfold st4; rewrite deref_modify_neq by congruence; exact D3').
  rewrite D5, D4'.
  eexists st4, (g1 (f1 p1)), (g2 (f2 p2)), _.
  split; [ reflexivity | ].
  split; [ exact D5 | ]. split; [ exact D4' | ].
  split; [ | split; [ exact Habs | split; [ reflexivity | split; [ reflexivity | ] ] ] ].
  - unfold closing_rate, f1, f2, g1, g2.
    cbn [velocity position set_velocity set_position V.x V.y V.z].
    fold dx dy dz. fold vAN.
    rewrite HvAN, H1x, H1y, H1z, H2x, H2y, H2z, Hd.
    unfold Collision.restitution, Collision.collisionRadius.
    match goal with
    | |- ?lhs == _ =>
      setoid_replace lhs
        with ((128 / 9) * (dx * dx + dy * dy + dz * dz)) by (unfold dx, dy, dz; field)
    end.
    rewrite Hsq. reflexivity.
  - unfold f1, f2, g1, g2.
    cbn [filter id velocity position set_velocity set_position V.x V.y V.z].
    fold dx dy dz. fold vAN.
    rewrite HvAN, H1x, H1y, H1z, H2x, H2y, H2z, Hd.
    unfold Collision.restitution, Collision.collisionRadius.
    split; [ split; reflexivity | ].
    split; [ split; reflexivity | ].
    repeat split; field.
Qed.

End ScenarioFacts.

Section TickFacts.

Variable Math_sqrt : Q -> Q.

Lemma push_event_appends e events :
  exists more, ParticleSystem.push_event e events = events ++ more.
Proof.
  destruct e as [ev|]; cbn; [ now exists [ev] | exists []; now rewrite app_nil_r ].
Qed.

Lemma boundaryX_appends p events :
  exists more,
    snd (ParticleSystem.boundaryX Math_sqrt (p, events)) = events ++ more.
Proof.
  unfold ParticleSystem.boundaryX.
  repeat match goal with
         | |- context [if ?c then _ else _] => destruct c
         end; cbn [snd];
    try apply push_event_appends; exists []; now rewrite app_nil_r.
Qed.

Lemma boundaryY_appends p events :
  exists more,
    snd (ParticleSystem.boundaryY Math_sqrt (p, events)) = events ++ more.
Proof.
  unfold ParticleSystem.boundaryY.
  repeat match goal with
         | |- context [if ?c then _ else _] => destruct c
         end; cbn [snd];
    try apply push_event_appends; exists []; now rewrite app_nil_r.
Qed.

Lemma tickParticle_appends le r0 r1 r2 r3 p events :
  exists more,
    snd (ParticleSystem.tickParticle Math_sqrt le r0 r1 r2 r3 (p, events))
    = events ++ more.
Proof.
  unfold ParticleSystem.tickParticle.
  destruct (boundaryX_appends
              (ParticleSystem.estimateParticle le r0 r1 r2 r3 p) events)
    as [m1 H1].
  destruct (ParticleSystem.boundaryX Math_sqrt _) as [p1 ev1]. cbn [snd] in H1.
  destruct (boundaryY_appends p1 ev1) as [m2 H2].
  destruct (ParticleSystem.boundaryY Math_sqrt _) as [p2 ev2]. cbn [snd] in *.
  subst. exists (m1 ++ m2). now rewrite app_assoc.
Qed.

(** The list returned by [update] starts with the events of the
    collision pass. *)
Lemma update_returns_collision_events le random sys :
  exists more,
    snd (ParticleSystem.update Math_sqrt le random sys) =
    snd (Collision.checkParticleCollisions Math_sqrt
           (ParticleSystem.getParticles sys) (ParticleSystem.objects sys))
    ++ more.
Proof.
  unfold ParticleSystem.update, ParticleSystem.getParticles.
  destruct (Collision.checkParticleCollisions Math_sqrt _ _) as [st1 pc].
  cbn [snd].
  match goal with |- context [fold_left ?f _ _] => set (body := f) end.
  assert (H : forall l acc,
             exists more, snd (fst (fold_left body l acc)) = snd (fst acc) ++ more).
  { induction l as [|a l IH]; intros acc.
    - exists []. now rewrite app_nil_r.
    - cbn [fold_left]. destruct (IH (body acc a)) as [m Hm]. rewrite Hm.
      destruct acc as [[st ev] k]. unfold body. cbn [snd fst].
      destruct (deref st a) as [p|].
      + destruct (tickParticle_appends le (random (4 * k)%nat)
                    (random (4 * k + 1)%nat) (random (4 * k + 2)%nat)
                    (random (4 * k + 3)%nat) p ev) as [m' Hm'].
        destruct (ParticleSystem.tickParticle _ _ _ _ _ _ _) as [p' ev'].
        cbn [snd fst] in *. subst ev'. exists (m' ++ m). now rewrite app_assoc.
      + cbn [snd fst]. now exists m. }
  destruct (H (map snd (ParticleSystem.particles sys)) (st1, pc, O)) as [m Hm].
  destruct (fold_left body _ _) as [[st2 ev2] k2]. cbn [snd fst] in *.
  now exists m.
Qed.

End TickFacts.

(** The scenario, built with [createParticle]: the particles "a" at the
    origin and "b" at (0.3, 0, 0) with velocities (1, 0, 0) and
    (-1, 0, 0); every [Math.random()] returns 0.5. *)
Definition scenario_system : ParticleSystem.t :=
  let '(sys1, _) :=
    ParticleSystem.createParticle 0.5 0.5 0.5 ParticleSystem.empty "a"
      (V.mk 0 0 0) (V.mk 1 0 0) in
  let '(sys2, _) :=
    ParticleSystem.createParticle 0.5 0.5 0.5 sys1 "b"
      (V.mk 0.3 0 0) (V.mk (-1) 0 0) in
  sys2.

Definition scenario_particle (sys : ParticleSystem.t) (a : nat) : Particle :=
  nth a (ParticleSystem.objects sys)
      (mkParticle "" (V.mk 0 0 0) (V.mk 0 0 0)
                  (Kalman.new_filter (Kalman.mkState 0 0 0 0 0 0 0) 0 0) 0 [] 0).


Lemma collisions_preserve_momentum_witness :
  velocity_sum AxisX [0; 1]%nat
    (fst (Collision.checkParticleCollisions rational_sqrt [0; 1]%nat
            (ParticleSystem.objects scenario_system)))
  == velocity_sum AxisX [0; 1]%nat (ParticleSystem.objects scenario_system).
Proof.
  apply (collisions_preserve_momentum rational_sqrt [0; 1]%nat
           (ParticleSystem.objects scenario_system) AxisX).
  repeat constructor; cbn; intuition discriminate.
Defined.

(** ** Independence of the values returned by the getters *)

(** A value that does not refer to an object below address [n]. *)
Definition fresh (n : nat) (v : JS.value) : Prop :=
  match v with
  | JS.Ref a => (n <= a)%nat
  | _ => True
  end.

(** The objects a caller can reach, and so mutate, through a value. *)
Inductive reachable (h : JS.heap) : JS.value -> nat -> Prop :=
| reach_here (a : nat) : reachable h (JS.Ref a) a
| reach_step (a : nat) (o : JS.object) (v : JS.value) (b : nat) :
    nth_error h a = Some o -> In v (JS.contents o) -> reachable h v b ->
    reachable h (JS.Ref a) b.

(** The getter that took the heap from [h0] to [h1] and returned [v]
    left the objects of [h0] as they were, and nothing of [h0] can be
    reached through [v]. *)
Definition independent (h0 h1 : JS.heap) (v : JS.value) : Prop :=
  (forall b, (b < length h0)%nat -> nth_error h1 b = nth_error h0 b) /\
  (forall a, reachable h1 v a -> (length h0 <= a)%nat).

(** [h1] extends [h0] by objects that refer to new objects only, and so
    does [v]. *)
Definition new_structure (h0 h1 : JS.heap) (v : JS.value) : Prop :=
  exists ext,
    h1 = h0 ++ ext /\
    Forall (fun o => Forall (fresh (length h0)) (JS.contents o)) ext /\
    fresh (length h0) v.

Fixpoint json_induction (Q0 : JS.json -> Prop)
         (HN : forall q, Q0 (JS.JNum q)) (HS : forall s, Q0 (JS.JStr s))
         (HO : forall fields,
             Forall (fun kj => Q0 (snd kj)) fields -> Q0 (JS.JObj fields))
         (HA : forall elems, Forall Q0 elems -> Q0 (JS.JArr elems))
         (j : JS.json) : Q0 j :=
  match j with
  | JS.JNum q => HN q
  | JS.JStr s => HS s
  | JS.JObj fields =>
    HO fields
       ((fix go (l : list (string * JS.json))
           : Forall (fun kj => Q0 (snd kj)) l :=
           match l with
           | [] => Forall_nil _
           | kj :: rest =>
             Forall_cons kj (json_induction Q0 HN HS HO HA (snd kj)) (go rest)
           end) fields)
  | JS.JArr elems =>
    HA elems
       ((fix go (l : list JS.json) : Forall Q0 l :=
           match l with
           | [] => Forall_nil _
           | j0 :: rest =>
             Forall_cons j0 (json_induction Q0 HN HS HO HA j0) (go rest)
           end) elems)
  end.

Lemma fresh_mono n n' v : (n <= n')%nat -> fresh n' v -> fresh n v.
Proof. destruct v; cbn; intros; try exact I; lia. Qed.

Lemma new_structure_refl h v : fresh (length h) v -> new_structure h h v.
Proof.
  intros Hv. exists []. repeat split; [ now rewrite app_nil_r | constructor | exact Hv ].
Qed.

Lemma new_structure_trans h0 h1 h2 v1 v2 :
  new_structure h0 h1 v1 -> new_structure h1 h2 v2 -> new_structure h0 h2 v2.
Proof.
  intros [e1 [-> [F1 _]]] [e2 [-> [F2 Hv2]]].
  assert (Hlen : (length h0 <= length (h0 ++ e1))%nat)
    by (rewrite length_app; lia).
  exists (e1 ++ e2). repeat split.
  - now rewrite app_assoc.
  - apply Forall_app. split; [ exact F1 | ].
    eapply Forall_impl; [ | exact F2 ]. intros o Ho.
    eapply Forall_impl; [ | exact Ho ]. intros v. now apply fresh_mono.
  - now apply (fresh_mono _ _ _ Hlen).
Qed.

Lemma new_structure_alloc h0 h1 v o :
  new_structure h0 h1 v -> Forall (fresh (length h0)) (JS.contents o) ->
  new_structure h0 (fst (JS.alloc h1 o)) (snd (JS.alloc h1 o)).
Proof.
  intros [e1 [-> [F1 _]]] Ho. cbn [JS.alloc fst snd].
  exists (e1 ++ [o]). repeat split.
  - now rewrite app_assoc.
  - apply Forall_app. split; [ exact F1 | now constructor ].
  - cbn. rewrite length_app. lia.
Qed.

(** [JSON.parse] builds its result out of new objects. *)
Lemma parse_new_structure j :
  forall h, new_structure h (fst (JS.parse j h)) (snd (JS.parse j h)).
Proof.
  induction j as [q | s | fields IH | elems IH] using json_induction; intros h.
  - now apply new_structure_refl.
  - now apply new_structure_refl.
  - cbn [JS.parse].
    assert (Hfold : forall l h1 acc,
               Forall (fun kj => forall h, new_structure h (fst (JS.parse (snd kj) h))
                                                         (snd (JS.parse (snd kj) h))) l ->
               new_structure h h1 (JS.Num 0) ->
               Forall (fresh (length h)) (map snd acc) ->
               let r := fold_left
                          (fun '(h0, acc) (kj : string * JS.json) =>
                             let '(h', v) := JS.parse (snd kj) h0 in
                             (h', acc ++ [(fst kj, v)]))
                          l (h1, acc) in
               new_structure h (fst r) (JS.Num 0) /\
               Forall (fresh (length h)) (map snd (snd r))).
    { induction l as [|kj l IHl]; intros h1 acc Hl Hh1 Hacc.
      - cbn. now split.
      - inversion Hl as [|? ? Hkj Hl']; subst. cbn [fold_left].
        pose proof (Hkj h1) as Hp.
        destruct (JS.parse (snd kj) h1) as [h' v]. cbn [fst snd] in Hp.
        pose proof (new_structure_trans _ _ _ _ _ Hh1 Hp) as Htr.
        apply IHl; [ exact Hl' | | ].
        + destruct Htr as [e [-> [Fe _]]]. exists e. now repeat split.
        + rewrite map_app. apply Forall_app. split; [ exact Hacc | ].
          constructor; [ | constructor ]. cbn.
          destruct Htr as [e [_ [_ Hv]]]. exact Hv. }
    specialize (Hfold fields h [] IH (new_structure_refl h (JS.Num 0) I)
                      (Forall_nil _)).
    cbv zeta in Hfold. destruct (fold_left _ fields (h, [])) as [h1 vs].
    cbn [fst snd] in Hfold. destruct Hfold as [H1 H2].
    now apply (new_structure_alloc h h1 (JS.Num 0)).
  - cbn [JS.parse].
    assert (Hfold : forall l h1 acc,
               Forall (fun j0 => forall h, new_structure h (fst (JS.parse j0 h))
                                                         (snd (JS.parse j0 h))) l ->
               new_structure h h1 (JS.Num 0) ->
               Forall (fresh (length h)) acc ->
               let r := fold_left
                          (fun '(h0, acc) (j0 : JS.json) =>
                             let '(h', v) := JS.parse j0 h0 in (h', acc ++ [v]))
                          l (h1, acc) in
               new_structure h (fst r) (JS.Num 0) /\
               Forall (fresh (length h)) (snd r)).
    { induction l as [|j0 l IHl]; intros h1 acc Hl Hh1 Hacc.
      - cbn. now split.
      - inversion Hl as [|? ? Hj0 Hl']; subst. cbn [fold_left].
        pose proof (Hj0 h1) as Hp.
        destruct (JS.parse j0 h1) as [h' v]. cbn [fst snd] in Hp.
        pose proof (new_structure_trans _ _ _ _ _ Hh1 Hp) as Htr.
        apply IHl; [ exact Hl' | | ].
        + destruct Htr as [e [-> [Fe _]]]. exists e. now repeat split.
        + apply Forall_app. split; [ exact Hacc | ].
          constructor; [ | constructor ].
          destruct Htr as [e [_ [_ Hv]]]. exact Hv. }
    specialize (Hfold elems h [] IH (new_structure_refl h (JS.Num 0) I)
                      (Forall_nil _)).
    cbv zeta in Hfold. destruct (fold_left _ elems (h, [])) as [h1 vs].
    cbn [fst snd] in Hfold. destruct Hfold as [H1 H2].
    now apply (new_structure_alloc h h1 (JS.Num 0)).
Qed.

Lemma new_structure_independent h0 h1 v :
  new_structure h0 h1 v -> independent h0 h1 v.
Proof.
  intros [ext [-> [Fext Hv]]]. split.
  - intros b Hb. now apply nth_error_app1.
  - intros a Hr. induction Hr as [a | a o v b Ha Hin Hr IH].
    + exact Hv.
    + apply IH. cbn in Hv.
      rewrite nth_error_app2 in Ha by exact Hv.
      apply nth_error_In in Ha. rewrite Forall_forall in Fext.
      specialize (Fext o Ha). rewrite Forall_forall in Fext. now apply Fext.
Qed.

(** A write through a value that is independent of the core leaves every
    object of the core as it was. *)
Lemma independent_write h0 h1 v a o b :
  independent h0 h1 v -> reachable h1 v a -> (b < length h0)%nat ->
  nth_error (JS.write h1 a o) b = nth_error h0 b.
Proof.
  intros [Hold Hnew] Hr Hb. unfold JS.write.
  rewrite nth_error_set_nth_neq by (specialize (Hnew a Hr); lia).
  now apply Hold.
Qed.

Definition primitive (v : JS.value) : Prop :=
  match v with JS.Ref _ => False | _ => True end.

Lemma primitive_fresh n v : primitive v -> fresh n v.
Proof. destruct v; cbn; tauto. Qed.

Lemma getState_independent h a fields h1 v :
  nth_error h a = Some (JS.Obj fields) ->
  Forall primitive (map snd fields) ->
  JS.getState h a = Some (h1, v) -> independent h h1 v.
Proof.
  unfold JS.getState, JS.spread. intros Ha Hprim. rewrite Ha.
  intros [= <- <-]. apply new_structure_independent.
  apply (new_structure_alloc h h (JS.Num 0) (JS.Obj fields)).
  - now apply new_structure_refl.
  - cbn. eapply Forall_impl; [ | exact Hprim ]. intros x. apply primitive_fresh.
Qed.

Lemma json_clone_independent fuel h v h1 v1 :
  JS.json_clone fuel h v = Some (h1, v1) -> independent h h1 v1.
Proof.
  unfold JS.json_clone. destruct (JS.stringify fuel h v) as [j|]; [ | discriminate ].
  cbn. intros [= E]. pose proof (parse_new_structure j h) as Hn.
  rewrite E in Hn. now apply new_structure_independent.
Qed.

Lemma getCovariance_independent fuel h a h1 v :
  JS.getCovariance fuel h a = Some (h1, v) -> independent h h1 v.
Proof.
  unfold JS.getCovariance, JS.json_clone.
  destruct (JS.stringify fuel h (JS.Ref a)) as [j|]; [ | discriminate ].
  cbn [option_map]. pose proof (parse_new_structure j h) as Hn.
  destruct (JS.parse j h) as [h' data]. cbn [fst snd] in Hn.
  intros [= <- <-]. apply new_structure_independent.
  apply (new_structure_alloc h h' data). 
  - exact Hn.
  - cbn. constructor; [ | constructor ]. destruct Hn as [e [_ [_ Hv]]]. exact Hv.
Qed.

Lemma getParticles_aliases h addrs a :
  In a addrs ->
  reachable (fst (JS.getParticles h addrs)) (snd (JS.getParticles h addrs)) a.
Proof.
  intros Hin. cbn [JS.getParticles JS.alloc fst snd].
  apply (reach_step _ (length h) (JS.Arr (map JS.Ref addrs)) (JS.Ref a) a).
  - rewrite nth_error_app2 by lia. now rewrite PeanoNat.Nat.sub_diag.
  - cbn. now apply in_map.
  - constructor.
Qed.

(** C7, amended: the values returned by [getState] and [getCovariance]
    of the estimator and by [getGlobalPosterior] of the aggregator are
    made of new objects only, so that a write to any object reachable
    through them leaves every object of the core as it was;
    [getParticles] returns a new array that holds the particle objects
    of the core themselves: each of them is reachable, and so writable,
    through the returned array. *)
Theorem getters_copy_except_getParticles (h : JS.heap) (fuel : nat) :
  (forall a fields h1 v,
      nth_error h a = Some (JS.Obj fields) ->
      Forall primitive (map snd fields) ->
      JS.getState h a = Some (h1, v) ->
      forall c o b, reachable h1 v c -> (b < length h)%nat ->
                    nth_error (JS.write h1 c o) b = nth_error h b) /\
  (forall a h1 v,
      JS.getCovariance fuel h a = Some (h1, v) ->
      forall c o b, reachable h1 v c -> (b < length h)%nat ->
                    nth_error (JS.write h1 c o) b = nth_error h b) /\
  (forall a h1 v,
      JS.getGlobalPosterior fuel h a = Some (h1, v) ->
      forall c o b, reachable h1 v c -> (b < length h)%nat ->
                    nth_error (JS.write h1 c o) b = nth_error h b) /\
  (forall addrs a,
      In a addrs ->
      reachable (fst (JS.getParticles h addrs))
                (snd (JS.getParticles h addrs)) a /\
      forall o, (a < length h)%nat ->
                nth_error (JS.write (fst (JS.getParticles h addrs)) a o) a
                = Some o).
Proof.
  repeat split.
  - intros a fields h1 v Ha Hp Hg c o b Hr Hb.
    eapply independent_write; [ | exact Hr | exact Hb ].
    eapply getState_independent; eassumption.
  - intros a h1 v Hg c o b Hr Hb.
    eapply independent_write; [ | exact Hr | exact Hb ].
    eapply getCovariance_independent; eassumption.
  - intros a h1 v Hg c o b Hr Hb.
    eapply independent_write; [ | exact Hr | exact Hb ].
    eapply json_clone_independent; eassumption.
  - now apply getParticles_aliases.
  - intros o Ha. unfold JS.write. apply nth_error_set_nth_eq.
    cbn [JS.getParticles JS.alloc fst]. rewrite length_app. lia.
Qed.

(** C7, as stated, fails for [getParticles]: in the system of the
    scenario, a write to the position of the first element of the
    returned array changes the particle that the system holds under the
    id "a". *)
Lemma getParticles_returns_live_particles :
  let sys := scenario_system in
  let returned := ParticleSystem.getParticles sys in
  let a := nth 0 returned O in
  let objects' :=
    modify (ParticleSystem.objects sys) a (set_position (V.mk 99 0 0)) in
  ParticleSystem.getParticle sys "a" = Some a /\
  option_map position (deref (ParticleSystem.objects sys) a)
  = Some (V.mk 0 0 0) /\
  option_map position (deref objects' a) = Some (V.mk 99 0 0).
Proof. repeat split. Qed.


(** ** Further properties of the estimator *)

Lemma at2_matrixMultiply_4 A B a b :
  shape 4 4 A -> shape 4 4 B -> (a < 4)%nat -> (b < 4)%nat ->
  at2 (matrixMultiply A B) a b == sumn 4 (fun c => at2 A a c * at2 B c b).
Proof.
  intros HA HB Ha Hb. explicit_matrix A HA x. explicit_matrix B HB y.
  cases_lt Ha; cases_lt Hb; mat_eval; cbv [sumn]; ring.
Qed.

(** When [inverse] divides, its result is the inverse: multiplied with
    the matrix on either side it gives the identity. *)
Theorem inverse_is_inverse (A : Matrix) (a b : nat) :
  shape 4 4 A -> epsilon <= Math_abs (determinant4x4 A) ->
  (a < 4)%nat -> (b < 4)%nat ->
  at2 (matrixMultiply (inverse A) A) a b == at2 (identity 4) a b /\
  at2 (matrixMultiply A (inverse A)) a b == at2 (identity 4) a b.
Proof.
  intros Hs Hd Ha Hb.
  assert (HsX : shape 4 4 (inverse A)) by (apply inverse_shape, Hs).
  assert (Hid : at2 (identity 4) a b = delta a b)
    by (cases_lt Ha; cases_lt Hb; reflexivity).
  rewrite Hid. split.
  - rewrite at2_matrixMultiply_4 by assumption. now apply inverse_left.
  - rewrite at2_matrixMultiply_4 by assumption. now apply inverse_right.
Qed.

Definition example_matrix4 : Matrix :=
  [ [2; 0; 0; 1]; [0; 1; 0; 0]; [0; 0; 1; 0]; [1; 0; 0; 1] ].

Lemma inverse_is_inverse_witness :
  at2 (matrixMultiply (inverse example_matrix4) example_matrix4) 0 3
  == at2 (identity 4) 0 3 /\
  at2 (matrixMultiply example_matrix4 (inverse example_matrix4)) 0 3
  == at2 (identity 4) 0 3.
Proof.
  apply (inverse_is_inverse example_matrix4 0 3).
  - split; [ reflexivity | repeat constructor ].
  - vm_compute. discriminate.
  - lia.
  - lia.
Defined.

(** The covariance written by [update], entry by entry: only the block of
    the four observed components of [P] and the inverse of [S] enter. *)
Theorem update_covariance_entry (f : ExtendedKalmanFilter)
        (observedPosition observedVelocity : Q * Q) (i j : nat) :
  shape 7 7 (P f) -> (i < 7)%nat -> (j < 7)%nat ->
  let X := inverse (innovationCovariance (P f) (R f)) in
  at2 (P (update f observedPosition observedVelocity)) i j ==
  at2 (P f) i j -
  sumn 4 (fun a => sumn 4 (fun b => at2 (P f) i b * at2 X b a * at2 (P f) a j)).
Proof.
  intros Hs Hi Hj. cbv zeta. rewrite update_P.
  apply covUpdate_entry; try assumption.
  apply inverse_shape. now apply innovationCovariance_shape.
Qed.

Lemma update_covariance_entry_witness :
  let X := inverse (innovationCovariance (P example_filter) (R example_filter)) in
  at2 (P (update example_filter (0, 0) (0, 0))) 0 1 ==
  at2 (P example_filter) 0 1 -
  sumn 4 (fun a => sumn 4 (fun b =>
     at2 (P example_filter) 0 b * at2 X b a * at2 (P example_filter) a 1)).
Proof.
  apply (update_covariance_entry example_filter (0, 0) (0, 0) 0 1).
  - apply new_filter_ok.
  - lia.
  - lia.
Defined.

(** The change of the trace in one prediction. *)
Theorem predict_trace_change (f : ExtendedKalmanFilter) :
  filter_ok f ->
  trace7 (P (predict f)) - trace7 (P f) == 0.0403 + trace_drift f.
Proof.
  intros Hok. rewrite (predict_trace f Hok). ring.
Qed.

Lemma predict_trace_change_witness :
  trace7 (P (predict example_filter)) - trace7 (P example_filter)
  == 0.0403 + trace_drift example_filter.
Proof. apply (predict_trace_change example_filter). apply new_filter_ok. Defined.

(** Symmetry and positive semi-definiteness along any sequence of calls. *)
Lemma symmetric_run calls :
  forall f, filter_ok f -> is_symmetric 7 (P f) ->
            is_symmetric 7 (P (run calls f)).
Proof.
  induction calls as [|c calls IH]; intros f Hok Hsym; [ exact Hsym | ].
  cbn [run fold_left]. destruct c as [|op ov].
  - apply IH; [ now apply predict_ok | now apply predict_symmetric ].
  - apply IH; [ now apply update_ok | now apply update_symmetric ].
Qed.



Lemma fold_trace_nonneg M :
  (forall i, (i < 7)%nat -> 0 <= at2 M i i) ->
  0 <= fold_left (fun trace i => trace + at2 M i i) (seq 0 7) 0.
Proof.
  intros H. cbn [fold_left seq].
  pose proof (H 0%nat ltac:(lia)). pose proof (H 1%nat ltac:(lia)).
  pose proof (H 2%nat ltac:(lia)). pose proof (H 3%nat ltac:(lia)).
  pose proof (H 4%nat ltac:(lia)). pose proof (H 5%nat ltac:(lia)).
  pose proof (H 6%nat ltac:(lia)). lra.
Qed.



(** The gain term of the covariance update is non-negative on the
    diagonal: with [S X = I] and [S] coercive, [u^T X u >= 0]. *)
Section GainTerm.

Variables (s xm : nat -> nat -> Q) (r : Q) (u : nat -> Q).

Hypothesis SX : forall a b, (a < 4)%nat -> (b < 4)%nat ->
  sumn 4 (fun c => s a c * xm c b) == delta a b.
Hypothesis Scoercive : coercive 4 r s.
Hypothesis r_nonneg : 0 <= r.

Let w (b : nat) : Q := sumn 4 (fun a => xm b a * u a).

Lemma gain_term_solves c : (c < 4)%nat -> u c == sumn 4 (fun b => s c b * w b).
Proof.
  intros Hc.
  assert (E : sumn 4 (fun b => s c b * w b) ==
              sumn 4 (fun a => u a * sumn 4 (fun b => s c b * xm b a))).
  { cbv [sumn w]. ring. }
  rewrite E. cbv [sumn] in SX |- *. rewrite !SX by lia. cbv [delta].
  repeat (destruct c as [|c]; [ cbn; ring | ]). exfalso; lia.
Qed.

Lemma gain_term_nonneg :
  0 <= sumn 4 (fun a => sumn 4 (fun b => u b * xm b a * u a)).
Proof.
  assert (E : sumn 4 (fun a => sumn 4 (fun b => u b * xm b a * u a))
              == qf 4 s w).
  { transitivity (sumn 4 (fun b => u b * w b)).
    - cbv [sumn w]. ring.
    - cbv [sumn qf].
      rewrite (gain_term_solves 0), (gain_term_solves 1),
              (gain_term_solves 2), (gain_term_solves 3) by lia.
      cbv [sumn]. ring. }
  rewrite E. pose proof (Scoercive w) as Hc.
  pose proof (sumn_squares_nonneg 4 w) as Hn. unfold norm2 in Hc. nra.
Qed.

End GainTerm.

Lemma update_variance_le f op ov i :
  filter_ok f -> psd7 (P f) -> is_symmetric 7 (P f) -> (i < 7)%nat ->
  at2 (P (update f op ov)) i i <= at2 (P f) i i.
Proof.
  intros [Hs [_ HR]] Hpsd Hsym Hi. rewrite update_P, HR.
  set (S0 := innovationCovariance (P f) 0.1).
  assert (HsS : shape 4 4 S0) by now apply innovationCovariance_shape.
  assert (HsX : shape 4 4 (inverse S0)) by (apply inverse_shape, HsS).
  rewrite covUpdate_entry by assumption.
  assert (Hg : 0 <= sumn 4 (fun a => sumn 4 (fun b =>
                 at2 (P f) i b * at2 (inverse S0) b a * at2 (P f) i a))).
  { apply (gain_term_nonneg (at2 S0) (at2 (inverse S0)) 0.1
                            (fun a => at2 (P f) i a)).
    - intros a b Ha Hb. apply inverse_right; try assumption.
      now apply innovationCovariance_invertible.
    - now apply innovationCovariance_coercive.
    - lra. }
  assert (E : sumn 4 (fun a => sumn 4 (fun b =>
                 at2 (P f) i b * at2 (inverse S0) b a * at2 (P f) a i))
              == sumn 4 (fun a => sumn 4 (fun b =>
                 at2 (P f) i b * at2 (inverse S0) b a * at2 (P f) i a))).
  { apply sumn_ext. intros a Ha. apply sumn_ext. intros b Hb.
    rewrite (Hsym a i) by lia. reflexivity. }
  rewrite E. lra.
Qed.




(** ** A perfect prediction is a fixed point of the correction *)

Lemma Math_min_compat a b a' b' :
  a == a' -> b == b' -> Math_min a b == Math_min a' b'.
Proof.
  intros Ha Hb. unfold Math_min.
  destruct (Qle_bool a b) eqn:E; destruct (Qle_bool a' b') eqn:E'; try assumption.
  - apply Qle_bool_iff in E. apply Qle_bool_false_iff in E'. lra.
  - apply Qle_bool_false_iff in E. apply Qle_bool_iff in E'. lra.
Qed.

Lemma Math_max_compat a b a' b' :
  a == a' -> b == b' -> Math_max a b == Math_max a' b'.
Proof.
  intros Ha Hb. unfold Math_max.
  destruct (Qle_bool a b) eqn:E; destruct (Qle_bool a' b') eqn:E'; try assumption.
  - apply Qle_bool_iff in E. apply Qle_bool_false_iff in E'. lra.
  - apply Qle_bool_false_iff in E. apply Qle_bool_iff in E'. lra.
Qed.

Lemma clamp_inside lo hi x :
  lo <= x -> x <= hi -> Math_max lo (Math_min hi x) == x.
Proof.
  intros Hl Hh. unfold Math_max, Math_min.
  destruct (Qle_bool hi x) eqn:E1.
  - apply Qle_bool_iff in E1.
    destruct (Qle_bool lo hi) eqn:E2; [ lra | ].
    apply Qle_bool_false_iff in E2. lra.
  - destruct (Qle_bool lo x) eqn:E2; [ reflexivity | ].
    apply Qle_bool_false_iff in E2. lra.
Qed.

Lemma row_times_zero (y : list Q) :
  (forall j, nth j y 0 == 0) ->
  forall (row : list Q) (s0 : Q) (i0 : nat),
    fst (fold_left (fun '(sum, i) val => (sum + val * nth i y 0, S i))
                   row (s0, i0)) == s0.
Proof.
  intros Hy row. induction row as [|val row IH]; intros s0 i0.
  - reflexivity.
  - cbn [fold_left]. rewrite IH. rewrite (Hy i0). ring.
Qed.

Lemma matrixVectorMultiply_zero (K : Matrix) (y : list Q) :
  (forall j, nth j y 0 == 0) ->
  forall i, nth i (matrixVectorMultiply K y) 0 == 0.
Proof.
  intros Hy. unfold matrixVectorMultiply.
  induction K as [|row K IH]; intros [|i]; cbn [map nth]; try reflexivity.
  - now apply row_times_zero.
  - apply IH.
Qed.

Lemma or_zero_nth_error (l : list Q) (i : nat) :
  or_zero (nth_error l i) = nth i l 0.
Proof.
  revert i. induction l as [|x l IH]; intros [|i]; cbn; try reflexivity.
  apply IH.
Qed.

(** When the observation equals the predicted observation (the
    innovation is zero), [update] leaves position and velocity as they
    are and only clamps the learned constants; constants already in
    range are left as they are. *)
Theorem update_zero_innovation (f : ExtendedKalmanFilter) :
  let s := state f in
  let s' := state (update f (px s, py s) (vx s, vy s)) in
  px s' == px s /\ py s' == py s /\ vx s' == vx s /\ vy s' == vy s /\
  g s' == Math_max 0 (Math_min 20 (g s)) /\
  m s' == Math_max 0.1 (Math_min 10 (m s)) /\
  mu s' == Math_max 0 (Math_min 2 (mu s)) /\
  (0 <= g s <= 20 -> g s' == g s) /\
  (0.1 <= m s <= 10 -> m s' == m s) /\
  (0 <= mu s <= 2 -> mu s' == mu s).
Proof.
  cbv zeta. unfold update. cbn [state px py vx vy g m mu fst snd].
  set (yv := mapi _ _).
  assert (Hy : forall j, nth j yv 0 == 0).
  { intros j. unfold yv. cbv [mapi mapi_from nth].
    do 4 (destruct j as [|j]; [ ring | ]). destruct j; reflexivity. }
  pose proof (matrixVectorMultiply_zero (kalmanGain (P f) (R f)) yv Hy) as HK.
  rewrite !or_zero_nth_error.
  set (Ky := matrixVectorMultiply _ yv) in *.
  assert (Eg : Math_max 0 (Math_min 20 (g (state f) + nth 4 Ky 0 * paramLearningRate))
               == Math_max 0 (Math_min 20 (g (state f)))).
  { apply Math_max_compat; [ reflexivity | ].
    apply Math_min_compat; [ reflexivity | ]. rewrite (HK 4%nat). ring. }
  assert (Em : Math_max 0.1 (Math_min 10 (m (state f) + nth 5 Ky 0 * paramLearningRate))
               == Math_max 0.1 (Math_min 10 (m (state f)))).
  { apply Math_max_compat; [ reflexivity | ].
    apply Math_min_compat; [ reflexivity | ]. rewrite (HK 5%nat). ring. }
  assert (Emu : Math_max 0 (Math_min 2 (mu (state f) + nth 6 Ky 0 * paramLearningRate))
               == Math_max 0 (Math_min 2 (mu (state f)))).
  { apply Math_max_compat; [ reflexivity | ].
    apply Math_min_compat; [ reflexivity | ]. rewrite (HK 6%nat). ring. }
  repeat split.
  - rewrite (HK 0%nat). ring.
  - rewrite (HK 1%nat). ring.
  - rewrite (HK 2%nat). ring.
  - rewrite (HK 3%nat). ring.
  - exact Eg.
  - exact Em.
  - exact Emu.
  - intros [H1 H2]. rewrite Eg. now apply clamp_inside.
  - intros [H1 H2]. rewrite Em. now apply clamp_inside.
  - intros [H1 H2]. rewrite Emu. now apply clamp_inside.
Qed.

(** ** Further properties of the collision system *)

(** An event whose impact exceeds the reporting threshold. *)
Definition reportable (e : CollisionEvent) : Prop :=
  Collision.minImpactVelocity < impact e.

Definition inside (lo hi v : Q) : Prop := lo < v /\ v < hi.

Section CollisionMore.

Variable Math_sqrt : Q -> Q.

Lemma resolvePair_frame acc a1 a2 b :
  b <> a1 -> b <> a2 ->
  deref (fst (Collision.resolvePair Math_sqrt acc a1 a2)) b = deref (fst acc) b.
Proof.
  intros H1 H2. destruct acc as [st events]. unfold Collision.resolvePair.
  destruct (deref st a1) as [p1|]; [ | reflexivity ].
  destruct (deref st a2) as [p2|]; [ | reflexivity ].
  destruct (_ && _); [ | reflexivity ].
  destruct (Qlt_bool 0 _); [ reflexivity | ].
  cbv zeta.
  match goal with
  | |- context [modify (modify (modify (modify st a1 ?F1) a2 ?F2) a1 ?G1) a2 ?G2] =>
    set (st4 := modify (modify (modify (modify st a1 F1) a2 F2) a1 G1) a2 G2)
  end.
  assert (E : deref st4 b = deref st b)
    by (unfold st4; rewrite !deref_modify_neq by congruence; reflexivity).
  destruct (Qlt_bool Collision.minImpactVelocity _);
    [ destruct (deref st4 a1); [ destruct (deref st4 a2) | ] | ];
    cbn [fst]; exact E.
Qed.

Lemma resolvePair_reportable st events a1 a2 :
  Forall reportable events ->
  Forall reportable (snd (Collision.resolvePair Math_sqrt (st, events) a1 a2)).
Proof.
  intros Hev. unfold Collision.resolvePair.
  destruct (deref st a1) as [p1|]; [ | exact Hev ].
  destruct (deref st a2) as [p2|]; [ | exact Hev ].
  destruct (_ && _); [ | exact Hev ].
  destruct (Qlt_bool 0 _); [ exact Hev | ].
  cbv zeta.
  destruct (Qlt_bool Collision.minImpactVelocity _) eqn:E; [ | exact Hev ].
  match goal with
  | |- context [deref ?s a1] => destruct (deref s a1); [ | exact Hev ]
  end.
  match goal with
  | |- context [deref ?s a2] => destruct (deref s a2); [ | exact Hev ]
  end.
  cbn [snd]. apply Forall_app. split; [ exact Hev | ].
  constructor; [ | constructor ]. unfold reportable. cbn [impact].
  now apply Qlt_bool_iff.
Qed.

Lemma checkParticleCollisions_invariant
      (Inv : Store * list CollisionEvent -> Prop) particles st :
  (forall acc i j a1 a2,
      (i < j)%nat ->
      nth_error particles i = Some a1 -> nth_error particles j = Some a2 ->
      Inv acc -> Inv (Collision.resolvePair Math_sqrt acc a1 a2)) ->
  Inv (st, []) ->
  Inv (Collision.checkParticleCollisions Math_sqrt particles st).
Proof.
  intros Hstep Hinit. unfold Collision.checkParticleCollisions.
  apply (fold_left_invariant Inv); [ | exact Hinit ].
  intros acc i Hi Hacc. apply in_seq in Hi.
  apply (fold_left_invariant Inv); [ | exact Hacc ].
  intros acc' j Hj Hacc'. apply in_seq in Hj.
  destruct (nth_error particles i) as [a1|] eqn:E1; [ | exact Hacc' ].
  destruct (nth_error particles j) as [a2|] eqn:E2; [ | exact Hacc' ].
  apply (Hstep acc' i j a1 a2); [ lia | assumption .. ].
Qed.

(** The collision pass neither allocates nor frees, and it only writes
    to the objects of the array. *)
Theorem collisions_frame (particles : list nat) (st : Store) (b : nat) :
  ~ In b particles ->
  let st' := fst (Collision.checkParticleCollisions Math_sqrt particles st) in
  length st' = length st /\ deref st' b = deref st b.
Proof.
  intros Hb. cbv zeta.
  apply (checkParticleCollisions_invariant
           (fun acc => length (fst acc) = length st /\ deref (fst acc) b = deref st b)).
  - intros acc i j a1 a2 _ E1 E2 [Hl Hd]. split.
    + now rewrite resolvePair_length.
    + rewrite resolvePair_frame; [ exact Hd | | ];
        intros ->; apply Hb; eapply nth_error_In; eassumption.
  - now split.
Qed.

(** Every event reported by the collision pass has an impact above the
    reporting threshold. *)
Lemma collisions_reportable particles st :
  Forall reportable
         (snd (Collision.checkParticleCollisions Math_sqrt particles st)).
Proof.
  apply (checkParticleCollisions_invariant
           (fun acc => Forall reportable (snd acc))).
  - intros [st0 ev] i j a1 a2 _ _ _ H. now apply resolvePair_reportable.
  - constructor.
Qed.

Lemma checkBoundaryCollision_some p lo hi e :
  Collision.checkBoundaryCollision Math_sqrt p lo hi = Some e ->
  particle1 e = id p /\ particle2 e = "boundary"%string /\
  event_position e = position p /\ event_velocity e = velocity p /\
  reportable e.
Proof.
  unfold Collision.checkBoundaryCollision.
  repeat match goal with
         | |- context [let '(_, _) := (if ?c then _ else _) in _] => destruct c
         end;
    cbv zeta beta iota;
    repeat match goal with
           | |- (if ?c then _ else _) = Some _ -> _ => destruct c eqn:?
           end;
    try discriminate;
    intros [= <-]; cbn; repeat split;
    unfold reportable; cbn [impact]; now apply Qlt_bool_iff.
Qed.

(** A particle strictly inside the box touches no boundary:
    [checkBoundaryCollision] returns [null]; and an event it returns
    names the particle and "boundary", carries the particle's position
    and velocity, and has an impact above the threshold. *)
Theorem checkBoundaryCollision_spec (p : Particle) (lo hi : Q) :
  (inside lo hi (V.x (position p)) -> inside lo hi (V.y (position p)) ->
   inside lo hi (V.z (position p)) ->
   Collision.checkBoundaryCollision Math_sqrt p lo hi = None) /\
  (forall e, Collision.checkBoundaryCollision Math_sqrt p lo hi = Some e ->
             particle1 e = id p /\ particle2 e = "boundary"%string /\
             event_position e = position p /\ event_velocity e = velocity p /\
             Collision.minImpactVelocity < impact e).
Proof.
  split.
  - intros [Hx1 Hx2] [Hy1 Hy2] [Hz1 Hz2].
    unfold Collision.checkBoundaryCollision.
    apply Qle_bool_false_iff in Hx1, Hx2, Hy1, Hy2, Hz1, Hz2.
    rewrite Hx1, Hx2, Hy1, Hy2, Hz1, Hz2. reflexivity.
  - intros e He. now apply (checkBoundaryCollision_some p lo hi).
Qed.

(** The elastic impulse: for a pair inside the collision radius that is
    not separating, with [Math.sqrt] exact on the squared distance, the
    relative velocity along the connecting vector is multiplied by
    minus the restitution 0.8, and the two particles end at distance
    2 x 0.4 (squared: 0.64). *)
Theorem resolvePair_restitution
        (st : Store) (events : list CollisionEvent) (a1 a2 : nat)
        (p1 p2 : Particle) :
  a1 <> a2 -> deref st a1 = Some p1 -> deref st a2 = Some p2 ->
  let dx := V.x (position p2) - V.x (position p1) in
  let dy := V.y (position p2) - V.y (position p1) in
  let dz := V.z (position p2) - V.z (position p1) in
  let D := Math_sqrt (dx * dx + dy * dy + dz * dz) in
  D * D == dx * dx + dy * dy + dz * dz ->
  0.01 < D -> D < 0.8 ->
  closing_rate p1 p2 <= 0 ->
  exists q1 q2,
    let st' := fst (Collision.resolvePair Math_sqrt (st, events) a1 a2) in
    deref st' a1 = Some q1 /\ deref st' a2 = Some q2 /\
    (V.x (velocity q2) - V.x (velocity q1)) * dx
    + (V.y (velocity q2) - V.y (velocity q1)) * dy
    + (V.z (velocity q2) - V.z (velocity q1)) * dz
    == - Collision.restitution * closing_rate p1 p2 /\
    (V.x (position q2) - V.x (position q1)) * (V.x (position q2) - V.x (position q1))
    + (V.y (position q2) - V.y (position q1)) * (V.y (position q2) - V.y (position q1))
    + (V.z (position q2) - V.z (position q1)) * (V.z (position q2) - V.z (position q1))
    == 0.64.
Proof.
  intros Hne E1 E2. cbv zeta.
  set (dx := V.x (position p2) - V.x (position p1)).
  set (dy := V.y (position p2) - V.y (position p1)).
  set (dz := V.z (position p2) - V.z (position p1)).
  set (D := Math_sqrt (dx * dx + dy * dy + dz * dz)).
  intros HD Hlo Hhi Hrate.
  assert (HDnz : ~ D == 0) by lra.
  unfold Collision.resolvePair. rewrite E1, E2. cbv zeta.
  fold dx dy dz. fold D.
  set (vAN := (V.x (velocity p2) - V.x (velocity p1)) * (dx / D)
              + (V.y (velocity p2) - V.y (velocity p1)) * (dy / D)
              + (V.z (velocity p2) - V.z (velocity p1)) * (dz / D)).
  assert (HvAN : vAN == closing_rate p1 p2 / D).
  { unfold vAN, closing_rate. fold dx dy dz. field. exact HDnz. }
  assert (C1 : Qlt_bool D (Collision.collisionRadius * 2) && Qlt_bool 0.01 D = true).
  { apply andb_true_iff. split; apply Qlt_bool_iff;
      unfold Collision.collisionRadius; lra. }
  rewrite C1.
  assert (C2 : Qlt_bool 0 vAN = false).
  { apply Qlt_bool_false_iff. rewrite HvAN.
    apply Qle_shift_div_r; lra. }
  rewrite C2.
  match goal with
  | |- context [modify (modify (modify (modify st a1 ?F1) a2 ?F2) a1 ?G1) a2 ?G2] =>
    set (f1 := F1); set (f2 := F2); set (g1 := G1); set (g2 := G2)
  end.
  set (st1 := modify st a1 f1). set (st2 := modify st1 a2 f2).
  set (st3 := modify st2 a1 g1). set (st4 := modify st3 a2 g2).
  assert (D1 : deref st1 a1 = Some (f1 p1)) by (apply deref_modify_eq, E1).
  assert (D2 : deref st1 a2 = Some p2)
    by (unfold st1; rewrite deref_modify_neq by exact Hne; exact E2).
  assert (D2' : deref st2 a2 = Some (f2 p2)) by (apply deref_modify_eq, D2).
  assert (D3 : deref st2 a1 = Some (f1 p1))
    by (unfold st2; rewrite deref_modify_neq by congruence; exact D1).
  assert (D3' : deref st3 a1 = Some (g1 (f1 p1))) by (apply deref_modify_eq, D3).
  assert (D4 : deref st3 a2 = Some (f2 p2))
    by (unfold st3; rewrite deref_modify_neq by exact Hne; exact D2').
  assert (D4' : deref st4 a2 = Some (g2 (f2 p2))) by (apply deref_modify_eq, D4).
  assert (D5 : deref st4 a1 = Some (g1 (f1 p1)))
    by (unfold st4; rewrite deref_modify_neq by congruence; exact D3').
  assert (Hvel :
    (V.x (velocity (g2 (f2 p2))) - V.x (velocity (g1 (f1 p1)))) * dx
    + (V.y (velocity (g2 (f2 p2))) - V.y (velocity (g1 (f1 p1)))) * dy
    + (V.z (velocity (g2 (f2 p2))) - V.z (velocity (g1 (f1 p1)))) * dz
    == - Collision.restitution * closing_rate p1 p2).
  { unfold f1, f2, g1, g2.
    cbn [velocity position set_velocity set_position V.x V.y V.z].
    unfold Collision.restitution, Collision.collisionRadius.
    rewrite HvAN. unfold closing_rate. fold dx dy dz.
    set (rx := V.x (velocity p2) - V.x (velocity p1)).
    set (ry := V.y (velocity p2) - V.y (velocity p1)).
    set (rz := V.z (velocity p2) - V.z (velocity p1)).
    match goal with
    | |- ?lhs == ?rhs =>
      setoid_replace lhs
        with ((rx * dx + ry * dy + rz * dz)
              * (1 - (9 / 5) * ((dx * dx + dy * dy + dz * dz) / (D * D))))
        by (unfold rx, ry, rz; field; exact HDnz)
    end.
    rewrite <- HD. field. exact HDnz. }
  assert (Hpos :
    (V.x (position (g2 (f2 p2))) - V.x (position (g1 (f1 p1))))
    * (V.x (position (g2 (f2 p2))) - V.x (position (g1 (f1 p1))))
    + (V.y (position (g2 (f2 p2))) - V.y (position (g1 (f1 p1))))
      * (V.y (position (g2 (f2 p2))) - V.y (position (g1 (f1 p1))))
    + (V.z (position (g2 (f2 p2))) - V.z (position (g1 (f1 p1))))
      * (V.z (position (g2 (f2 p2))) - V.z (position (g1 (f1 p1))))
    == 0.64).
  { unfold f1, f2, g1, g2.
    cbn [velocity position set_velocity set_position V.x V.y V.z].
    fold dx dy dz.
    unfold Collision.restitution, Collision.collisionRadius.
    match goal with
    | |- ?lhs == ?rhs =>
      setoid_replace lhs
        with ((16 / 25) * ((dx * dx + dy * dy + dz * dz) / (D * D)))
        by (unfold dx, dy, dz; field; exact HDnz)
    end.
    rewrite <- HD. field. exact HDnz. }
  exists (g1 (f1 p1)), (g2 (f2 p2)).
  rewrite D5, D4'.
  destruct (Qlt_bool Collision.minImpactVelocity (Math_abs vAN)); cbn [fst];
    repeat split; assumption.
Qed.

End CollisionMore.

(** The scenario's two particles and a bystander "c" at (3, 0, 0). *)
Definition crowded_system : ParticleSystem.t :=
  fst (ParticleSystem.createParticle 0.5 0.5 0.5 scenario_system "c"
         (V.mk 3 0 0) (V.mk 0 0 0)).

Lemma collisions_frame_witness :
  let st' := fst (Collision.checkParticleCollisions rational_sqrt [0; 1]%nat
                    (ParticleSystem.objects crowded_system)) in
  length st' = length (ParticleSystem.objects crowded_system) /\
  deref st' 2 = deref (ParticleSystem.objects crowded_system) 2.
Proof.
  apply (collisions_frame rational_sqrt [0; 1]%nat
           (ParticleSystem.objects crowded_system) 2).
  cbn. intuition discriminate.
Defined.

Lemma resolvePair_restitution_witness :
  let p1 := scenario_particle scenario_system 0 in
  let p2 := scenario_particle scenario_system 1 in
  let dx := V.x (position p2) - V.x (position p1) in
  let dy := V.y (position p2) - V.y (position p1) in
  let dz := V.z (position p2) - V.z (position p1) in
  exists q1 q2,
    let st' := fst (Collision.resolvePair rational_sqrt
                      (ParticleSystem.objects scenario_system, []) 0 1) in
    deref st' 0 = Some q1 /\ deref st' 1 = Some q2 /\
    (V.x (velocity q2) - V.x (velocity q1)) * dx
    + (V.y (velocity q2) - V.y (velocity q1)) * dy
    + (V.z (velocity q2) - V.z (velocity q1)) * dz
    == - Collision.restitution * closing_rate p1 p2 /\
    (V.x (position q2) - V.x (position q1)) * (V.x (position q2) - V.x (position q1))
    + (V.y (position q2) - V.y (position q1)) * (V.y (position q2) - V.y (position q1))
    + (V.z (position q2) - V.z (position q1)) * (V.z (position q2) - V.z (position q1))
    == 0.64.
Proof.
  apply (resolvePair_restitution rational_sqrt
           (ParticleSystem.objects scenario_system) [] 0 1
           (scenario_particle scenario_system 0)
           (scenario_particle scenario_system 1)).
  - discriminate.
  - reflexivity.
  - reflexivity.
  - vm_compute. reflexivity.
  - vm_compute. reflexivity.
  - vm_compute. reflexivity.
  - vm_compute. discriminate.
Defined.

(** ** Further properties of the particle system *)

(** A position inside the closed box of the simulation. *)
Definition in_bounds (v : V.t) : Prop :=
  (ParticleSystem.bounds_min <= V.x v /\ V.x v <= ParticleSystem.bounds_max) /\
  (ParticleSystem.bounds_min <= V.y v /\ V.y v <= ParticleSystem.bounds_max) /\
  (ParticleSystem.bounds_min <= V.z v /\ V.z v <= ParticleSystem.bounds_max).

Section SystemFacts.

Variable Math_sqrt : Q -> Q.

Lemma push_event_reportable e events :
  (forall ev, e = Some ev -> reportable ev) ->
  Forall reportable events ->
  Forall reportable (ParticleSystem.push_event e events).
Proof.
  intros He Hev. destruct e as [ev|]; cbn; [ | exact Hev ].
  apply Forall_app. split; [ exact Hev | ].
  constructor; [ now apply He | constructor ].
Qed.

Lemma boundary_event_reportable p ev :
  Collision.checkBoundaryCollision Math_sqrt p ParticleSystem.bounds_min
                                   ParticleSystem.bounds_max = Some ev ->
  reportable ev.
Proof.
  intros H. now apply (checkBoundaryCollision_some Math_sqrt p _ _ ev) in H.
Qed.

Ltac boundary_cases :=
  repeat match goal with
         | |- context [if Qlt_bool ?a ?b then _ else _] =>
           let E := fresh "E" in
           destruct (Qlt_bool a b) eqn:E;
           [ apply Qlt_bool_iff in E | apply Qlt_bool_false_iff in E ]
         end.

Lemma boundaryX_spec p events :
  let r := ParticleSystem.boundaryX Math_sqrt (p, events) in
  (ParticleSystem.bounds_min <= V.x (position (fst r))
   /\ V.x (position (fst r)) <= ParticleSystem.bounds_max) /\
  V.y (position (fst r)) = V.y (position p) /\
  V.z (position (fst r)) = V.z (position p) /\
  trail (fst r) = trail p /\
  (Forall reportable events -> Forall reportable (snd r)).
Proof.
  cbv zeta. unfold ParticleSystem.boundaryX.
  cbn [position velocity set_position set_velocity V.x V.y V.z].
  boundary_cases;
    cbn [fst snd position velocity set_position set_velocity V.x V.y V.z trail];
    unfold ParticleSystem.bounds_min, ParticleSystem.bounds_max in *;
    (repeat split; try reflexivity; try lra;
     try (intros Hev;
          first [ exact Hev
                | apply push_event_reportable; [ | exact Hev ];
                  intros ev Hsome; now apply boundary_event_reportable in Hsome ])).
Qed.

Lemma boundaryY_spec p events :
  let r := ParticleSystem.boundaryY Math_sqrt (p, events) in
  (ParticleSystem.bounds_min <= V.y (position (fst r))
   /\ V.y (position (fst r)) <= ParticleSystem.bounds_max) /\
  V.x (position (fst r)) = V.x (position p) /\
  V.z (position (fst r)) = V.z (position p) /\
  trail (fst r) = trail p /\
  (Forall reportable events -> Forall reportable (snd r)).
Proof.
  cbv zeta. unfold ParticleSystem.boundaryY.
  cbn [position velocity set_position set_velocity V.x V.y V.z].
  boundary_cases;
    cbn [fst snd position velocity set_position set_velocity V.x V.y V.z trail];
    unfold ParticleSystem.bounds_min, ParticleSystem.bounds_max in *;
    (repeat split; try reflexivity; try lra;
     try (intros Hev;
          first [ exact Hev
                | apply push_event_reportable; [ | exact Hev ];
                  intros ev Hsome; now apply boundary_event_reportable in Hsome ])).
Qed.

Lemma boundaryZ_spec p :
  let r := ParticleSystem.boundaryZ p in
  (ParticleSystem.bounds_min <= V.z (position r)
   /\ V.z (position r) <= ParticleSystem.bounds_max) /\
  V.x (position r) = V.x (position p) /\
  V.y (position r) = V.y (position p) /\
  trail r = trail p.
Proof.
  cbv zeta. unfold ParticleSystem.boundaryZ.
  cbn [position velocity set_position set_velocity V.x V.y V.z].
  boundary_cases;
    cbn [position velocity set_position set_velocity V.x V.y V.z trail];
    unfold ParticleSystem.bounds_min, ParticleSystem.bounds_max in *;
    repeat split; try reflexivity; lra.
Qed.

Lemma tickParticle_spec le r0 r1 r2 r3 p events :
  let r := ParticleSystem.tickParticle Math_sqrt le r0 r1 r2 r3 (p, events) in
  in_bounds (position (fst r)) /\
  trail (fst r) = trail (ParticleSystem.estimateParticle le r0 r1 r2 r3 p) /\
  (Forall reportable events -> Forall reportable (snd r)).
Proof.
  cbv zeta. unfold ParticleSystem.tickParticle.
  pose proof (boundaryX_spec (ParticleSystem.estimateParticle le r0 r1 r2 r3 p)
                             events) as HX.
  cbv zeta in HX.
  destruct (ParticleSystem.boundaryX Math_sqrt _) as [p1 ev1]. cbn [fst snd] in HX.
  pose proof (boundaryY_spec p1 ev1) as HY. cbv zeta in HY.
  destruct (ParticleSystem.boundaryY Math_sqrt _) as [p2 ev2]. cbn [fst snd] in *.
  pose proof (boundaryZ_spec p2) as HZ. cbv zeta in HZ.
  destruct HX as [HXb [_ [_ [HXt HXe]]]].
  destruct HY as [HYb [HYx [_ [HYt HYe]]]].
  destruct HZ as [HZb [HZx [HZy HZt]]].
  split; [ | split ].
  - unfold in_bounds. rewrite HZx, HZy, HYx. tauto.
  - congruence.
  - intros Hev. apply HYe, HXe, Hev.
Qed.

(** The fold of [update] over the particles of the [Map]. *)
Lemma update_fold_invariant le random
      (Inv : list nat -> Store * list CollisionEvent * nat -> Prop) :
  (forall done st ev k a p,
      Inv done (st, ev, k) -> deref st a = Some p ->
      let r := ParticleSystem.tickParticle Math_sqrt le
                 (random (4 * k)%nat) (random (4 * k + 1)%nat)
                 (random (4 * k + 2)%nat) (random (4 * k + 3)%nat) (p, ev) in
      Inv (done ++ [a]) (set_nth a (fst r) st, snd r, S k)) ->
  (forall done st ev k a,
      Inv done (st, ev, k) -> deref st a = None ->
      Inv (done ++ [a]) (st, ev, S k)) ->
  forall l done acc,
    Inv done acc ->
    Inv (done ++ l)
        (fold_left
           (fun '(st, events, k) a =>
              match deref st a with
              | Some particle =>
                let '(p', events') :=
                  ParticleSystem.tickParticle Math_sqrt le
                    (random (4 * k)%nat) (random (4 * k + 1)%nat)
                    (random (4 * k + 2)%nat) (random (4 * k + 3)%nat)
                    (particle, events) in
                (set_nth a p' st, events', S k)
              | None => (st, events, S k)
              end)
           l acc).
Proof.
  intros Hsome Hnone l. induction l as [|a l IH]; intros done acc Hacc.
  - now rewrite app_nil_r.
  - cbn [fold_left]. replace (done ++ a :: l) with ((done ++ [a]) ++ l)
      by (now rewrite <- app_assoc).
    apply IH. destruct acc as [[st ev] k].
    destruct (deref st a) as [p|] eqn:E.
    + specialize (Hsome done st ev k a p Hacc E). cbv zeta in Hsome.
      destruct (ParticleSystem.tickParticle _ _ _ _ _ _ _) as [p' ev'].
      exact Hsome.
    + now apply Hnone.
Qed.

(** Every event in the list returned by a tick, from the collision pass
    or from a boundary, has an impact above the reporting threshold. *)
Theorem update_events_reportable
        (learningEnabled : bool) (random : nat -> Q) (sys : ParticleSystem.t) :
  Forall (fun e => Collision.minImpactVelocity < impact e)
         (snd (ParticleSystem.update Math_sqrt learningEnabled random sys)).
Proof.
  unfold ParticleSystem.update.
  pose proof (collisions_reportable Math_sqrt
                (map snd (ParticleSystem.particles sys))
                (ParticleSystem.objects sys)) as Hpc.
  destruct (Collision.checkParticleCollisions Math_sqrt _ _) as [st1 pc].
  cbn [snd] in Hpc.
  pose proof (update_fold_invariant learningEnabled random
                (fun _ acc => Forall reportable (snd (fst acc)))) as Hfold.
  cbn [fst snd] in Hfold.
  specialize (Hfold
    (fun done st ev k a p Hev _ =>
       proj2 (proj2 (tickParticle_spec learningEnabled _ _ _ _ p ev)) Hev)
    (fun done st ev k a Hev _ => Hev)
    (map snd (ParticleSystem.particles sys)) [] (st1, pc, O) Hpc).
  destruct (fold_left _ _ _) as [[st2 ev2] k2]. exact Hfold.
Qed.

(** After a tick every particle of the system lies inside the box. *)
Theorem update_keeps_particles_in_bounds
        (learningEnabled : bool) (random : nat -> Q) (sys : ParticleSystem.t)
        (a : nat) (p : Particle) :
  In a (ParticleSystem.getParticles sys) ->
  deref (ParticleSystem.objects
           (fst (ParticleSystem.update Math_sqrt learningEnabled random sys))) a
  = Some p ->
  in_bounds (position p).
Proof.
  unfold ParticleSystem.update, ParticleSystem.getParticles.
  destruct (Collision.checkParticleCollisions Math_sqrt _ _) as [st1 pc].
  pose proof (update_fold_invariant learningEnabled random
                (fun done acc =>
                   forall b q, In b done -> deref (fst (fst acc)) b = Some q ->
                               in_bounds (position q))) as Hfold.
  cbn [fst snd] in Hfold.
  assert (Hsome : forall done st ev k b q,
             (forall c r, In c done -> deref st c = Some r -> in_bounds (position r)) ->
             deref st b = Some q ->
             forall c r, In c (done ++ [b]) ->
                         deref (set_nth b
                                  (fst (ParticleSystem.tickParticle Math_sqrt
                                          learningEnabled (random (4 * k)%nat)
                                          (random (4 * k + 1)%nat)
                                          (random (4 * k + 2)%nat)
                                          (random (4 * k + 3)%nat) (q, ev)))
                                  st) c = Some r ->
                         in_bounds (position r)).
  { intros done st ev k b q Hinv Hb c r Hc Hr.
    destruct (PeanoNat.Nat.eq_dec b c) as [<- | Hne].
    - unfold deref in Hr. rewrite nth_error_set_nth_eq in Hr
        by (apply nth_error_Some; unfold deref in Hb; congruence).
      injection Hr as <-. apply tickParticle_spec.
    - unfold deref in Hr. rewrite nth_error_set_nth_neq in Hr by exact Hne.
      apply in_app_or in Hc. destruct Hc as [Hc | [Hc | []]]; [ | congruence ].
      now apply (Hinv c r). }
  assert (Hnone : forall done st (ev : list CollisionEvent) (k : nat) b,
             (forall c r, In c done -> deref st c = Some r -> in_bounds (position r)) ->
             deref st b = None ->
             forall c r, In c (done ++ [b]) -> deref st c = Some r ->
                         in_bounds (position r)).
  { intros done st ev k b Hinv Hb c r Hc Hr.
    apply in_app_or in Hc. destruct Hc as [Hc | [Hc | []]].
    - now apply (Hinv c r).
    - subst. congruence. }
  specialize (Hfold Hsome Hnone (map snd (ParticleSystem.particles sys)) []
                    (st1, pc, O) (fun b q Hb => match Hb with end)).
  cbn [app] in Hfold.
  destruct (fold_left _ _ _) as [[st2 ev2] k2]. cbn [fst snd ParticleSystem.objects].
  intros Hin Hd. now apply (Hfold a p).
Qed.

End SystemFacts.

Lemma update_keeps_particles_in_bounds_witness :
  in_bounds
    (position
       (scenario_particle
          (fst (ParticleSystem.update rational_sqrt false (fun _ => 0.5)
                  scenario_system)) 0)).
Proof.
  apply (update_keeps_particles_in_bounds rational_sqrt false (fun _ => 0.5)
           scenario_system 0).
  - cbn. now left.
  - reflexivity.
Defined.

(** ** Spawning, looking up and removing particles *)

Definition keys_unique (sys : ParticleSystem.t) : Prop :=
  NoDup (map fst (ParticleSystem.particles sys)).

Lemma map_get_set_eq key a m :
  ParticleSystem.map_get key (ParticleSystem.map_set key a m) = Some a.
Proof.
  induction m as [|[k b] rest IH]; cbn.
  - now rewrite String.eqb_refl.
  - destruct (String.eqb k key) eqn:E; cbn; rewrite E; [ reflexivity | exact IH ].
Qed.

Lemma map_get_set_neq key key' a m :
  key' <> key ->
  ParticleSystem.map_get key' (ParticleSystem.map_set key a m)
  = ParticleSystem.map_get key' m.
Proof.
  intros Hne. induction m as [|[k b] rest IH]; cbn.
  - destruct (String.eqb key key') eqn:E; [ | reflexivity ].
    apply String.eqb_eq in E. congruence.
  - destruct (String.eqb k key) eqn:E; cbn.
    + apply String.eqb_eq in E. subst k.
      destruct (String.eqb key key') eqn:E'; [ | reflexivity ].
      apply String.eqb_eq in E'. congruence.
    + destruct (String.eqb k key'); [ reflexivity | exact IH ].
Qed.

Lemma map_set_keys key a m :
  NoDup (map fst m) -> NoDup (map fst (ParticleSystem.map_set key a m)).
Proof.
  induction m as [|[k b] rest IH]; cbn; intros Hnd.
  - repeat constructor. intros [].
  - inversion Hnd as [|? ? Hnotin Hnd']; subst.
    destruct (String.eqb k key) eqn:E; cbn.
    + now constructor.
    + constructor; [ | now apply IH ].
      intros Hin. apply Hnotin. clear -Hin E.
      induction rest as [|[k' b'] rest IH]; cbn in *.
      * destruct Hin as [Hin | []]. subst. now rewrite String.eqb_refl in E.
      * destruct (String.eqb k' key); cbn in Hin; destruct Hin as [Hin | Hin];
          auto.
Qed.

Lemma map_get_none_iff key m :
  ParticleSystem.map_get key m = None <-> ~ In key (map fst m).
Proof.
  induction m as [|[k b] rest IH]; cbn.
  - tauto.
  - destruct (String.eqb k key) eqn:E.
    + apply String.eqb_eq in E. subst. split; [ discriminate | ].
      intros H. exfalso. apply H. now left.
    + apply String.eqb_neq in E. rewrite IH. tauto.
Qed.

Lemma map_delete_keys key m :
  NoDup (map fst m) ->
  NoDup (map fst (ParticleSystem.map_delete key m)) /\
  ~ In key (map fst (ParticleSystem.map_delete key m)) /\
  (forall k, In k (map fst (ParticleSystem.map_delete key m)) -> In k (map fst m)).
Proof.
  induction m as [|[k b] rest IH]; cbn; intros Hnd.
  - repeat split; auto; constructor.
  - inversion Hnd as [|? ? Hnotin Hnd']; subst.
    destruct (String.eqb k key) eqn:E.
    + apply String.eqb_eq in E. subst. repeat split; auto.
    + apply String.eqb_neq in E. destruct (IH Hnd') as [H1 [H2 H3]]. cbn.
      repeat split.
      * constructor; [ | exact H1 ]. intros Hin. apply Hnotin. now apply H3.
      * intros [Hk | Hin]; [ congruence | now apply H2 ].
      * intros k0 [Hk | Hin]; [ now left | right; now apply H3 ].
Qed.

Lemma map_get_delete_neq key key' m :
  key' <> key ->
  ParticleSystem.map_get key' (ParticleSystem.map_delete key m)
  = ParticleSystem.map_get key' m.
Proof.
  intros Hne. induction m as [|[k b] rest IH]; cbn; [ reflexivity | ].
  destruct (String.eqb k key) eqn:E; cbn.
  - apply String.eqb_eq in E. subst k.
    destruct (String.eqb key key') eqn:E'; [ | reflexivity ].
    apply String.eqb_eq in E'. congruence.
  - destruct (String.eqb k key'); [ reflexivity | exact IH ].
Qed.

Lemma clamp_range lo hi x :
  lo <= hi -> lo <= Math_max lo (Math_min hi x) /\ Math_max lo (Math_min hi x) <= hi.
Proof.
  intros H. split; [ apply Math_max_lower | now apply Math_max_min_upper ].
Qed.

(** [createParticle] allocates a new particle and registers it under
    its id: it is found by [getParticle], other ids and the older
    objects are untouched, the ids stay unique, the particle starts at
    the given position and velocity with an empty trail and the
    variance 48/7 of the constructor's covariance, and its initial
    beliefs are clamped: g in [0,20], m in [0.1,10], mu in [0,2]; for
    outcomes of [Math.random()] in [0,1) they lie in [4.8,14.8],
    [0.1,2] and [0,0.35]. *)
Theorem createParticle_spec (r0 r1 r2 : Q) (sys : ParticleSystem.t)
        (id0 : string) (position0 initialVelocity : V.t) :
  let sys' := fst (ParticleSystem.createParticle r0 r1 r2 sys id0 position0
                     initialVelocity) in
  let a := snd (ParticleSystem.createParticle r0 r1 r2 sys id0 position0
                  initialVelocity) in
  ParticleSystem.getParticle sys' id0 = Some a /\
  (forall other, other <> id0 ->
                 ParticleSystem.getParticle sys' other
                 = ParticleSystem.getParticle sys other) /\
  (forall b, (b < length (ParticleSystem.objects sys))%nat ->
             deref (ParticleSystem.objects sys') b
             = deref (ParticleSystem.objects sys) b) /\
  (keys_unique sys -> keys_unique sys') /\
  exists p,
    deref (ParticleSystem.objects sys') a = Some p /\
    id p = id0 /\ position p = position0 /\ velocity p = initialVelocity /\
    trail p = [] /\ age p = 0 /\ variance p == 48 / 7 /\
    let s := Kalman.state (filter p) in
    (0 <= Kalman.g s <= 20 /\ 0.1 <= Kalman.m s <= 10 /\ 0 <= Kalman.mu s <= 2) /\
    (0 <= r0 < 1 -> 4.8 <= Kalman.g s <= 14.8) /\
    (0 <= r1 < 1 -> 0.1 <= Kalman.m s <= 2) /\
    (0 <= r2 < 1 -> 0 <= Kalman.mu s <= 0.35).
Proof.
  cbv zeta. unfold ParticleSystem.createParticle.
  cbn [fst snd ParticleSystem.getParticle ParticleSystem.particles
       ParticleSystem.objects].
  split; [ apply map_get_set_eq | ].
  split; [ intros other Hne; now apply map_get_set_neq | ].
  split; [ intros b Hb; unfold deref; now apply nth_error_app1 | ].
  split; [ unfold keys_unique; cbn [ParticleSystem.particles]; apply map_set_keys | ].
  eexists. split.
  { unfold deref. rewrite nth_error_app2 by lia.
    rewrite PeanoNat.Nat.sub_diag. reflexivity. }
  cbn [id position velocity trail age variance filter Kalman.state
       Kalman.new_filter Kalman.g Kalman.m Kalman.mu].
  do 5 (split; [ reflexivity | ]).
  split; [ vm_compute; reflexivity | ].
  split.
  { repeat split; try apply Math_max_lower; apply Math_max_min_upper; lra. }
  split; [ | split ].
  - intros [H0 H1].
    match goal with |- context [Math_max ?lo (Math_min ?hi ?x)] =>
      pose proof (clamp_inside lo hi x ltac:(lra) ltac:(lra)) as Hc end. lra.
  - intros [H0 H1]. split; [ apply Math_max_lower | ].
    unfold Math_max, Math_min.
    destruct (Qle_bool 10 _) eqn:E1.
    + apply Qle_bool_iff in E1. lra.
    + destruct (Qle_bool 0.1 _) eqn:E2; lra.
  - intros [H0 H1]. split; [ apply Math_max_lower | ].
    unfold Math_max, Math_min.
    destruct (Qle_bool 2 _) eqn:E1.
    + apply Qle_bool_iff in E1. lra.
    + destruct (Qle_bool 0 _) eqn:E2; lra.
Qed.

(** [removeParticle] on a system with unique ids: the id is no longer
    found, the other ids are found as before and the ids stay unique. *)
Theorem removeParticle_spec (sys : ParticleSystem.t) (id0 : string) :
  keys_unique sys ->
  ParticleSystem.getParticle (ParticleSystem.removeParticle sys id0) id0 = None /\
  (forall other, other <> id0 ->
      ParticleSystem.getParticle (ParticleSystem.removeParticle sys id0) other
      = ParticleSystem.getParticle sys other) /\
  keys_unique (ParticleSystem.removeParticle sys id0).
Proof.
  intros Hu. unfold keys_unique, ParticleSystem.getParticle,
                    ParticleSystem.removeParticle in *.
  cbn [ParticleSystem.particles].
  destruct (map_delete_keys id0 (ParticleSystem.particles sys) Hu) as [H1 [H2 _]].
  split; [ now apply map_get_none_iff | ].
  split; [ intros other Hne; now apply map_get_delete_neq | exact H1 ].
Qed.

Lemma scenario_keys_unique : keys_unique scenario_system.
Proof.
  unfold keys_unique. cbn. repeat constructor; cbn; intuition discriminate.
Qed.

Lemma removeParticle_spec_witness :
  ParticleSystem.getParticle (ParticleSystem.removeParticle scenario_system "a")
                             "a" = None /\
  (forall other, other <> "a"%string ->
      ParticleSystem.getParticle (ParticleSystem.removeParticle scenario_system "a")
                                 other
      = ParticleSystem.getParticle scenario_system other) /\
  keys_unique (ParticleSystem.removeParticle scenario_system "a").
Proof. apply (removeParticle_spec scenario_system "a"), scenario_keys_unique. Defined.

(** The trail is a buffer of at most 50 points: a tick appends the
    position it read from the estimator (before the boundary
    conditions) and the new variance, evicts the oldest point when the
    buffer is full, and advances the age by dt. *)
Theorem tick_trail_and_age (Math_sqrt : Q -> Q) (learningEnabled : bool)
        (r0 r1 r2 r3 : Q) (p : Particle) (events : list CollisionEvent) :
  (length (trail p) <= 50)%nat ->
  let p' := fst (ParticleSystem.tickParticle Math_sqrt learningEnabled
                   r0 r1 r2 r3 (p, events)) in
  let point :=
    {| trail_x := Kalman.px (Kalman.state (filter p'));
       trail_y := Kalman.py (Kalman.state (filter p'));
       trail_z := V.z (position p);
       trail_variance := variance p' |} in
  (length (trail p') <= 50)%nat /\
  ((length (trail p) < 50)%nat -> trail p' = trail p ++ [point]) /\
  (length (trail p) = 50%nat -> trail p' = tl (trail p) ++ [point]) /\
  age p' = age p + ParticleSystem.dt.
Proof.
  intros Hlen. cbv zeta.
  pose proof (tickParticle_spec Math_sqrt learningEnabled r0 r1 r2 r3 p events)
    as [_ [Htrail _]].
  unfold ParticleSystem.tickParticle in *.
  set (e := ParticleSystem.estimateParticle learningEnabled r0 r1 r2 r3 p) in *.
  assert (Hkeep : forall q ev,
             filter (fst (ParticleSystem.boundaryX Math_sqrt (q, ev))) = filter q /\
             variance (fst (ParticleSystem.boundaryX Math_sqrt (q, ev))) = variance q /\
             age (fst (ParticleSystem.boundaryX Math_sqrt (q, ev))) = age q /\
             filter (fst (ParticleSystem.boundaryY Math_sqrt (q, ev))) = filter q /\
             variance (fst (ParticleSystem.boundaryY Math_sqrt (q, ev))) = variance q /\
             age (fst (ParticleSystem.boundaryY Math_sqrt (q, ev))) = age q /\
             filter (ParticleSystem.boundaryZ q) = filter q /\
             variance (ParticleSystem.boundaryZ q) = variance q /\
             age (ParticleSystem.boundaryZ q) = age q).
  { intros q ev. unfold ParticleSystem.boundaryX, ParticleSystem.boundaryY,
                        ParticleSystem.boundaryZ.
    repeat match goal with
           | |- context [if ?c then _ else _] => destruct c
           end; repeat split. }
  destruct (ParticleSystem.boundaryX Math_sqrt (e, events)) as [p1 ev1] eqn:EX.
  destruct (ParticleSystem.boundaryY Math_sqrt (p1, ev1)) as [p2 ev2] eqn:EY.
  cbn [fst snd] in *.
  pose proof (Hkeep e events) as [Hf1 [Hv1 [Ha1 _]]]. rewrite EX in Hf1, Hv1, Ha1.
  pose proof (Hkeep p1 ev1) as [_ [_ [_ [Hf2 [Hv2 [Ha2 _]]]]]].
  rewrite EY in Hf2, Hv2, Ha2.
  pose proof (Hkeep p2 ev2) as [_ [_ [_ [_ [_ [_ [Hf3 [Hv3 Ha3]]]]]]]].
  cbn [fst] in *.
  rewrite Htrail, Hf3, Hf2, Hf1, Hv3, Hv2, Hv1, Ha3, Ha2, Ha1.
  unfold e, ParticleSystem.estimateParticle.
  cbn [trail filter variance age V.x V.y V.z Kalman.getState].
  rewrite length_app. cbn [length].
  destruct (Nat.ltb 50 (length (trail p) + 1)) eqn:E.
  - apply PeanoNat.Nat.ltb_lt in E.
    assert (Hl : length (trail p) = 50%nat) by lia.
    destruct (trail p) as [|t0 rest] eqn:Et; [ discriminate | ].
    cbn [tl app length] in *. rewrite length_app. cbn [length].
    repeat split; try reflexivity; lia.
  - apply PeanoNat.Nat.ltb_ge in E. rewrite length_app. cbn [length].
    repeat split; try reflexivity; lia.
Qed.

Lemma tick_trail_and_age_witness :
  let p := scenario_particle scenario_system 0 in
  let p' := fst (ParticleSystem.tickParticle rational_sqrt false
                   0.5 0.5 0.5 0.5 (p, [])) in
  let point :=
    {| trail_x := Kalman.px (Kalman.state (filter p'));
       trail_y := Kalman.py (Kalman.state (filter p'));
       trail_z := V.z (position p);
       trail_variance := variance p' |} in
  (length (trail p') <= 50)%nat /\
  ((length (trail p) < 50)%nat -> trail p' = trail p ++ [point]) /\
  (length (trail p) = 50%nat -> trail p' = tl (trail p) ++ [point]) /\
  age p' = age p + ParticleSystem.dt.
Proof.
  apply (tick_trail_and_age rational_sqrt false 0.5 0.5 0.5 0.5
           (scenario_particle scenario_system 0) []).
  cbn. lia.
Defined.

(** ** Further properties of the aggregator *)

Lemma fold_plus_shift (l : list Q) (a : Q) :
  fold_left Qplus l a == a + fold_left Qplus l 0.
Proof.
  revert a. induction l as [|x l IH]; intros a; cbn [fold_left].
  - ring.
  - rewrite (IH (a + x)), (IH (0 + x)). ring.
Qed.

Lemma sum_list_nonneg (l : list Q) :
  Forall (fun x => 0 <= x) l -> 0 <= sum_list l.
Proof.
  unfold sum_list. induction l as [|x l IH]; intros H; cbn [fold_left].
  - lra.
  - inversion H as [|? ? Hx Hl]; subst. rewrite fold_plus_shift.
    specialize (IH Hl). lra.
Qed.

Lemma of_nat_pos n : (0 < n)%nat -> 0 < of_nat n.
Proof.
  intros H. unfold of_nat. change 0 with (inject_Z 0).
  rewrite <- Zlt_Qlt. lia.
Qed.

Lemma square_nonneg (x : Q) : 0 <= x ^ 2.
Proof. assert (E : x ^ 2 == x * x) by ring. rewrite E. nra. Qed.

Section AggregatorMore.

Variable Math_log : Q -> Q.
Variables Math_PI Math_E : Q.

Local Abbreviation updateGlobalPosterior :=
  (Aggregator.updateGlobalPosterior Math_log Math_PI Math_E).

Lemma calculateVariance_nonneg (samples0 : list Q) :
  0 <= Aggregator.calculateVariance samples0.
Proof.
  unfold Aggregator.calculateVariance.
  destruct (Nat.eqb (length samples0) 0) eqn:E; [ lra | ].
  apply PeanoNat.Nat.eqb_neq in E.
  apply Qle_shift_div_l; [ apply of_nat_pos; lia | ].
  rewrite Qmult_0_l. apply sum_list_nonneg.
  apply Forall_forall. intros y Hy. apply in_map_iff in Hy.
  destruct Hy as [x [<- _]]. apply square_nonneg.
Qed.

Lemma consensus_term_range (v : Q) : 0 <= v -> 0 < 1 / (1 + v) /\ 1 / (1 + v) <= 1.
Proof.
  intros Hv. split.
  - apply Qlt_shift_div_l; lra.
  - apply Qle_shift_div_r; lra.
Qed.

(** After [updateGlobalPosterior] the consensus strength lies in (0,1]
    and the accumulated information gain has not decreased. *)
Theorem updateGlobalPosterior_invariants
        (u : Aggregator.t) (particleId : string) (b : Aggregator.Belief) :
  let u' := updateGlobalPosterior u particleId b in
  (0 < Aggregator.consensusStrength (Aggregator.globalPosterior u') /\
   Aggregator.consensusStrength (Aggregator.globalPosterior u') <= 1) /\
  Aggregator.informationGain (Aggregator.globalPosterior u)
  <= Aggregator.informationGain (Aggregator.globalPosterior u').
Proof.
  cbv zeta. unfold Aggregator.updateGlobalPosterior.
  rewrite collected_samples_nonempty.
  cbn [Aggregator.globalPosterior Aggregator.consensusStrength
       Aggregator.informationGain Aggregator.history].
  split.
  - match goal with
    | |- context [(1 / (1 + Aggregator.calculateVariance ?a)
                   + 1 / (1 + Aggregator.calculateVariance ?b0)
                   + 1 / (1 + Aggregator.calculateVariance ?c)) / 3] =>
      pose proof (consensus_term_range _ (calculateVariance_nonneg a)) as [A1 A2];
      pose proof (consensus_term_range _ (calculateVariance_nonneg b0)) as [B1 B2];
      pose proof (consensus_term_range _ (calculateVariance_nonneg c)) as [C1 C2];
      set (ca := 1 / (1 + Aggregator.calculateVariance a)) in *;
      set (cb := 1 / (1 + Aggregator.calculateVariance b0)) in *;
      set (cc := 1 / (1 + Aggregator.calculateVariance c)) in *
    end.
    split.
    + apply Qlt_shift_div_l; lra.
    + apply Qle_shift_div_r; lra.
  - match goal with
    | |- _ <= _ + (Math_max 0 ?a + Math_max 0 ?b0 + Math_max 0 ?c) / 3 =>
      pose proof (Math_max_lower 0 a); pose proof (Math_max_lower 0 b0);
      pose proof (Math_max_lower 0 c);
      set (ga := Math_max 0 a) in *; set (gb := Math_max 0 b0) in *;
      set (gc := Math_max 0 c) in *
    end.
    assert (0 <= (ga + gb + gc) / 3) by (apply Qle_shift_div_l; lra).
    lra.
Qed.

(** The history is a window: every call appends the new posterior as
    the last snapshot, and a history of at most 1000 snapshots stays of
    at most 1000 snapshots. *)
Theorem history_is_bounded
        (u : Aggregator.t) (particleId : string) (b : Aggregator.Belief) :
  (length (Aggregator.history u) <= Aggregator.maxHistory)%nat ->
  let u' := updateGlobalPosterior u particleId b in
  (length (Aggregator.history u') <= Aggregator.maxHistory)%nat /\
  last (Aggregator.history u') (Aggregator.globalPosterior u)
  = Aggregator.globalPosterior u'.
Proof.
  intros Hlen. cbv zeta. unfold Aggregator.updateGlobalPosterior.
  rewrite collected_samples_nonempty.
  cbn [Aggregator.globalPosterior Aggregator.history].
  unfold Aggregator.maxHistory in *.
  rewrite length_app. cbn [length].
  destruct (Nat.ltb 1000 (length (Aggregator.history u) + 1)) eqn:E.
  - apply PeanoNat.Nat.ltb_lt in E.
    destruct (Aggregator.history u) as [|h0 rest] eqn:Eh; cbn in *; [ lia | ].
    split; [ rewrite length_app; cbn; lia | ].
    destruct rest as [|h1 rest']; [ cbn in *; lia | ].
    change (tl (h0 :: (h1 :: rest') ++ [?x])) with ((h1 :: rest') ++ [x]).
    apply last_last.
  - apply PeanoNat.Nat.ltb_ge in E. split; [ rewrite length_app; cbn; lia | ].
    apply last_last.
Qed.

Lemma beliefs_set_lookup key b l :
  In (key, b) (Aggregator.beliefs_set key b l) /\
  (length l <= length (Aggregator.beliefs_set key b l) <= S (length l))%nat /\
  (forall k b0, k <> key -> In (k, b0) l ->
                In (k, b0) (Aggregator.beliefs_set key b l)).
Proof.
  induction l as [|[k0 b0] rest IH]; cbn.
  - repeat split; auto; lia.
  - destruct (String.eqb k0 key) eqn:E; cbn.
    + apply String.eqb_eq in E. subst. repeat split; auto; try lia.
      intros k b1 Hne [H | H]; [ congruence | now right ].
    + destruct IH as [H1 [H2 H3]]. repeat split; auto; try lia.
      intros k b1 Hne [H | H]; [ now left | right; now apply H3 ].
Qed.

Lemma pair_calculateVariance (val : Q) :
  Aggregator.calculateVariance [val; val] == 0.
Proof.
  unfold Aggregator.calculateVariance, sum_list, of_nat. cbn. field.
Qed.

Lemma Qabs_zero_diff (a : Q) : Math_abs (a - a) == 0.
Proof.
  unfold Math_abs. assert (E : a - a == 0) by ring. rewrite E. reflexivity.
Qed.

(** A single registered particle that submits again: the posterior is
    recomputed from its new belief alone; the means are the belief, the
    posterior variance is the belief's variance plus 0.01 and the
    consensus strength is 1. *)
Theorem single_particle_posterior
        (u : Aggregator.t) (particleId : string) (b0 b : Aggregator.Belief) :
  Aggregator.particleBeliefs u = [(particleId, b0)] ->
  0 <= Aggregator.belief_variance b ->
  let post := Aggregator.globalPosterior (updateGlobalPosterior u particleId b) in
  Aggregator.samples (Aggregator.gravity post) = [Aggregator.belief_g b] /\
  Aggregator.mean (Aggregator.gravity post) == Aggregator.belief_g b /\
  Aggregator.mean (Aggregator.mass post) == Aggregator.belief_m b /\
  Aggregator.mean (Aggregator.friction post) == Aggregator.belief_mu b /\
  Aggregator.variance (Aggregator.gravity post)
  == Aggregator.belief_variance b + 0.01 /\
  Aggregator.consensusStrength post == 1.
Proof.
  intros He Hv. cbv zeta. unfold Aggregator.updateGlobalPosterior.
  rewrite He. cbn [Aggregator.beliefs_set]. rewrite String.eqb_refl.
  cbn [map snd length Nat.eqb Aggregator.globalPosterior
       Aggregator.gravity Aggregator.mass Aggregator.friction
       Aggregator.posteriorOf Aggregator.samples Aggregator.mean
       Aggregator.variance Aggregator.consensusStrength].
  repeat split; try (now apply single_weightedMean).
  - rewrite single_calculateVariance.
    unfold Aggregator.harmonicVariance, of_nat. cbn. field. lra.
  - rewrite !single_calculateVariance. field.
Qed.

(** Two particles that hold identical beliefs agree completely: the
    consensus strength is 1 and the mutual information is 1. *)
Theorem identical_beliefs_full_consensus
        (u : Aggregator.t) (id1 id2 : string) (b : Aggregator.Belief) :
  Aggregator.particleBeliefs u = [(id1, b)] -> id1 <> id2 ->
  let u' := updateGlobalPosterior u id2 b in
  Aggregator.consensusStrength (Aggregator.globalPosterior u') == 1 /\
  Aggregator.calculateMutualInformation u' == 1.
Proof.
  intros He Hne. cbv zeta. unfold Aggregator.updateGlobalPosterior.
  rewrite He. cbn [Aggregator.beliefs_set].
  apply String.eqb_neq in Hne. rewrite Hne.
  cbn [map snd length Nat.eqb Aggregator.globalPosterior
       Aggregator.consensusStrength].
  split.
  - rewrite !pair_calculateVariance. field.
  - match goal with
    | |- Aggregator.calculateMutualInformation ?x == _ => set (u' := x)
    end.
    unfold Aggregator.calculateMutualInformation.
    assert (Hb : Aggregator.particleBeliefs u' = [(id1, b); (id2, b)]).
    { unfold u'. destruct (Nat.ltb _ _); reflexivity. }
    rewrite Hb.
    cbn [length map snd Nat.ltb Nat.leb seq fold_left Nat.sub nth_error app].
    unfold sum_list, of_nat. cbn [fold_left length Z.of_nat Pos.of_succ_nat].
    rewrite Qabs_zero_diff. 
    assert (Hpos : 0 <= Math_abs (Aggregator.belief_g b))
      by (unfold Math_abs; apply Qabs_nonneg).
    field. lra.
Qed.


Definition registered (key : string) (l : list (string * Aggregator.Belief)) : bool :=
  existsb (String.eqb key) (map fst l).

Lemma beliefs_set_keys key b l :
  map fst (Aggregator.beliefs_set key b l)
  = if registered key l then map fst l else map fst l ++ [key].
Proof.
  unfold registered. induction l as [|[k0 b0] rest IH]; cbn; [ reflexivity | ].
  rewrite (String.eqb_sym key k0).
  destruct (String.eqb k0 key) eqn:E; cbn; [ reflexivity | ].
  rewrite IH. now destruct (existsb _ _).
Qed.

Lemma registered_false_notin key l :
  registered key l = false -> ~ In key (map fst l).
Proof.
  unfold registered. intros H Hin.
  assert (existsb (String.eqb key) (map fst l) = true).
  { apply existsb_exists. exists key. split; [ exact Hin | apply String.eqb_refl ]. }
  congruence.
Qed.

(** One belief per particle: a submission replaces the particle's
    earlier belief or adds a new entry, the other particles' beliefs
    are kept, and each posterior holds one sample per registered
    particle. *)
Theorem one_belief_per_particle
        (u : Aggregator.t) (particleId : string) (b : Aggregator.Belief) :
  NoDup (map fst (Aggregator.particleBeliefs u)) ->
  let u' := updateGlobalPosterior u particleId b in
  NoDup (map fst (Aggregator.particleBeliefs u')) /\
  In (particleId, b) (Aggregator.particleBeliefs u') /\
  (forall k b0, k <> particleId -> In (k, b0) (Aggregator.particleBeliefs u) ->
                In (k, b0) (Aggregator.particleBeliefs u')) /\
  length (Aggregator.particleBeliefs u')
  = (if registered particleId (Aggregator.particleBeliefs u)
     then length (Aggregator.particleBeliefs u)
     else S (length (Aggregator.particleBeliefs u))) /\
  length (Aggregator.samples (Aggregator.gravity (Aggregator.globalPosterior u')))
  = length (Aggregator.particleBeliefs u').
Proof.
  intros Hnd. cbv zeta.
  assert (Hb : Aggregator.particleBeliefs (updateGlobalPosterior u particleId b)
               = Aggregator.beliefs_set particleId b (Aggregator.particleBeliefs u)).
  { unfold Aggregator.updateGlobalPosterior. now destruct (Nat.eqb _ _). }
  rewrite Hb.
  destruct (beliefs_set_lookup particleId b (Aggregator.particleBeliefs u))
    as [H1 [H2 H3]].
  pose proof (beliefs_set_keys particleId b (Aggregator.particleBeliefs u)) as Hk.
  repeat split.
  - rewrite Hk. destruct (registered _ _) eqn:E; [ exact Hnd | ].
    apply NoDup_app; repeat split.
    + exact Hnd.
    + constructor; [ intros [] | constructor ].
    + intros x Hx [Hy | []]. subst x.
      now apply (registered_false_notin _ _ E).
  - exact H1.
  - exact H3.
  - apply (f_equal (@length _)) in Hk. rewrite length_map in Hk. rewrite Hk.
    destruct (registered _ _); [ now rewrite length_map | ].
    rewrite length_app, length_map. cbn. lia.
  - unfold Aggregator.updateGlobalPosterior.
    rewrite collected_samples_nonempty.
    cbn [Aggregator.globalPosterior Aggregator.gravity Aggregator.posteriorOf
         Aggregator.samples Aggregator.particleBeliefs].
    now rewrite length_map.
Qed.

Lemma sum_list_upper (l : list Q) :
  Forall (fun x => x <= 1) l -> sum_list l <= of_nat (length l).
Proof.
  unfold sum_list. induction l as [|x l IH]; intros H.
  - cbn. apply Qle_refl.
  - inversion H as [|? ? Hx Hl]; subst. cbn [fold_left length].
    rewrite fold_plus_shift. specialize (IH Hl).
    unfold of_nat in *. rewrite Nat2Z.inj_succ, <- Z.add_1_r, inject_Z_plus.
    change (inject_Z 1) with 1. lra.
Qed.

Lemma correlation_range (a c : Q) :
  let r := 1 - Math_abs (a - c) / (Math_abs a + Math_abs c + 0.1) in
  0 <= r /\ r <= 1.
Proof.
  cbv zeta. unfold Math_abs.
  pose proof (Qabs_nonneg a) as Ha. pose proof (Qabs_nonneg c) as Hc.
  pose proof (Qabs_nonneg (a - c)) as Hd.
  assert (Ht : Qabs (a - c) <= Qabs a + Qabs c).
  { unfold Qminus. eapply Qle_trans; [ apply Qabs_triangle | ].
    rewrite Qabs_opp. lra. }
  set (d := Qabs a + Qabs c + 0.1) in *.
  assert (Hdpos : 0 < d) by (unfold d; lra).
  assert (H0 : 0 <= Qabs (a - c) / d) by (apply Qle_shift_div_l; lra).
  assert (H1 : Qabs (a - c) / d <= 1) by (apply Qle_shift_div_r; unfold d in *; lra).
  lra.
Qed.

(** For registered beliefs whose gravity is in the range [0,20] that
    the estimator clamps it to, the mutual information estimate lies in
    [0,1].  The range keeps the statement where the doubles of the code
    cannot overflow, which the rational model does not do anywhere. *)
Theorem mutual_information_range (u : Aggregator.t) :
  Forall (fun kb => 0 <= Aggregator.belief_g (snd kb) <= 20)
         (Aggregator.particleBeliefs u) ->
  0 <= Aggregator.calculateMutualInformation u /\
  Aggregator.calculateMutualInformation u <= 1.
Proof.
  intros _. unfold Aggregator.calculateMutualInformation.
  destruct (Nat.ltb (length (Aggregator.particleBeliefs u)) 2); [ lra | ].
  set (beliefs := map snd (Aggregator.particleBeliefs u)).
  match goal with
  | |- context [fold_left ?f (seq 0 (length beliefs)) []] =>
    set (outer := f)
  end.
  set (ok := fun x : Q => 0 <= x /\ x <= 1).
  assert (Hall : Forall ok (fold_left outer (seq 0 (length beliefs)) [])).
  { assert (Hgen : forall l acc, Forall ok acc -> Forall ok (fold_left outer l acc)).
    { induction l as [|i l IH]; intros acc Hacc; cbn [fold_left]; [ exact Hacc | ].
      apply IH. unfold outer.
      generalize (seq (S i) (length beliefs - S i)). intros js.
      revert acc Hacc. induction js as [|j js IHj]; intros acc Hacc;
        cbn [fold_left]; [ exact Hacc | ].
      apply IHj.
      destruct (nth_error beliefs i) as [b1|]; [ | exact Hacc ].
      destruct (nth_error beliefs j) as [b2|]; [ | exact Hacc ].
      apply Forall_app. split; [ exact Hacc | ].
      constructor; [ | constructor ].
      apply correlation_range. }
    apply Hgen. constructor. }
  set (cs := fold_left outer (seq 0 (length beliefs)) []) in *.
  destruct (Nat.ltb 0 (length cs)) eqn:E; [ | lra ].
  apply PeanoNat.Nat.ltb_lt in E.
  pose proof (of_nat_pos _ E) as Hpos.
  split.
  - apply Qle_shift_div_l; [ exact Hpos | ].
    rewrite Qmult_0_l. apply sum_list_nonneg.
    eapply Forall_impl; [ | exact Hall ]. intros x [Hx _]. exact Hx.
  - apply Qle_shift_div_r; [ exact Hpos | ].
    rewrite Qmult_1_l. apply sum_list_upper.
    eapply Forall_impl; [ | exact Hall ]. intros x [_ Hx]. exact Hx.
Qed.

(** Convergence is reported only from at least 10 snapshots on, and
    only when the posterior gravity variance is below 0.1; the reported
    stability always lies in [0,1]. *)
Theorem getConvergenceMetrics_spec (u : Aggregator.t) :
  let m := Aggregator.getConvergenceMetrics u in
  (0 <= Aggregator.stability m /\ Aggregator.stability m <= 1) /\
  (Aggregator.converged m = true ->
   (10 <= length (Aggregator.history u))%nat /\
   Aggregator.variance (Aggregator.gravity (Aggregator.globalPosterior u)) < 0.1 /\
   0.9 < Aggregator.stability m).
Proof.
  cbv zeta. unfold Aggregator.getConvergenceMetrics.
  destruct (Nat.ltb (length (Aggregator.history u)) 10) eqn:E;
    cbn [Aggregator.stability Aggregator.converged].
  - split; [ lra | discriminate ].
  - apply PeanoNat.Nat.ltb_ge in E.
    match goal with
    | |- context [1 / (1 + Aggregator.calculateVariance ?l)] =>
      pose proof (consensus_term_range _ (calculateVariance_nonneg l)) as [S1 S2];
      set (st := 1 / (1 + Aggregator.calculateVariance l)) in *
    end.
    split; [ lra | ].
    intros Hc. apply andb_true_iff in Hc. destruct Hc as [Hv Hs].
    apply Qlt_bool_iff in Hv. apply Qlt_bool_iff in Hs. auto.
Qed.

End AggregatorMore.

Lemma single_particle_posterior_witness :
  let u := Aggregator.updateGlobalPosterior log_approx 3.14159 2.71828
             (Aggregator.new_universe log_approx 3.14159 2.71828) "p1"
             (Aggregator.mkBelief 9 1 0.1 3) in
  let post := Aggregator.globalPosterior
                (Aggregator.updateGlobalPosterior log_approx 3.14159 2.71828
                   u "p1" example_belief) in
  Aggregator.samples (Aggregator.gravity post) = [5] /\
  Aggregator.mean (Aggregator.gravity post) == 5 /\
  Aggregator.mean (Aggregator.mass post) == 2 /\
  Aggregator.mean (Aggregator.friction post) == 0.3 /\
  Aggregator.variance (Aggregator.gravity post) == 1 + 0.01 /\
  Aggregator.consensusStrength post == 1.
Proof.
  apply (single_particle_posterior log_approx 3.14159 2.71828
           (Aggregator.updateGlobalPosterior log_approx 3.14159 2.71828
              (Aggregator.new_universe log_approx 3.14159 2.71828) "p1"
              (Aggregator.mkBelief 9 1 0.1 3))
           "p1" (Aggregator.mkBelief 9 1 0.1 3) example_belief).
  - reflexivity.
  - vm_compute. discriminate.
Defined.

Lemma identical_beliefs_full_consensus_witness :
  let u := Aggregator.updateGlobalPosterior log_approx 3.14159 2.71828
             (Aggregator.new_universe log_approx 3.14159 2.71828) "p1"
             example_belief in
  let u' := Aggregator.updateGlobalPosterior log_approx 3.14159 2.71828
              u "p2" example_belief in
  Aggregator.consensusStrength (Aggregator.globalPosterior u') == 1 /\
  Aggregator.calculateMutualInformation u' == 1.
Proof.
  apply (identical_beliefs_full_consensus log_approx 3.14159 2.71828
           (Aggregator.updateGlobalPosterior log_approx 3.14159 2.71828
              (Aggregator.new_universe log_approx 3.14159 2.71828) "p1"
              example_belief)
           "p1" "p2" example_belief).
  - reflexivity.
  - discriminate.
Defined.

Lemma history_is_bounded_witness :
  let u := Aggregator.new_universe log_approx 3.14159 2.71828 in
  let u' := Aggregator.updateGlobalPosterior log_approx 3.14159 2.71828
              u "p1" example_belief in
  (length (Aggregator.history u') <= Aggregator.maxHistory)%nat /\
  last (Aggregator.history u') (Aggregator.globalPosterior u)
  = Aggregator.globalPosterior u'.
Proof.
  apply (history_is_bounded log_approx 3.14159 2.71828
           (Aggregator.new_universe log_approx 3.14159 2.71828)
           "p1" example_belief).
  cbn. lia.
Defined.

Lemma one_belief_per_particle_witness :
  let u := Aggregator.updateGlobalPosterior log_approx 3.14159 2.71828
             (Aggregator.new_universe log_approx 3.14159 2.71828) "p1"
             example_belief in
  let u' := Aggregator.updateGlobalPosterior log_approx 3.14159 2.71828
              u "p2" example_belief in
  NoDup (map fst (Aggregator.particleBeliefs u')) /\
  In ("p2"%string, example_belief) (Aggregator.particleBeliefs u') /\
  (forall k b0, k <> "p2"%string -> In (k, b0) (Aggregator.particleBeliefs u) ->
                In (k, b0) (Aggregator.particleBeliefs u')) /\
  length (Aggregator.particleBeliefs u')
  = (if registered "p2" (Aggregator.particleBeliefs u)
     then length (Aggregator.particleBeliefs u)
     else S (length (Aggregator.particleBeliefs u))) /\
  length (Aggregator.samples (Aggregator.gravity (Aggregator.globalPosterior u')))
  = length (Aggregator.particleBeliefs u').
Proof.
  apply (one_belief_per_particle log_approx 3.14159 2.71828
           (Aggregator.updateGlobalPosterior log_approx 3.14159 2.71828
              (Aggregator.new_universe log_approx 3.14159 2.71828) "p1"
              example_belief)
           "p2" example_belief).
  cbn. constructor; [ intros [] | constructor ].
Defined.

Lemma mutual_information_range_witness :
  let u := Aggregator.updateGlobalPosterior log_approx 3.14159 2.71828
             (Aggregator.updateGlobalPosterior log_approx 3.14159 2.71828
                (Aggregator.new_universe log_approx 3.14159 2.71828) "p1"
                example_belief)
             "p2" (Aggregator.mkBelief 9 1 0.1 3) in
  0 <= Aggregator.calculateMutualInformation u /\
  Aggregator.calculateMutualInformation u <= 1.
Proof.
  apply (mutual_information_range
           (Aggregator.updateGlobalPosterior log_approx 3.14159 2.71828
              (Aggregator.updateGlobalPosterior log_approx 3.14159 2.71828
                 (Aggregator.new_universe log_approx 3.14159 2.71828) "p1"
                 example_belief)
              "p2" (Aggregator.mkBelief 9 1 0.1 3))).
  vm_compute. repeat constructor; discriminate.
Defined.

(** ** The observation buffer and the gravity fit *)

Lemma window_push {X : Type} (bound : nat) (l : list X) (x d : X) :
  (length l <= bound)%nat ->
  let l1 := l ++ [x] in
  let l2 := if Nat.ltb bound (length l1) then tl l1 else l1 in
  (length l2 <= bound \/ bound = 0)%nat /\
  ((length l < bound)%nat -> l2 = l ++ [x]) /\
  ((0 < bound)%nat -> length l = bound -> l2 = tl l ++ [x]).
Proof.
  intros Hlen. cbv zeta. rewrite length_app. cbn [length].
  destruct (Nat.ltb bound (length l + 1)) eqn:E.
  - apply PeanoNat.Nat.ltb_lt in E. repeat split.
    + destruct l as [|y l]; cbn in *; [ lia | ].
      rewrite length_app. cbn. lia.
    + lia.
    + intros Hb Hl. destruct l as [|y l]; cbn in *; [ lia | reflexivity ].
  - apply PeanoNat.Nat.ltb_ge in E. repeat split.
    + rewrite length_app. cbn. lia.
    + lia.
Qed.

(** The observation buffer is a first-in first-out window of at most
    500 entries: a new observation is appended, and when the buffer was
    full the oldest one is dropped. *)
Theorem addObservation_window
        (observations : list EquationDiscovery.Observation)
        (p v a : Q * Q) (time0 : Q) :
  (length observations <= EquationDiscovery.maxObservations)%nat ->
  let o := EquationDiscovery.mkObservation p v a time0 in
  let observations' := EquationDiscovery.addObservation observations p v a time0 in
  (length observations' <= EquationDiscovery.maxObservations)%nat /\
  ((length observations < EquationDiscovery.maxObservations)%nat ->
   observations' = observations ++ [o]) /\
  (length observations = EquationDiscovery.maxObservations ->
   observations' = tl observations ++ [o]).
Proof.
  intros Hlen. cbv zeta. unfold EquationDiscovery.addObservation.
  destruct (window_push EquationDiscovery.maxObservations observations
              (EquationDiscovery.mkObservation p v a time0)
              (EquationDiscovery.mkObservation p v a time0) Hlen)
    as [H1 [H2 H3]].
  repeat split.
  - destruct H1 as [H1 | H1]; [ exact H1 | discriminate H1 ].
  - exact H2.
  - apply H3. unfold EquationDiscovery.maxObservations. lia.
Qed.

Lemma fold_left_pointwise (f g : Q -> Q -> Q) (l : list Q) :
  (forall acc acc' x, acc == acc' -> f acc x == g acc' x) ->
  forall a a', a == a' -> fold_left f l a == fold_left g l a'.
Proof.
  intros Hfg. induction l as [|x l IH]; intros a a' Ha; cbn [fold_left].
  - exact Ha.
  - apply IH. now apply Hfg.
Qed.

Lemma Math_min_one_zero (x : Q) : x == 0 -> Math_min 1 x == 0.
Proof.
  intros Hx. rewrite (Math_min_compat 1 x 1 0); [ reflexivity | reflexivity | exact Hx ].
Qed.

(** The gravity fit compares the samples with their own mean twice, so
    whenever it returns an equation (ten samples or more) the reported
    R² is 0 and so is the confidence of g; g itself is the negated mean
    of the vertical accelerations. *)
Theorem gravity_fit_reports_zero_confidence
        (observations : list EquationDiscovery.Observation) :
  (10 <= length observations)%nat ->
  exists e p,
    EquationDiscovery.discoverGravityEquation observations = Some e /\
    EquationDiscovery.parameters e = [p] /\
    EquationDiscovery.value p
    == - (sum_list (map (fun o => snd (EquationDiscovery.acceleration o))
                        observations)
          / of_nat (length observations)) /\
    EquationDiscovery.rSquared e == 0 /\
    EquationDiscovery.confidence p == 0.
Proof.
  intros Hlen. unfold EquationDiscovery.discoverGravityEquation.
  assert (E : Nat.ltb (length observations) 10 = false)
    by (apply PeanoNat.Nat.ltb_ge; exact Hlen).
  rewrite E. cbv zeta.
  set (ys := map (fun o => snd (EquationDiscovery.acceleration o)) observations).
  set (mu := sum_list ys / of_nat (length ys)).
  set (ssRes := fold_left (fun sum a => sum + (a - - - mu) ^ 2) ys 0).
  set (ssTot := fold_left (fun sum a => sum + (a - mu) ^ 2) ys 0).
  assert (Hsame : ssRes == ssTot).
  { unfold ssRes, ssTot. apply fold_left_pointwise; [ | reflexivity ].
    intros acc acc' x Ha. rewrite Ha. ring. }
  assert (Hr : (if Qlt_bool 0 ssTot then 1 - ssRes / ssTot else 0) == 0).
  { destruct (Qlt_bool 0 ssTot) eqn:Ep; [ | reflexivity ].
    apply Qlt_bool_iff in Ep. rewrite Hsame. field. lra. }
  eexists. eexists. split; [ reflexivity | ].
  cbn [EquationDiscovery.parameters EquationDiscovery.value
       EquationDiscovery.rSquared EquationDiscovery.confidence].
  split; [ reflexivity | ]. split; [ | split ].
  - unfold mu, ys. now rewrite length_map.
  - exact Hr.
  - apply Math_min_one_zero. rewrite Hr. ring.
Qed.

(** ** The meta-learning adapter *)

Definition in_range (agent : MetaLearning.t) : Prop :=
  0.1 <= MetaLearning.learningRate (MetaLearning.state agent) <= 2 /\
  0.01 <= MetaLearning.measurementNoise (MetaLearning.state agent) /\
  (length (MetaLearning.performanceHistory agent) <= MetaLearning.maxHistory)%nat /\
  (length (MetaLearning.adaptationHistory (MetaLearning.state agent))
   <= MetaLearning.maxHistory)%nat.

(** A sequence of [adapt] calls, each with its three arguments. *)
Definition adapt_all (calls : list (Q * Q * Q)) (agent : MetaLearning.t)
  : MetaLearning.t :=
  fold_left (fun ag '(cv, pv, ts) => MetaLearning.adapt ag cv pv ts) calls agent.

Lemma Math_min_cases a b : (Math_min a b = a /\ a <= b) \/ (Math_min a b = b /\ b <= a).
Proof.
  unfold Math_min. destruct (Qle_bool a b) eqn:E.
  - left. split; [ reflexivity | now apply Qle_bool_iff ].
  - right. split; [ reflexivity | ].
    apply Qle_bool_false_iff in E. lra.
Qed.

Lemma Math_max_cases a b : (Math_max a b = a /\ b <= a) \/ (Math_max a b = b /\ a <= b).
Proof.
  unfold Math_max. destruct (Qle_bool a b) eqn:E.
  - right. split; [ reflexivity | now apply Qle_bool_iff ].
  - left. split; [ reflexivity | ].
    apply Qle_bool_false_iff in E. lra.
Qed.

Lemma learningRate_step (lr avg : Q) :
  0.1 <= lr <= 2 ->
  let lr' := if Qlt_bool 0.01 avg then Math_min 2.0 (lr * 1.01)
             else if Qlt_bool avg (-0.01) then Math_max 0.1 (lr * 0.99)
             else lr in
  0.1 <= lr' <= 2 /\ lr * 0.99 <= lr' <= lr * 1.01.
Proof.
  intros Hlr. cbv zeta.
  destruct (Qlt_bool 0.01 avg).
  - destruct (Math_min_cases 2.0 (lr * 1.01)) as [[-> H] | [-> H]]; lra.
  - destruct (Qlt_bool avg (-0.01)).
    + destruct (Math_max_cases 0.1 (lr * 0.99)) as [[-> H] | [-> H]]; lra.
    + lra.
Qed.

Lemma adapt_in_range (agent : MetaLearning.t) (cv pv ts : Q) :
  in_range agent -> in_range (MetaLearning.adapt agent cv pv ts).
Proof.
  intros [Hlr [Hm [Hp Ha]]]. unfold in_range, MetaLearning.adapt.
  cbn [MetaLearning.state MetaLearning.learningRate MetaLearning.measurementNoise
       MetaLearning.performanceHistory MetaLearning.adaptationHistory].
  split; [ | split; [ | split ] ].
  - apply learningRate_step. exact Hlr.
  - apply Math_max_lower.
  - match goal with
    | |- context [MetaLearning.performanceHistory agent ++ [?x]] =>
      destruct (window_push MetaLearning.maxHistory
                  (MetaLearning.performanceHistory agent) x x Hp) as [[H | H] _];
        [ exact H | discriminate H ]
    end.
  - match goal with
    | |- context [MetaLearning.adaptationHistory _ ++ [?x]] =>
      destruct (window_push MetaLearning.maxHistory
                  (MetaLearning.adaptationHistory (MetaLearning.state agent))
                  x x Ha) as [[H | H] _];
        [ exact H | discriminate H ]
    end.
Qed.

(** Whatever sequence of [adapt] calls with non-negative variances a
    fresh agent receives, its learning rate stays in [0.1, 2], its
    measurement noise stays at or above 0.01, and both of its histories
    hold at most 100 entries.  With non-negative variances every
    recorded variance reduction is at most 1, so the doubles of the code
    cannot reach [Infinity - Infinity], which the rational model does
    not have. *)
Theorem adapt_keeps_parameters_in_range (calls : list (Q * Q * Q)) :
  Forall (fun c => 0 <= fst (fst c) /\ 0 <= snd (fst c)) calls ->
  let agent := adapt_all calls MetaLearning.new_agent in
  (0.1 <= MetaLearning.learningRate (MetaLearning.state agent) /\
   MetaLearning.learningRate (MetaLearning.state agent) <= 2) /\
  0.01 <= MetaLearning.measurementNoise (MetaLearning.state agent) /\
  (length (MetaLearning.performanceHistory agent) <= 100)%nat /\
  (length (MetaLearning.adaptationHistory (MetaLearning.state agent)) <= 100)%nat.
Proof.
  intros _.
  cbv zeta.
  assert (H : in_range (adapt_all calls MetaLearning.new_agent)).
  { unfold adapt_all.
    assert (Hgen : forall l ag, in_range ag ->
              in_range (fold_left (fun ag '(cv, pv, ts) =>
                                     MetaLearning.adapt ag cv pv ts) l ag)).
    { induction l as [|[[cv pv] ts] l IH]; intros ag Hag; cbn [fold_left].
      - exact Hag.
      - apply IH. now apply adapt_in_range. }
    apply Hgen. unfold in_range, MetaLearning.new_agent, MetaLearning.maxHistory.
    cbn. repeat split; try lra; lia. }
  destruct H as [[H1 H2] [H3 [H4 H5]]]. unfold MetaLearning.maxHistory in *.
  repeat split; assumption.
Qed.

(** One [adapt] call moves the learning rate by at most one percent,
    sets the process noise to 0.005 + currentVariance/1000, and records
    the new learning rate with the time step as the last adaptation. *)
Theorem adapt_step (agent : MetaLearning.t) (cv pv ts : Q) :
  0.1 <= MetaLearning.learningRate (MetaLearning.state agent) <= 2 ->
  let lr := MetaLearning.learningRate (MetaLearning.state agent) in
  let st' := MetaLearning.state (MetaLearning.adapt agent cv pv ts) in
  (lr * 0.99 <= MetaLearning.learningRate st' /\
   MetaLearning.learningRate st' <= lr * 1.01) /\
  MetaLearning.processNoise st' == 0.005 + cv / 1000 /\
  forall d,
    MetaLearning.record_time (last (MetaLearning.adaptationHistory st') d) = ts /\
    MetaLearning.record_learningRate (last (MetaLearning.adaptationHistory st') d)
    = MetaLearning.learningRate st'.
Proof.
  intros Hlr. cbv zeta. unfold MetaLearning.adapt.
  cbn [MetaLearning.state MetaLearning.learningRate MetaLearning.processNoise
       MetaLearning.adaptationHistory].
  split; [ | split ].
  - eapply learningRate_step. exact Hlr.
  - field.
  - intros d.
    match goal with
    | |- context [last (if ?c then tl (?l ++ [?x]) else _) d] =>
      assert (Hlast : last (if c then tl (l ++ [x]) else l ++ [x]) d = x)
    end.
    { match goal with
      | |- last (if ?c then _ else _) _ = _ => destruct c eqn:E
      end.
      - destruct (MetaLearning.adaptationHistory (MetaLearning.state agent))
          as [|r0 [|r1 rest]]; [ discriminate E | reflexivity | ].
        cbn [app tl].
        change (r1 :: rest ++ [?x]) with ((r1 :: rest) ++ [x]). apply last_last.
      - apply last_last. }
    rewrite Hlast. split; reflexivity.
Qed.

Lemma addObservation_window_witness :
  let o := EquationDiscovery.mkObservation (0, 1) (0, 2) (0, -9.8) 0 in
  let observations' := EquationDiscovery.addObservation [] (0, 1) (0, 2) (0, -9.8) 0 in
  (length observations' <= EquationDiscovery.maxObservations)%nat /\
  ((length (@nil EquationDiscovery.Observation)
    < EquationDiscovery.maxObservations)%nat ->
   observations' = [] ++ [o]) /\
  (length (@nil EquationDiscovery.Observation) = EquationDiscovery.maxObservations ->
   observations' = tl [] ++ [o]).
Proof.
  apply (addObservation_window [] (0, 1) (0, 2) (0, -9.8) 0).
  cbn. lia.
Defined.

Definition falling_samples : list EquationDiscovery.Observation :=
  map (fun i => EquationDiscovery.mkObservation
                  (0, 0) (0, - 9.8 * (of_nat i * 0.016))
                  (0, - 9.8 - of_nat (Nat.modulo i 2)) (of_nat i * 0.016))
      (seq 0 10).

Lemma gravity_fit_reports_zero_confidence_witness :
  exists e p,
    EquationDiscovery.discoverGravityEquation falling_samples = Some e /\
    EquationDiscovery.parameters e = [p] /\
    EquationDiscovery.value p
    == - (sum_list (map (fun o => snd (EquationDiscovery.acceleration o))
                        falling_samples)
          / of_nat (length falling_samples)) /\
    EquationDiscovery.rSquared e == 0 /\
    EquationDiscovery.confidence p == 0.
Proof.
  apply (gravity_fit_reports_zero_confidence falling_samples).
  cbn. lia.
Defined.

Lemma adapt_step_witness :
  let agent := MetaLearning.new_agent in
  let lr := MetaLearning.learningRate (MetaLearning.state agent) in
  let st' := MetaLearning.state (MetaLearning.adapt agent 3 4 1) in
  (lr * 0.99 <= MetaLearning.learningRate st' /\
   MetaLearning.learningRate st' <= lr * 1.01) /\
  MetaLearning.processNoise st' == 0.005 + 3 / 1000 /\
  forall d,
    MetaLearning.record_time (last (MetaLearning.adaptationHistory st') d) = 1 /\
    MetaLearning.record_learningRate (last (MetaLearning.adaptationHistory st') d)
    = MetaLearning.learningRate st'.
Proof.
  apply (adapt_step MetaLearning.new_agent 3 4 1).
  cbn. lra.
Defined.

Lemma adapt_keeps_parameters_in_range_witness :
  let agent := adapt_all [(3, 4, 1); (2, 3, 2); (5 # 2, 2, 3)] MetaLearning.new_agent in
  (0.1 <= MetaLearning.learningRate (MetaLearning.state agent) /\
   MetaLearning.learningRate (MetaLearning.state agent) <= 2) /\
  0.01 <= MetaLearning.measurementNoise (MetaLearning.state agent) /\
  (length (MetaLearning.performanceHistory agent) <= 100)%nat /\
  (length (MetaLearning.adaptationHistory (MetaLearning.state agent)) <= 100)%nat.
Proof.
  apply (adapt_keeps_parameters_in_range [(3, 4, 1); (2, 3, 2); (5 # 2, 2, 3)]).
  repeat constructor; cbn; lra.
Defined.

(** ** [JSON.parse(JSON.stringify(v))] is a faithful copy *)

(** The nesting depth of a JSON text. *)
Fixpoint depth (j : JS.json) : nat :=
  match j with
  | JS.JNum _ => 1
  | JS.JStr _ => 1
  | JS.JObj fields => S (list_max (map (fun kj => depth (snd kj)) fields))
  | JS.JArr elems => S (list_max (map depth elems))
  end.

Lemma sequence_map_impl {X Y : Type} (f g : X -> option Y) (l : list X) :
  (forall x y, f x = Some y -> g x = Some y) ->
  forall ys, JS.sequence (map f l) = Some ys -> JS.sequence (map g l) = Some ys.
Proof.
  intros Hfg. induction l as [|x l IH]; intros ys H; cbn in *; [ exact H | ].
  destruct (f x) as [y|] eqn:Ef; [ | discriminate H ].
  rewrite (Hfg x y Ef).
  destruct (JS.sequence (map f l)) as [ys'|]; [ | discriminate H ].
  now rewrite (IH ys' eq_refl).
Qed.

Lemma sequence_app {X : Type} (l1 l2 : list (option X)) (a b : list X) :
  JS.sequence l1 = Some a -> JS.sequence l2 = Some b ->
  JS.sequence (l1 ++ l2) = Some (a ++ b).
Proof.
  revert a. induction l1 as [|[x|] l1 IH]; intros a H1 H2; cbn in *.
  - inversion H1. exact H2.
  - destruct (JS.sequence l1) as [a'|]; [ | discriminate H1 ].
    inversion H1; subst. now rewrite (IH a' eq_refl H2).
  - discriminate H1.
Qed.

(** More fuel and a larger heap do not change the text of a value. *)
Lemma stringify_mono :
  forall fuel h v j,
    JS.stringify fuel h v = Some j ->
    forall fuel' e, (fuel <= fuel')%nat -> JS.stringify fuel' (h ++ e) v = Some j.
Proof.
  induction fuel as [|fuel IH]; intros h v j H fuel' e Hle; [ discriminate H | ].
  destruct fuel' as [|fuel']; [ lia | ].
  cbn [JS.stringify] in *.
  destruct v as [q | s | a]; try exact H.
  destruct (nth_error h a) as [o|] eqn:Ea; [ | discriminate H ].
  assert (Hlt : (a < length h)%nat) by (apply nth_error_Some; congruence).
  rewrite nth_error_app1, Ea by exact Hlt.
  destruct o as [fields | elems].
  - destruct (JS.sequence _) as [js|] eqn:Es in H; [ | discriminate H ].
    erewrite sequence_map_impl; [ exact H | | exact Es ].
    intros kv y Hy. cbv beta in *.
    destruct (JS.stringify fuel h (snd kv)) as [j0|] eqn:E0; [ | discriminate Hy ].
    rewrite (IH h (snd kv) j0 E0 fuel' e) by lia. exact Hy.
  - destruct (JS.sequence _) as [js|] eqn:Es in H; [ | discriminate H ].
    erewrite sequence_map_impl; [ exact H | | exact Es ].
    intros v y Hy. eapply IH; [ exact Hy | lia ].
Qed.

Lemma parse_extends j h : exists e, fst (JS.parse j h) = h ++ e.
Proof.
  destruct (parse_new_structure j h) as [e [He _]]. now exists e.
Qed.

Lemma list_max_bound (l : list nat) :
  Forall (fun k => (k <= list_max l)%nat) l.
Proof. now apply list_max_le. Qed.

(** Parsing a text and printing the result gives the text back. *)
Lemma parse_stringify j :
  forall h, JS.stringify (depth j) (fst (JS.parse j h)) (snd (JS.parse j h)) = Some j.
Proof.
  induction j as [q | s | fields IH | elems IH] using json_induction; intros h.
  - reflexivity.
  - reflexivity.
  - cbn [JS.parse depth].
    set (d := list_max (map (fun kj => depth (snd kj)) fields)).
    assert (Hd : Forall (fun kj : string * JS.json => (depth (snd kj) <= d)%nat) fields).
    { pose proof (list_max_bound (map (fun kj => depth (snd kj)) fields)) as Hb.
      fold d in Hb. rewrite Forall_map in Hb. exact Hb. }
    assert (Hfold : forall l h0 acc js,
               Forall (fun kj => forall h,
                           JS.stringify (depth (snd kj)) (fst (JS.parse (snd kj) h))
                                        (snd (JS.parse (snd kj) h)) = Some (snd kj)) l ->
               Forall (fun kj : string * JS.json => (depth (snd kj) <= d)%nat) l ->
               JS.sequence
                 (map (fun kv => option_map (pair (fst kv))
                                            (JS.stringify d h0 (snd kv))) acc)
               = Some js ->
               let r := fold_left
                          (fun '(h0, acc) (kj : string * JS.json) =>
                             let '(h', v) := JS.parse (snd kj) h0 in
                             (h', acc ++ [(fst kj, v)]))
                          l (h0, acc) in
               JS.sequence
                 (map (fun kv => option_map (pair (fst kv))
                                            (JS.stringify d (fst r) (snd kv)))
                      (snd r))
               = Some (js ++ l)).
    { induction l as [|kj l IHl]; intros h0 acc js Hl Hdl Hacc.
      - cbn. now rewrite app_nil_r.
      - inversion Hl as [|? ? Hkj Hl']; subst.
        inversion Hdl as [|? ? Hdk Hdl']; subst.
        cbn [fold_left].
        pose proof (Hkj h0) as Hp. destruct (parse_extends (snd kj) h0) as [e He].
        destruct (JS.parse (snd kj) h0) as [h' v]. cbn [fst snd] in Hp, He.
        subst h'.
        replace (js ++ kj :: l) with ((js ++ [kj]) ++ l)
          by (now rewrite <- app_assoc).
        apply IHl; [ exact Hl' | exact Hdl' | ].
        rewrite map_app. apply sequence_app.
        + eapply sequence_map_impl; [ | exact Hacc ].
          intros kv y Hy. cbv beta in *.
          destruct (JS.stringify d h0 (snd kv)) as [j0|] eqn:E0; [ | discriminate Hy ].
          rewrite (stringify_mono d h0 (snd kv) j0 E0 d e) by lia. exact Hy.
        + cbn [map JS.sequence fst snd].
          replace (h0 ++ e) with ((h0 ++ e) ++ []) by apply app_nil_r.
          rewrite (stringify_mono _ _ _ _ Hp d []) by exact Hdk.
          cbn. now destruct kj. }
    specialize (Hfold fields h [] [] IH Hd eq_refl). cbv zeta in Hfold.
    destruct (fold_left _ fields (h, [])) as [h1 vs]. cbn [fst snd] in Hfold.
    cbn [JS.alloc fst snd JS.stringify].
    rewrite nth_error_app2, PeanoNat.Nat.sub_diag by lia. cbn [nth_error].
    erewrite sequence_map_impl; [ reflexivity | | exact Hfold ].
    intros kv y Hy. cbv beta in *.
    destruct (JS.stringify d h1 (snd kv)) as [j0|] eqn:E0; [ | discriminate Hy ].
    rewrite (stringify_mono d h1 (snd kv) j0 E0 d [JS.Obj vs]) by lia. exact Hy.
  - cbn [JS.parse depth].
    set (d := list_max (map depth elems)).
    assert (Hd : Forall (fun j0 => (depth j0 <= d)%nat) elems).
    { pose proof (list_max_bound (map depth elems)) as Hb.
      fold d in Hb. rewrite Forall_map in Hb. exact Hb. }
    assert (Hfold : forall l h0 acc js,
               Forall (fun j0 => forall h,
                           JS.stringify (depth j0) (fst (JS.parse j0 h))
                                        (snd (JS.parse j0 h)) = Some j0) l ->
               Forall (fun j0 => (depth j0 <= d)%nat) l ->
               JS.sequence (map (JS.stringify d h0) acc) = Some js ->
               let r := fold_left
                          (fun '(h0, acc) (j0 : JS.json) =>
                             let '(h', v) := JS.parse j0 h0 in (h', acc ++ [v]))
                          l (h0, acc) in
               JS.sequence (map (JS.stringify d (fst r)) (snd r)) = Some (js ++ l)).
    { induction l as [|j0 l IHl]; intros h0 acc js Hl Hdl Hacc.
      - cbn. now rewrite app_nil_r.
      - inversion Hl as [|? ? Hj0 Hl']; subst.
        inversion Hdl as [|? ? Hdk Hdl']; subst.
        cbn [fold_left].
        pose proof (Hj0 h0) as Hp. destruct (parse_extends j0 h0) as [e He].
        destruct (JS.parse j0 h0) as [h' v]. cbn [fst snd] in Hp, He.
        subst h'.
        replace (js ++ j0 :: l) with ((js ++ [j0]) ++ l)
          by (now rewrite <- app_assoc).
        apply IHl; [ exact Hl' | exact Hdl' | ].
        rewrite map_app. apply sequence_app.
        + eapply sequence_map_impl; [ | exact Hacc ].
          intros v0 y Hy. eapply stringify_mono; [ exact Hy | lia ].
        + cbn [map JS.sequence].
          replace (h0 ++ e) with ((h0 ++ e) ++ []) by apply app_nil_r.
          rewrite (stringify_mono _ _ _ _ Hp d []) by exact Hdk.
          reflexivity. }
    specialize (Hfold elems h [] [] IH Hd eq_refl). cbv zeta in Hfold.
    destruct (fold_left _ elems (h, [])) as [h1 vs]. cbn [fst snd] in Hfold.
    cbn [JS.alloc fst snd JS.stringify].
    rewrite nth_error_app2, PeanoNat.Nat.sub_diag by lia. cbn [nth_error].
    erewrite sequence_map_impl; [ reflexivity | | exact Hfold ].
    intros v0 y Hy. eapply stringify_mono; [ exact Hy | lia ].
Qed.

(** The deep copy made by [JSON.parse(JSON.stringify(v))] has the same
    JSON text as the original, which still has its text in the new
    heap: the copy is equal in content, and only in content. *)
Theorem json_clone_same_text
        (fuel : nat) (h : JS.heap) (v : JS.value) (h1 : JS.heap) (v1 : JS.value) :
  JS.json_clone fuel h v = Some (h1, v1) ->
  exists fuel',
    JS.stringify fuel' h1 v1 = JS.stringify fuel h v /\
    JS.stringify fuel h1 v = JS.stringify fuel h v.
Proof.
  unfold JS.json_clone. intros H.
  destruct (JS.stringify fuel h v) as [j|] eqn:Ej; [ | discriminate H ].
  cbn in H. inversion H as [Hp].
  exists (depth j). split.
  - pose proof (parse_stringify j h) as Hr. rewrite Hp in Hr. exact Hr.
  - destruct (parse_extends j h) as [e He]. rewrite Hp in He. cbn in He.
    subst h1. apply (stringify_mono fuel h v j Ej fuel e). lia.
Qed.

Definition example_heap : JS.heap :=
  fst (JS.alloc_matrix [[1; 2]; [3; 4]] []).

Definition example_clone : JS.heap * JS.value :=
  match JS.json_clone 3 example_heap (JS.Ref 2) with
  | Some r => r
  | None => ([], JS.Num 0)
  end.

Lemma json_clone_same_text_witness :
  exists fuel',
    JS.stringify fuel' (fst example_clone) (snd example_clone)
    = JS.stringify 3 example_heap (JS.Ref 2) /\
    JS.stringify 3 (fst example_clone) (JS.Ref 2)
    = JS.stringify 3 example_heap (JS.Ref 2).
Proof.
  apply (json_clone_same_text 3 example_heap (JS.Ref 2)
           (fst example_clone) (snd example_clone)).
  reflexivity.
Defined.


(** ** The head-on collision, to the end of the tick *)

(** *** What a correction does to the observed components *)

Lemma gain_apply (P0 X : Matrix) (y0 y1 y2 y3 : Q) (i : nat) :
  shape 7 7 P0 -> shape 4 4 X -> (i < 7)%nat ->
  nth i (matrixVectorMultiply
           (matrixMultiply (matrixMultiply P0 (transpose computeObservationMatrix)) X)
           [y0; y1; y2; y3]) 0
  == sumn 4 (fun a => at2 P0 i a *
                      sumn 4 (fun b => at2 X a b * nth b [y0; y1; y2; y3] 0)).
Proof.
  intros Hs HsX Hi. explicit_matrix P0 Hs p. explicit_matrix X HsX x.
  cases_lt Hi; cbv [sumn]; mat_eval; ring.
Qed.

(** The innovation of [update]. *)
Definition innovation (f : ExtendedKalmanFilter)
           (observedPosition observedVelocity : Q * Q) (b : nat) : Q :=
  nth b [fst observedPosition - px (state f); snd observedPosition - py (state f);
         fst observedVelocity - vx (state f); snd observedVelocity - vy (state f)] 0.

(** The innovation weighted by the inverse of [S]. *)
Definition weighted_innovation (f : ExtendedKalmanFilter)
           (observedPosition observedVelocity : Q * Q) (a : nat) : Q :=
  sumn 4 (fun b => at2 (inverse (innovationCovariance (P f) (R f))) a b
                   * innovation f observedPosition observedVelocity b).

Lemma weighted_innovation_solves f op ov a :
  shape 7 7 (P f) ->
  epsilon <= Math_abs (determinant4x4 (innovationCovariance (P f) (R f))) ->
  (a < 4)%nat ->
  sumn 4 (fun b => at2 (innovationCovariance (P f) (R f)) a b
                   * weighted_innovation f op ov b)
  == innovation f op ov a.
Proof.
  intros Hs Hd Ha.
  set (S0 := innovationCovariance (P f) (R f)) in *.
  assert (HsS : shape 4 4 S0) by (apply innovationCovariance_shape, Hs).
  unfold weighted_innovation. fold S0.
  set (y := innovation f op ov). set (X := inverse S0).
  transitivity (sumn 4 (fun c => sumn 4 (fun b => at2 S0 a b * at2 X b c) * y c)).
  { cbv [sumn]. ring. }
  rewrite (sumn_ext 4 _ (fun c => delta a c * y c)).
  - cases_lt Ha; cbv [sumn delta Nat.eqb]; ring.
  - intros c Hc. unfold X. rewrite inverse_right by assumption. reflexivity.
Qed.

Lemma update_gain_entry f op ov i :
  shape 7 7 (P f) -> (i < 4)%nat ->
  epsilon <= Math_abs (determinant4x4 (innovationCovariance (P f) (R f))) ->
  nth i (matrixVectorMultiply (kalmanGain (P f) (R f))
           [fst op - px (state f); snd op - py (state f);
            fst ov - vx (state f); snd ov - vy (state f)]) 0
  == innovation f op ov i - R f * weighted_innovation f op ov i.
Proof.
  intros Hs Hi Hd.
  set (S0 := innovationCovariance (P f) (R f)).
  assert (HsS : shape 4 4 S0) by (apply innovationCovariance_shape, Hs).
  assert (HsX : shape 4 4 (inverse S0)) by (apply inverse_shape, HsS).
  pose proof (gain_apply (P f) (inverse S0)
                (fst op - px (state f)) (snd op - py (state f))
                (fst ov - vx (state f)) (snd ov - vy (state f)) i Hs HsX
                ltac:(lia)) as HK.
  change (nth i (matrixVectorMultiply (kalmanGain (P f) (R f))
                   [fst op - px (state f); snd op - py (state f);
                    fst ov - vx (state f); snd ov - vy (state f)]) 0
          == sumn 4 (fun a => at2 (P f) i a * weighted_innovation f op ov a)) in HK.
  rewrite HK.
  rewrite (sumn_ext 4 _ (fun a => (at2 S0 i a - R f * delta i a)
                                  * weighted_innovation f op ov a)).
  - rewrite <- (weighted_innovation_solves f op ov i Hs Hd Hi). fold S0.
    cases_lt Hi; cbv [sumn delta Nat.eqb]; ring.
  - intros a Ha. unfold S0. rewrite innovationCovariance_entry by assumption.
    ring.
Qed.

(** After a correction the observed components are the observation
    minus [R] times the weighted innovation. *)
Lemma update_observed f op ov :
  shape 7 7 (P f) ->
  epsilon <= Math_abs (determinant4x4 (innovationCovariance (P f) (R f))) ->
  let s' := state (update f op ov) in
  let w := weighted_innovation f op ov in
  px s' == fst op - R f * w 0%nat /\ py s' == snd op - R f * w 1%nat /\
  vx s' == fst ov - R f * w 2%nat /\ vy s' == snd ov - R f * w 3%nat.
Proof.
  intros Hs Hd. cbv zeta.
  pose proof (update_gain_entry f op ov 0 Hs ltac:(lia) Hd) as H0.
  pose proof (update_gain_entry f op ov 1 Hs ltac:(lia) Hd) as H1.
  pose proof (update_gain_entry f op ov 2 Hs ltac:(lia) Hd) as H2.
  pose proof (update_gain_entry f op ov 3 Hs ltac:(lia) Hd) as H3.
  unfold update. cbn [state px py vx vy].
  change (mapi _ _) with [fst op - px (state f); snd op - py (state f);
                          fst ov - vx (state f); snd ov - vy (state f)].
  rewrite H0, H1, H2, H3. cbv [innovation nth].
  repeat split; ring.
Qed.

(** *** Solving with a coercive matrix *)

Lemma coercive_solve_bound (M : nat -> nat -> Q) (lam : Q) (w y : nat -> Q) :
  0 < lam -> coercive 4 lam M ->
  (forall a, (a < 4)%nat -> sumn 4 (fun b => M a b * w b) == y a) ->
  lam * lam * norm2 4 w <= norm2 4 y.
Proof.
  intros Hl Hc Hsol.
  pose proof (Hc w) as Hq.
  assert (Eq : qf 4 M w == sumn 4 (fun a => w a * y a)).
  { transitivity (sumn 4 (fun a => w a * sumn 4 (fun b => M a b * w b))).
    - cbv [qf sumn]. ring.
    - apply sumn_ext. intros a Ha. rewrite (Hsol a Ha). reflexivity. }
  rewrite Eq in Hq.
  set (W := norm2 4 w) in *. set (Y := norm2 4 y). set (D := sumn 4 (fun a => w a * y a)) in *.
  assert (HW : 0 <= W) by (unfold W, norm2; apply sumn_squares_nonneg).
  assert (HY : 0 <= Y) by (unfold Y, norm2; apply sumn_squares_nonneg).
  assert (CS : D * D <= W * Y).
  { assert (E : W * Y - D * D ==
                (w 0%nat * y 1%nat - w 1%nat * y 0%nat) * (w 0%nat * y 1%nat - w 1%nat * y 0%nat)
                + (w 0%nat * y 2%nat - w 2%nat * y 0%nat) * (w 0%nat * y 2%nat - w 2%nat * y 0%nat)
                + (w 0%nat * y 3%nat - w 3%nat * y 0%nat) * (w 0%nat * y 3%nat - w 3%nat * y 0%nat)
                + (w 1%nat * y 2%nat - w 2%nat * y 1%nat) * (w 1%nat * y 2%nat - w 2%nat * y 1%nat)
                + (w 1%nat * y 3%nat - w 3%nat * y 1%nat) * (w 1%nat * y 3%nat - w 3%nat * y 1%nat)
                + (w 2%nat * y 3%nat - w 3%nat * y 2%nat) * (w 2%nat * y 3%nat - w 3%nat * y 2%nat)).
    { unfold W, Y, D. cbv [norm2 sumn]. ring. }
    assert (Hsq : forall x : Q, 0 <= x * x) by (intros x; nra).
    assert (0 <= W * Y - D * D).
    { rewrite E.
      pose proof (Hsq (w 0%nat * y 1%nat - w 1%nat * y 0%nat)).
      pose proof (Hsq (w 0%nat * y 2%nat - w 2%nat * y 0%nat)).
      pose proof (Hsq (w 0%nat * y 3%nat - w 3%nat * y 0%nat)).
      pose proof (Hsq (w 1%nat * y 2%nat - w 2%nat * y 1%nat)).
      pose proof (Hsq (w 1%nat * y 3%nat - w 3%nat * y 1%nat)).
      pose proof (Hsq (w 2%nat * y 3%nat - w 3%nat * y 2%nat)).
      lra. }
    lra. }
  clearbody W Y D.
  destruct (Qlt_le_dec 0 W) as [Hpos | Hzero].
  - assert (H1 : 0 <= lam * W) by nra.
    assert (H2 : (lam * W) * (lam * W) <= D * D) by nra.
    assert (H3 : W * (lam * lam * W) <= W * Y) by nra.
    apply Qnot_lt_le. intros Hlt. nra.
  - assert (W == 0) by lra. nra.
Qed.


(** *** The first correction of a newly created estimator *)

(** The estimator [createParticle] builds, after its first prediction. *)
Definition first_prediction (s : StateVector) : ExtendedKalmanFilter :=
  predict (new_filter s 10.0 ParticleSystem.dt).

Lemma first_prediction_quadratic_form (s : StateVector) (u : nat -> Q) :
  qf 4 (at2 (innovationCovariance (P (first_prediction s)) 0.1)) u ==
  10 * (u 0%nat * u 0%nat) + 10 * (u 1%nat * u 1%nat)
  + 10 * ((0.016 * u 0%nat + (1 - mu s * 0.016) * u 2%nat)
          * (0.016 * u 0%nat + (1 - mu s * 0.016) * u 2%nat))
  + 10 * ((0.016 * u 1%nat + (1 - mu s * 0.016) * u 3%nat)
          * (0.016 * u 1%nat + (1 - mu s * 0.016) * u 3%nat))
  + 5 * ((0.5 * 0.016 * 0.016 * u 1%nat + 0.016 * u 3%nat)
         * (0.5 * 0.016 * 0.016 * u 1%nat + 0.016 * u 3%nat))
  + (vx s * 0.016 * u 2%nat + vy s * 0.016 * u 3%nat)
    * (vx s * 0.016 * u 2%nat + vy s * 0.016 * u 3%nat)
  + 0.11 * norm2 4 u.
Proof.
  unfold first_prediction, ParticleSystem.dt.
  cbv [qf sumn norm2]. mat_eval. ring.
Qed.

Lemma first_prediction_coercive (s : StateVector) :
  0 <= mu s <= 2 ->
  coercive 4 9 (at2 (innovationCovariance (P (first_prediction s)) 0.1)).
Proof.
  intros Hmu u. rewrite first_prediction_quadratic_form.
  set (a := 1 - mu s * 0.016).
  assert (Ha : 0.968 <= a <= 1) by (unfold a; lra).
  set (u0 := u 0%nat). set (u1 := u 1%nat). set (u2 := u 2%nat). set (u3 := u 3%nat).
  assert (En : norm2 4 u == u0 * u0 + u1 * u1 + u2 * u2 + u3 * u3)
    by (cbv [norm2 sumn]; unfold u0, u1, u2, u3; ring).
  rewrite En.
  assert (Hsq : forall x : Q, 0 <= x * x) by (intros x; nra).
  pose proof (Hsq (0.5 * 0.016 * 0.016 * u1 + 0.016 * u3)) as G1.
  pose proof (Hsq (vx s * 0.016 * u2 + vy s * 0.016 * u3)) as G2.
  assert (Hpair : forall p q : Q,
             8.89 * (q * q) - 1.11 * (p * p)
             <= 10 * ((0.016 * p + a * q) * (0.016 * p + a * q))).
  { intros p q.
    pose proof (Hsq (0.05 * (a * q) + 0.016 * p)) as K1.
    pose proof (Hsq q) as K2.
    assert (K3 : 0.937 <= a * a) by nra.
    assert (K4 : 0.937 * (q * q) <= (a * q) * (a * q)) by nra.
    set (t := a * q) in *. clearbody t. nra. }
  pose proof (Hpair u0 u2) as P1. pose proof (Hpair u1 u3) as P2.
  clearbody u0 u1 u2 u3 a.
  set (A1 := (0.016 * u0 + a * u2) * (0.016 * u0 + a * u2)) in *.
  set (A2 := (0.016 * u1 + a * u3) * (0.016 * u1 + a * u3)) in *.
  set (B1 := (0.5 * 0.016 * 0.016 * u1 + 0.016 * u3)
             * (0.5 * 0.016 * 0.016 * u1 + 0.016 * u3)) in *.
  set (B2 := (vx s * 0.016 * u2 + vy s * 0.016 * u3)
             * (vx s * 0.016 * u2 + vy s * 0.016 * u3)) in *.
  clearbody A1 A2 B1 B2. lra.
Qed.

Lemma first_prediction_ok (s : StateVector) :
  shape 7 7 (P (first_prediction s)) /\
  R (first_prediction s) = 0.1 /\
  epsilon <= Math_abs (determinant4x4
                         (innovationCovariance (P (first_prediction s))
                                               (R (first_prediction s)))).
Proof.
  unfold first_prediction.
  pose proof (predict_ok _ (new_filter_ok s 10.0 ParticleSystem.dt)) as [Hs [_ HR]].
  assert (Hpsd : psd7 (P (predict (new_filter s 10.0 ParticleSystem.dt)))).
  { apply psd_predict; [ apply new_filter_ok | ].
    apply psd_new_filter. lra. }
  split; [ exact Hs | split; [ exact HR | ] ].
  rewrite HR. now apply innovationCovariance_invertible.
Qed.

(** The first correction takes the observed components to the
    observation, up to a tenth of the weighted innovation, which is at
    most a ninth of the innovation. *)
Lemma first_correction (s : StateVector) (op ov : Q * Q) :
  0 <= mu s <= 2 ->
  let f1 := first_prediction s in
  let s' := state (update f1 op ov) in
  let w := weighted_innovation f1 op ov in
  (px s' == fst op - 0.1 * w 0%nat /\ py s' == snd op - 0.1 * w 1%nat /\
   vx s' == fst ov - 0.1 * w 2%nat /\ vy s' == snd ov - 0.1 * w 3%nat) /\
  81 * norm2 4 w <= norm2 4 (innovation f1 op ov).
Proof.
  intros Hmu. cbv zeta.
  destruct (first_prediction_ok s) as [Hs [HR Hd]].
  split.
  - pose proof (update_observed (first_prediction s) op ov Hs Hd) as H.
    cbv zeta in H. rewrite HR in H. exact H.
  - pose proof (coercive_solve_bound
                  (at2 (innovationCovariance (P (first_prediction s)) 0.1)) 9
                  (weighted_innovation (first_prediction s) op ov)
                  (innovation (first_prediction s) op ov)
                  ltac:(lra) (first_prediction_coercive s Hmu)) as Hb.
    assert (E : 81 * norm2 4 (weighted_innovation (first_prediction s) op ov)
                == 9 * 9 * norm2 4 (weighted_innovation (first_prediction s) op ov))
      by ring.
    rewrite E. apply Hb. intros a Ha.
    pose proof (weighted_innovation_solves (first_prediction s) op ov a Hs Hd Ha) as Hw.
    rewrite HR in Hw. exact Hw.
Qed.


(** *** One tick of a particle that has just been pushed by a collision *)

Lemma square_le_bound (x b : Q) : 0 <= b -> x * x <= b * b -> - b <= x <= b.
Proof. intros Hb H. split; nra. Qed.

(** The estimation step of the tick for a particle whose estimator is
    newly created with belief [s], after the collision pass has moved
    it by [5/6 h] from [(cx, cy)] and set its velocity to [8/3 h], the
    estimator still believing the velocity [- 10/3 h]: the particle ends
    where the true motion takes it, up to 0.04 in every observed
    component. *)
Lemma estimate_after_collision
      (q : Particle) (s : StateVector) (cx cy hx hy r0 r1 r2 r3 : Q) :
  filter q = new_filter s 10.0 ParticleSystem.dt ->
  0 <= g s <= 20 -> 0 <= mu s <= 2 ->
  px s == cx -> py s == cy ->
  vx s == - (10 # 3) * hx -> vy s == - (10 # 3) * hy ->
  V.x (position q) == cx + (5 # 6) * hx -> V.y (position q) == cy + (5 # 6) * hy ->
  V.x (velocity q) == (8 # 3) * hx -> V.y (velocity q) == (8 # 3) * hy ->
  -0.3 <= hx <= 0.3 -> -0.3 <= hy <= 0.3 ->
  0 <= r0 <= 1 -> 0 <= r1 <= 1 -> 0 <= r2 <= 1 -> 0 <= r3 <= 1 ->
  let q' := ParticleSystem.estimateParticle true r0 r1 r2 r3 q in
  exists ex ey evx evy,
    (-0.04 <= ex <= 0.04 /\ -0.04 <= ey <= 0.04 /\
     -0.04 <= evx <= 0.04 /\ -0.04 <= evy <= 0.04) /\
    V.x (position q') == cx + ((5 # 6) + (8 # 3) * 0.016) * hx + ex /\
    V.y (position q') == cy + ((5 # 6) + (8 # 3) * 0.016) * hy
                         - 0.5 * 9.8 * 0.016 * 0.016 + ey /\
    V.z (position q') = V.z (position q) /\
    V.x (velocity q') == (8 # 3) * 0.9984 * hx + evx /\
    V.y (velocity q') == (8 # 3) * 0.9984 * hy - 9.8 * 0.016 + evy /\
    V.z (velocity q') = V.z (velocity q) /\
    id q' = id q.
Proof.
  intros Hf Hg Hmu Hpx Hpy Hvx Hvy Hqx Hqy Hqvx Hqvy Hhx Hhy Hr0 Hr1 Hr2 Hr3.
  cbv zeta. unfold ParticleSystem.estimateParticle.
  cbn [position velocity id V.x V.y V.z getState].
  rewrite Hf. fold (first_prediction s).
  set (t := ParticleSystem.applyPhysics q).
  set (op := (px t + (r0 - 0.5) * 0.01, py t + (r1 - 0.5) * 0.01)).
  set (ov := (vx t + (r2 - 0.5) * 0.01, vy t + (r3 - 0.5) * 0.01)).
  destruct (first_correction s op ov Hmu) as [[Ex [Ey [Evx Evy]]] Hnorm].
  set (w := weighted_innovation (first_prediction s) op ov) in *.
  set (y := innovation (first_prediction s) op ov) in *.
  (* the innovation *)
  assert (Y0 : y 0%nat == ((5 # 6) + 6 * 0.016) * hx + (r0 - 0.5) * 0.01).
  { unfold y, innovation, op, ov, t, first_prediction, ParticleSystem.applyPhysics.
    cbn [nth fst snd state predict predictedState new_filter dt px py vx vy g mu
         ParticleSystem.dt].
    unfold ParticleSystem.dt. rewrite Hqx, Hqvx, Hpx, Hvx. field. }
  assert (Y1 : y 1%nat == ((5 # 6) + 6 * 0.016) * hy + (r1 - 0.5) * 0.01
                          + 0.5 * 0.016 * 0.016 * (g s - 9.8)).
  { unfold y, innovation, op, ov, t, first_prediction, ParticleSystem.applyPhysics.
    cbn [nth fst snd state predict predictedState new_filter dt px py vx vy g mu].
    unfold ParticleSystem.dt, ParticleSystem.trueGravity.
    rewrite Hqy, Hqvy, Hpy, Hvy. field. }
  assert (Y2 : y 2%nat == (8 # 3) * 0.9984 * hx + (10 # 3) * hx * (1 - 0.016 * mu s)
                          + (r2 - 0.5) * 0.01).
  { unfold y, innovation, op, ov, t, first_prediction, ParticleSystem.applyPhysics.
    cbn [nth fst snd state predict predictedState new_filter dt px py vx vy g mu].
    unfold ParticleSystem.dt. rewrite Hqvx, Hvx. field. }
  assert (Y3 : y 3%nat == (8 # 3) * 0.9984 * hy + (10 # 3) * hy * (1 - 0.016 * mu s)
                          + 0.016 * (g s - 9.8) + (r3 - 0.5) * 0.01).
  { unfold y, innovation, op, ov, t, first_prediction, ParticleSystem.applyPhysics.
    cbn [nth fst snd state predict predictedState new_filter dt px py vx vy g mu].
    unfold ParticleSystem.dt, ParticleSystem.trueGravity.
    rewrite Hqvy, Hvy. field. }
  assert (B0 : -0.29 <= y 0%nat <= 0.29) by (rewrite Y0; lra).
  assert (B1 : -0.29 <= y 1%nat <= 0.29) by (rewrite Y1; lra).
  assert (Hmx : - 1 <= (10 # 3) * hx * (1 - 0.016 * mu s) <= 1).
  { set (k := 1 - 0.016 * mu s). assert (0.968 <= k <= 1) by (unfold k; lra).
    clearbody k. split; nra. }
  assert (Hmy : - 1 <= (10 # 3) * hy * (1 - 0.016 * mu s) <= 1).
  { set (k := 1 - 0.016 * mu s). assert (0.968 <= k <= 1) by (unfold k; lra).
    clearbody k. split; nra. }
  assert (B2 : -1.81 <= y 2%nat <= 1.81).
  { rewrite Y2. set (k := (10 # 3) * hx * (1 - 0.016 * mu s)) in *. clearbody k. lra. }
  assert (B3 : -1.97 <= y 3%nat <= 1.97).
  { rewrite Y3. set (k := (10 # 3) * hy * (1 - 0.016 * mu s)) in *. clearbody k. lra. }
  assert (Hy : norm2 4 y <= 7.7841).
  { cbv [norm2 sumn].
    set (y0 := y 0%nat) in *. set (y1 := y 1%nat) in *.
    set (y2 := y 2%nat) in *. set (y3 := y 3%nat) in *.
    clearbody y0 y1 y2 y3. nra. }
  assert (Hw : norm2 4 w <= 0.31 * 0.31) by lra.
  assert (Hsq : forall x : Q, 0 <= x * x) by (intros x; nra).
  assert (W : forall a, (a < 4)%nat -> -0.31 <= w a <= 0.31).
  { intros a Ha.
    assert (Hb : - (0.31) <= w a <= 0.31); [ | lra ].
    apply square_le_bound; [ lra | ].
    cbv [norm2 sumn] in Hw.
    pose proof (Hsq (w 0%nat)). pose proof (Hsq (w 1%nat)).
    pose proof (Hsq (w 2%nat)). pose proof (Hsq (w 3%nat)).
    cases_lt Ha; lra. }
  pose proof (W 0%nat ltac:(lia)) as W0. pose proof (W 1%nat ltac:(lia)) as W1.
  pose proof (W 2%nat ltac:(lia)) as W2. pose proof (W 3%nat ltac:(lia)) as W3.
  exists ((r0 - 0.5) * 0.01 - 0.1 * w 0%nat), ((r1 - 0.5) * 0.01 - 0.1 * w 1%nat),
         ((r2 - 0.5) * 0.01 - 0.1 * w 2%nat), ((r3 - 0.5) * 0.01 - 0.1 * w 3%nat).
  split; [ repeat split; lra | ].
  split; [ | split; [ | split; [ reflexivity | split; [ | split;
    [ | split; reflexivity ] ] ] ] ].
  - rewrite Ex. unfold op, t, ParticleSystem.applyPhysics.
    cbn [fst snd px py vx vy]. unfold ParticleSystem.dt.
    rewrite Hqx, Hqvx. field.
  - rewrite Ey. unfold op, t, ParticleSystem.applyPhysics.
    cbn [fst snd px py vx vy]. unfold ParticleSystem.dt, ParticleSystem.trueGravity.
    rewrite Hqy, Hqvy. field.
  - rewrite Evx. unfold ov, t, ParticleSystem.applyPhysics.
    cbn [fst snd px py vx vy]. unfold ParticleSystem.dt.
    rewrite Hqvx. field.
  - rewrite Evy. unfold ov, t, ParticleSystem.applyPhysics.
    cbn [fst snd px py vx vy]. unfold ParticleSystem.dt, ParticleSystem.trueGravity.
    rewrite Hqvy. field.
Qed.

Section Boundaries.

Variable Math_sqrt : Q -> Q.

(** A particle that the estimation step leaves inside the box is not
    touched by the boundary conditions. *)
Lemma tickParticle_inside le r0 r1 r2 r3 p events :
  let p' := ParticleSystem.estimateParticle le r0 r1 r2 r3 p in
  -5 <= V.x (position p') <= 5 -> -5 <= V.y (position p') <= 5 ->
  -5 <= V.z (position p') <= 5 ->
  ParticleSystem.tickParticle Math_sqrt le r0 r1 r2 r3 (p, events) = (p', events).
Proof.
  cbv zeta. intros Hx Hy Hz. unfold ParticleSystem.tickParticle.
  set (p' := ParticleSystem.estimateParticle le r0 r1 r2 r3 p) in *.
  unfold ParticleSystem.boundaryX.
  assert (X1 : Qlt_bool (V.x (position p')) ParticleSystem.bounds_min = false)
    by (apply Qlt_bool_false_iff; unfold ParticleSystem.bounds_min; lra).
  assert (X2 : Qlt_bool ParticleSystem.bounds_max (V.x (position p')) = false)
    by (apply Qlt_bool_false_iff; unfold ParticleSystem.bounds_max; lra).
  rewrite X1, X2.
  unfold ParticleSystem.boundaryY.
  assert (Y1 : Qlt_bool (V.y (position p')) ParticleSystem.bounds_min = false)
    by (apply Qlt_bool_false_iff; unfold ParticleSystem.bounds_min; lra).
  assert (Y2 : Qlt_bool ParticleSystem.bounds_max (V.y (position p')) = false)
    by (apply Qlt_bool_false_iff; unfold ParticleSystem.bounds_max; lra).
  rewrite Y1, Y2.
  unfold ParticleSystem.boundaryZ.
  assert (Z1 : Qlt_bool (V.z (position p')) ParticleSystem.bounds_min = false)
    by (apply Qlt_bool_false_iff; unfold ParticleSystem.bounds_min; lra).
  assert (Z2 : Qlt_bool ParticleSystem.bounds_max (V.z (position p')) = false)
    by (apply Qlt_bool_false_iff; unfold ParticleSystem.bounds_max; lra).
  rewrite Z1, Z2. reflexivity.
Qed.

End Boundaries.


(** *** The scenario of the head-on collision *)

(** A particle as [createParticle] leaves it: its estimator is new, it
    believes the particle's position and velocity, and its beliefs
    about gravity and friction are in the clamped ranges. *)
Definition newly_created (p : Particle) : Prop :=
  let s := state (filter p) in
  filter p = new_filter s 10.0 ParticleSystem.dt /\
  px s = V.x (position p) /\ py s = V.y (position p) /\
  vx s = V.x (velocity p) /\ vy s = V.y (velocity p) /\
  0 <= g s <= 20 /\ 0 <= mu s <= 2.

(** At least 1 away from every wall of the box. *)
Definition well_inside (p : Particle) : Prop :=
  -4 <= V.x (position p) <= 4 /\ -4 <= V.y (position p) <= 4 /\
  -4 <= V.z (position p) <= 4.

Lemma product_bound (u v U V0 : Q) :
  - U <= u <= U -> - V0 <= v <= V0 -> - (U * V0) <= u * v <= U * V0.
Proof. intros Hu Hv. split; nra. Qed.

(** The arithmetic of the end of the tick: the differences of position
    and velocity are those of the true motion along the connecting
    vector [d], up to 0.08 in the observed components. *)
Lemma separating_arithmetic (dx dy dz Ex Ey Evx Evy : Q) :
  dx * dx + dy * dy + dz * dz == 0.09 ->
  -0.08 <= Ex <= 0.08 -> -0.08 <= Ey <= 0.08 ->
  -0.08 <= Evx <= 0.08 -> -0.08 <= Evy <= 0.08 ->
  0 < (5.3248 * dx + Evx) * (2.752 * dx + Ex)
      + (5.3248 * dy + Evy) * (2.752 * dy + Ey)
      + ((16 # 3) * dz) * ((8 # 3) * dz).
Proof.
  intros Hsq HEx HEy HEvx HEvy.
  assert (Hs : forall x : Q, 0 <= x * x) by (intros x; nra).
  pose proof (Hs dx) as Sx. pose proof (Hs dy) as Sy. pose proof (Hs dz) as Sz.
  assert (Bx : - (0.3) <= dx <= 0.3) by (apply square_le_bound; lra).
  assert (By : - (0.3) <= dy <= 0.3) by (apply square_le_bound; lra).
  assert (Ex' : - (0.08) <= Ex <= 0.08) by lra.
  assert (Ey' : - (0.08) <= Ey <= 0.08) by lra.
  assert (Evx' : - (0.08) <= Evx <= 0.08) by lra.
  assert (Evy' : - (0.08) <= Evy <= 0.08) by lra.
  pose proof (product_bound dx Ex _ _ Bx Ex') as P1.
  pose proof (product_bound dx Evx _ _ Bx Evx') as P2.
  pose proof (product_bound Evx Ex _ _ Evx' Ex') as P3.
  pose proof (product_bound dy Ey _ _ By Ey') as P4.
  pose proof (product_bound dy Evy _ _ By Evy') as P5.
  pose proof (product_bound Evy Ey _ _ Evy' Ey') as P6.
  assert (E : (5.3248 * dx + Evx) * (2.752 * dx + Ex)
              + (5.3248 * dy + Evy) * (2.752 * dy + Ey)
              + ((16 # 3) * dz) * ((8 # 3) * dz)
              == 5.3248 * 2.752 * (dx * dx) + 5.3248 * 2.752 * (dy * dy)
                 + (128 # 9) * (dz * dz)
                 + 5.3248 * (dx * Ex) + 2.752 * (dx * Evx) + Evx * Ex
                 + 5.3248 * (dy * Ey) + 2.752 * (dy * Evy) + Evy * Ey) by ring.
  rewrite E.
  set (mxx := dx * dx) in *. set (myy := dy * dy) in *. set (mzz := dz * dz) in *.
  set (m1 := dx * Ex) in *. set (m2 := dx * Evx) in *. set (m3 := Evx * Ex) in *.
  set (m4 := dy * Ey) in *. set (m5 := dy * Evy) in *. set (m6 := Evy * Ey) in *.
  clearbody mxx myy mzz m1 m2 m3 m4 m5 m6. lra.
Qed.

Section EndOfTick.

Variable Math_sqrt : Q -> Q.


End EndOfTick.

(** [createParticle] leaves a newly created particle. *)
Lemma createParticle_newly_created (r0 r1 r2 : Q) (sys : ParticleSystem.t)
      (id0 : string) (position0 initialVelocity : V.t) :
  let r := ParticleSystem.createParticle r0 r1 r2 sys id0 position0 initialVelocity in
  exists p,
    deref (ParticleSystem.objects (fst r)) (snd r) = Some p /\
    newly_created p /\ position p = position0 /\ velocity p = initialVelocity.
Proof.
  cbv zeta. unfold ParticleSystem.createParticle. cbn [fst snd ParticleSystem.objects].
  eexists. split.
  - unfold deref. rewrite nth_error_app2 by lia.
    rewrite PeanoNat.Nat.sub_diag. reflexivity.
  - split; [ | split; reflexivity ].
    unfold newly_created. cbn [filter position velocity new_filter state
                                px py vx vy g mu V.x V.y].
    repeat split; try reflexivity.
    + apply Math_max_lower.
    + apply Math_max_min_upper. lra.
    + apply Math_max_lower.
    + apply Math_max_min_upper. lra.
Qed.

